(** * MedGuide: the instruction matcher of [app.py]

    A shallow embedding of [match_instructions] and of the helpers it calls
    ([_expand_variants], [_snippet], [_seq_ratio], the [FORMS] vocabulary),
    together with the properties of the matching engine.

    Modelling conventions.
    - A Python [str] is a list of characters; a character is a code point
      below 256 (the type [ascii]), on which [str.lower], [str.isspace] and
      the comparison of strings are those of Python.
    - A Python [float] is the rational number it holds: a number with a
      significand of 53 bits.  An operation on floats returns the double
      nearest to the exact result, ties to the even significand
      ([Float.double]); the decimal constants of the code are the doubles
      nearest to them.  The exponent range is left out: a quotient of two
      lengths and its products with 0.9 and 0.85 are far from it.
      [round(x, 3)] rounds the exact value of [x] to the nearest thousandth,
      ties to even; the score it returns is written as that thousandth.
    - A Python [set] of strings is a duplicate-free list.  The order in which
      CPython enumerates a set of strings depends on the per-process string
      hash; [match_instructions] therefore takes a [rank] on strings and
      enumerates a set by increasing rank.  Every order is obtained for some
      rank.
    - A raised exception is the [Raise] branch of [result].
    - What the code does not decide is an input of the function that meets
      it: whether the request can be read ([request_files]), whether SQLite
      carries a write out ([writable], [accepted], [committed]). *)

From Stdlib Require Import Ascii String NArith ZArith QArith Qround Qpower.
From Stdlib Require Import Bool Lia Lqa.
From Stdlib Require Import List.
From Stdlib Require Import Sorting.Sorted Sorting.Permutation.
Import ListNotations.

Close Scope Q_scope.
Set Implicit Arguments.

(** ** Python strings *)

Module PyStr.

Definition str := list ascii.

(** A string literal. *)
Definition lit (s : string) : str := list_ascii_of_string s.

Definition str_eq_dec : forall a b : str, {a = b} + {a <> b} :=
  list_eq_dec ascii_dec.

Definition str_eqb (a b : str) : bool :=
  if str_eq_dec a b then true else false.

(** [c.isspace()] for a code point below 256: TAB..CR, FS..US, SPACE, NEL
    and NBSP.  The class [\s] of [re] on [str] patterns is the same set. *)
Definition isspace (c : ascii) : bool :=
  let n := N_of_ascii c in
  ((9 <=? n) && (n <=? 13) || (28 <=? n) && (n <=? 32)
   || (n =? 133) || (n =? 160))%N.

(** [c.lower()]: the letters A..Z and the capital letters of Latin-1
    (U+00C0..U+00DE but the multiplication sign U+00D7) move up by 32. *)
Definition lower_char (c : ascii) : ascii :=
  let n := N_of_ascii c in
  if ((65 <=? n) && (n <=? 90)
      || (192 <=? n) && (n <=? 222) && negb (n =? 215))%N
  then ascii_of_N (n + 32) else c.

Definition lower (s : str) : str := map lower_char s.

Fixpoint dropwhile (p : ascii -> bool) (s : str) : str :=
  match s with
  | [] => []
  | c :: s' => if p c then dropwhile p s' else s
  end.

(** [s.strip(chars)] with [p] the membership in [chars]. *)
Definition strip_with (p : ascii -> bool) (s : str) : str :=
  rev (dropwhile p (rev (dropwhile p s))).

(** [s.strip()] *)
Definition strip (s : str) : str := strip_with isspace s.

Definition mem_chars (chars : str) (c : ascii) : bool :=
  existsb (Ascii.eqb c) chars.

(** [s.split()]: the maximal runs of non-blank characters. *)
Fixpoint split_ws_aux (cur : str) (s : str) : list str :=
  match s with
  | [] => match cur with [] => [] | _ => [rev cur] end
  | c :: s' =>
      if isspace c
      then match cur with
           | [] => split_ws_aux [] s'
           | _ => rev cur :: split_ws_aux [] s'
           end
      else split_ws_aux (c :: cur) s'
  end.

Definition split_ws (s : str) : list str := split_ws_aux [] s.

(** [s.split(sep)] for a one-character separator: empty pieces are kept. *)
Fixpoint split_on_aux (sep : ascii) (cur : str) (s : str) : list str :=
  match s with
  | [] => [rev cur]
  | c :: s' =>
      if Ascii.eqb c sep
      then rev cur :: split_on_aux sep [] s'
      else split_on_aux sep (c :: cur) s'
  end.

Definition split_on (sep : ascii) (s : str) : list str := split_on_aux sep [] s.

(** [re.split(r"[...]+", s)] with [p] the character class: the pieces between
    the maximal runs of separators, an empty piece where [s] starts or ends
    with a separator. *)
Fixpoint re_split_aux (p : ascii -> bool) (in_sep : bool) (cur : str) (s : str)
  : list str :=
  match s with
  | [] => [rev cur]
  | c :: s' =>
      if p c
      then if in_sep
           then re_split_aux p true [] s'
           else rev cur :: re_split_aux p true [] s'
      else re_split_aux p false (c :: cur) s'
  end.

Definition re_split (p : ascii -> bool) (s : str) : list str :=
  re_split_aux p false [] s.

(** [sep.join(l)] *)
Fixpoint join (sep : str) (l : list str) : str :=
  match l with
  | [] => []
  | [x] => x
  | x :: l' => x ++ sep ++ join sep l'
  end.

Fixpoint prefixb (p s : str) : bool :=
  match p, s with
  | [], _ => true
  | _ :: _, [] => false
  | a :: p', b :: s' => Ascii.eqb a b && prefixb p' s'
  end.

(** [p in s] on strings: [p] occurs in [s] as a contiguous piece. *)
Fixpoint contains (s p : str) : bool :=
  prefixb p s || match s with [] => false | _ :: s' => contains s' p end.

(** [c in s] for a character. *)
Definition has_char (c : ascii) (s : str) : bool := existsb (Ascii.eqb c) s.

(** The order of [str]: lexicographic on code points. *)
Fixpoint str_compare (a b : str) : comparison :=
  match a, b with
  | [], [] => Eq
  | [], _ :: _ => Lt
  | _ :: _, [] => Gt
  | x :: a', y :: b' =>
      match N.compare (N_of_ascii x) (N_of_ascii y) with
      | Eq => str_compare a' b'
      | c => c
      end
  end.

Definition str_leb (a b : str) : bool :=
  match str_compare a b with Gt => false | _ => true end.

(** Truth value of a string: non-empty. *)
Definition truthy (s : str) : bool :=
  match s with [] => false | _ => true end.

(** [str_le a b]: [a <= b] on Python strings. *)
Definition str_le (a b : str) : Prop := str_compare a b <> Gt.

(** The first character of [s], if any, is kept by [dropwhile p]. *)
Definition clean_head (p : ascii -> bool) (s : str) : Prop :=
  match s with
  | [] => True
  | c :: _ => p c = false
  end.

End PyStr.
Import PyStr.

(** ** Python sets of strings, as duplicate-free lists *)

Module PySet.

Definition mem (x : str) (s : list str) : bool := existsb (str_eqb x) s.

(** [s.add(x)] *)
Definition add (x : str) (s : list str) : list str :=
  if mem x s then s else s ++ [x].

(** [set(l)] *)
Definition of_list (l : list str) : list str :=
  fold_left (fun s x => add x s) l [].

(** [a & b] *)
Definition inter (a b : list str) : list str := filter (fun x => mem x b) a.

(** [a - b] *)
Definition diff (a b : list str) : list str :=
  filter (fun x => negb (mem x b)) a.

(** Enumeration of a set by increasing rank (a stable insertion sort). *)
Fixpoint insert_by (rank : str -> N) (x : str) (l : list str) : list str :=
  match l with
  | [] => [x]
  | y :: l' =>
      if (rank y <? rank x)%N then y :: insert_by rank x l' else x :: l
  end.

Definition iter (rank : str -> N) (s : list str) : list str :=
  fold_right (insert_by rank) [] s.

End PySet.

(** ** Python floats

    The nearest integer, ties to even. *)
Definition round_half_even (q : Q) : Z :=
  let f := Qfloor q in
  match Qcompare (q - inject_Z f)%Q (1 # 2)%Q with
  | Lt => f
  | Gt => (f + 1)%Z
  | Eq => if Z.even f then f else (f + 1)%Z
  end.

Module Float.

Definition pow2 (e : Z) : Q := (2 ^ e)%Q.

(** The exponent [e] of a positive number: [2^e <= q < 2^(e+1)]. *)
Definition exponent (q : Q) : Z :=
  let e0 := (Z.log2 (Qnum q) - Z.log2 (Zpos (Qden q)))%Z in
  if Qle_bool (pow2 e0) q then e0 else (e0 - 1)%Z.

(** The double nearest to a positive number: its significand, between
    [2^52] and [2^53], is rounded to an integer. *)
Definition nearest (q : Q) : Q :=
  let s := (exponent q - 52)%Z in
  (inject_Z (round_half_even (q / pow2 s)) * pow2 s)%Q.

(** The double nearest to [q]. *)
Definition double (q : Q) : Q :=
  match Qcompare q 0 with
  | Eq => 0%Q
  | Gt => nearest q
  | Lt => (- nearest (- q))%Q
  end.

(** [x * y] and [x / y] on floats; the code divides by lengths that are not
    0. *)
Definition mul (x y : Q) : Q := double (x * y).

Definition div (x y : Q) : Q := double (x / y).

End Float.

(** ** [difflib.SequenceMatcher(None, a, b).ratio()]

    The matcher of CPython's [difflib], with no junk predicate and the
    default [autojunk]: in a second sequence of 200 elements or more, an
    element occurring more than [len(b) // 100 + 1] times is not indexed. *)

Module Difflib.

Section Matcher.

Variables a b : str.

Definition char_at (s : str) (i : nat) : ascii := nth i s Ascii.zero.

Definition count_char (c : ascii) (s : str) : nat :=
  length (filter (Ascii.eqb c) s).

Definition popular (c : ascii) : bool :=
  (200 <=? length b) && (length b / 100 + 1 <? count_char c b).

Fixpoint indices_from (c : ascii) (j : nat) (s : str) : list nat :=
  match s with
  | [] => []
  | x :: s' =>
      if Ascii.eqb x c then j :: indices_from c (S j) s'
      else indices_from c (S j) s'
  end.

(** [b2j.get(c, [])] *)
Definition b2j (c : ascii) : list nat :=
  if popular c then [] else indices_from c 0 b.

Fixpoint j2len_get (j : nat) (j2len : list (nat * nat)) : nat :=
  match j2len with
  | [] => 0
  | (j', k) :: rest => if j' =? j then k else j2len_get j rest
  end.

(** [j2len.get(j - 1, 0)] *)
Definition j2len_prev (j : nat) (j2len : list (nat * nat)) : nat :=
  match j with
  | 0 => 0
  | S j' => j2len_get j' j2len
  end.

Definition Match := (nat * nat * nat)%type.

(** The loop [for j in b2j.get(a[i], nothing)]. *)
Fixpoint scan_j (blo bhi i : nat) (j2len : list (nat * nat)) (js : list nat)
  (newj2len : list (nat * nat)) (best : Match) : list (nat * nat) * Match :=
  match js with
  | [] => (newj2len, best)
  | j :: js' =>
      if j <? blo then scan_j blo bhi i j2len js' newj2len best
      else if bhi <=? j then (newj2len, best)
      else
        let k := S (j2len_prev j j2len) in
        let '(_, _, bestsize) := best in
        let best' := if bestsize <? k then (i + 1 - k, j + 1 - k, k) else best in
        scan_j blo bhi i j2len js' ((j, k) :: newj2len) best'
  end.

(** The loop [for i in range(alo, ahi)]. *)
Fixpoint scan_i (blo bhi : nat) (idxs : list nat) (j2len : list (nat * nat))
  (best : Match) : Match :=
  match idxs with
  | [] => best
  | i :: idxs' =>
      let '(newj2len, best') :=
        scan_j blo bhi i j2len (b2j (char_at a i)) [] best in
      scan_i blo bhi idxs' newj2len best'
  end.

(** The first [while]: grow the block to the left; [besti] rounds are
    enough, each one taking 1 from [besti]. *)
Fixpoint extend_left (fuel alo blo : nat) (m : Match) : Match :=
  match fuel with
  | 0 => m
  | S fuel' =>
      let '(besti, bestj, bestsize) := m in
      if (alo <? besti) && (blo <? bestj)
         && Ascii.eqb (char_at a (besti - 1)) (char_at b (bestj - 1))
      then extend_left fuel' alo blo (besti - 1, bestj - 1, S bestsize)
      else m
  end.

(** The second [while]: grow the block to the right; [ahi] rounds are
    enough, each one adding 1 to [besti + bestsize], which stays below
    [ahi]. *)
Fixpoint extend_right (fuel ahi bhi : nat) (m : Match) : Match :=
  match fuel with
  | 0 => m
  | S fuel' =>
      let '(besti, bestj, bestsize) := m in
      if (besti + bestsize <? ahi) && (bestj + bestsize <? bhi)
         && Ascii.eqb (char_at a (besti + bestsize)) (char_at b (bestj + bestsize))
      then extend_right fuel' ahi bhi (besti, bestj, S bestsize)
      else m
  end.

(** [find_longest_match(alo, ahi, blo, bhi)]; the two loops on junk never
    run, the junk set being empty. *)
Definition find_longest_match (alo ahi blo bhi : nat) : Match :=
  let m := scan_i blo bhi (seq alo (ahi - alo)) [] (alo, blo, 0) in
  let m := extend_left (fst (fst m)) alo blo m in
  extend_right ahi ahi bhi m.

(** The sum of the sizes of the blocks of [get_matching_blocks()]: the
    longest block of the range, then the ranges on its left and right. *)
Fixpoint matches (fuel alo ahi blo bhi : nat) : nat :=
  match fuel with
  | 0 => 0
  | S fuel' =>
      let '(i, j, k) := find_longest_match alo ahi blo bhi in
      if k =? 0 then 0
      else
        k
        + (if (alo <? i) && (blo <? j) then matches fuel' alo i blo j else 0)
        + (if (i + k <? ahi) && (j + k <? bhi)
           then matches fuel' (i + k) ahi (j + k) bhi else 0)
  end.

(** [ratio()]: [2.0 * matches / length], and [1.0] for two empty strings. *)
Definition ratio : Q :=
  let length_ab := (length a + length b)%nat in
  if length_ab =? 0 then 1%Q
  else Float.div
         (inject_Z (2 * Z.of_nat (matches (S (length a)) 0 (length a) 0
                                          (length b))))
         (inject_Z (Z.of_nat length_ab)).

End Matcher.

(** A block that lies in the range [alo..hi) of the first sequence. *)
Definition block_within (alo hi : nat) (m : Match) : Prop :=
  let '(i, _, k) := m in alo <= i /\ i + k <= hi.

(** The block lengths recorded for a row are at most [n]. *)
Definition lens_below (n : nat) (j2len : list (nat * nat)) : Prop :=
  Forall (fun jk => snd jk <= n) j2len.

End Difflib.

(** ** Exceptions *)

Inductive exn : Type := IndexError.

Inductive result (A : Type) : Type :=
| Ok (x : A)
| Raise (e : exn).

Arguments Ok {A} x.
Arguments Raise {A} e.

Definition bind {A B : Type} (r : result A) (f : A -> result B) : result B :=
  match r with
  | Ok x => f x
  | Raise e => Raise e
  end.

Notation "x <- r ;; k" := (bind r (fun x => k))
  (at level 61, r at next level, right associativity).

(** ** The matcher of [app.py] *)

(** The double quote, code point 34. *)
Definition dquote : ascii := ascii_of_N 34.

Definition _seq_ratio (a b : str) : Q := Difflib.ratio a b.

Definition _snippet (text : str) : str :=
  if negb (truthy text) then [] else strip text.

Definition last_word (p : str) : str :=
  match split_ws p with
  | [] => p
  | ws => last ws []
  end.

Definition _expand_variants (name : str) : result (list str) :=
  let name := strip name in
  if negb (truthy name) then Ok []
  else
    let variants := [lower name] in
    if has_char "/"%char name then
      let parts := map strip (split_on "/"%char name) in
      let variants :=
        fold_left (fun vs p => if truthy p then PySet.add (lower p) vs else vs)
                  parts variants in
      first <- match parts with [] => Raise IndexError | p :: _ => Ok p end ;;
      let fw := split_ws first in
      core <- (if 1 <? length fw then Ok (join (lit " ") (removelast fw))
               else match fw with [] => Raise IndexError | w :: _ => Ok w end) ;;
      Ok (fold_left
            (fun vs p =>
               PySet.add (lower (strip (core ++ lit " " ++ last_word p))) vs)
            parts variants)
    else Ok variants.

Definition FORMS : list str :=
  map lit ["cream"; "gel"; "ointment"; "shampoo"; "syrup"; "tablet";
           "capsule"; "solution"; "ointment/cream"; "ointment/gel"]%string.

(** The characters handed to [strip] on line 91: the ten characters
    . , ; : ( ) [ ] / % and the double and single quotes. *)
Definition punctuation : str := lit ".,;:()[]/%" ++ [dquote] ++ lit "'".

(** Line 91: [[w.strip(punctuation) for w in text.split() if w.strip()]] *)
Definition text_words_of (text : str) : list str :=
  map (strip_with (mem_chars punctuation))
      (filter (fun w => truthy (strip w)) (split_ws text)).

(** The class [[\s/,]] *)
Definition is_name_sep (c : ascii) : bool :=
  isspace c || Ascii.eqb c "/"%char || Ascii.eqb c ","%char.

(** Line 103: [set([t.strip() for t in re.split(r"[\s/,]+", drug_lower) if t.strip()])] *)
Definition drug_tokens_of (drug_lower : str) : list str :=
  PySet.of_list
    (map strip
         (filter (fun t => truthy (strip t)) (re_split is_name_sep drug_lower))).

(** Lines 106-110: the tokens outside [FORMS], or all of them when none is. *)
Definition drug_core_tokens_of (drug_tokens : list str) : list str :=
  match PySet.diff drug_tokens FORMS with
  | [] => drug_tokens
  | core => core
  end.

(** Line 130: [set([t for t in re.split(r"\s+", cand) if t])] *)
Definition cand_tokens_of (cand : str) : list str :=
  PySet.of_list (filter truthy (re_split isspace cand)).

(** Truth value of a set: non-empty. *)
Definition truthy_list (l : list str) : bool :=
  match l with [] => false | _ => true end.

(** Line 132: [len(cand_tokens) == 1 and list(cand_tokens)[0] in FORMS] *)
Definition bare_form (cand_tokens : list str) : bool :=
  (length cand_tokens =? 1) && PySet.mem (hd [] cand_tokens) FORMS.

Definition Qlen (l : list str) : Q := inject_Z (Z.of_nat (length l)).

Definition Qltb (x y : Q) : bool := negb (Qle_bool y x).

(** [max(x, y)]: the first of the largest. *)
Definition pymax (x y : Q) : Q := if Qltb x y then y else x.

(** [round(x, 3)] *)
Definition round3 (q : Q) : Q := Qred (round_half_even (q * 1000)%Q # 1000)%Q.

(** [l[:n]] *)
Definition slice_to (A : Type) (n : Z) (l : list A) : list A :=
  if (0 <=? n)%Z then firstn (Z.to_nat n) l
  else firstn (Z.to_nat (Z.of_nat (length l) + n)) l.

Record MatchResult : Type := mkMatch {
  drug_name : str;
  matched_variant : str;
  instruction_snippet : str;
  score : Q
}.

(** The sort key [(-x[3], x[0])] and its strict order on tuples. *)
Definition key_ltb (x y : MatchResult) : bool :=
  if Qeq_bool (- score x)%Q (- score y)%Q
  then match str_compare (drug_name x) (drug_name y) with
       | Lt => true
       | _ => false
       end
  else Qltb (- score x)%Q (- score y)%Q.

(** [x] may stand before [y]: a larger score, or the same score and a name
    that is not larger. *)
Definition ranked_before (x y : MatchResult) : Prop :=
  (score y < score x)%Q
  \/ ((score x == score y)%Q /\ str_le (drug_name x) (drug_name y)).

(** [results.sort(key=...)]: a stable sort. *)
Fixpoint insert_sorted (x : MatchResult) (l : list MatchResult)
  : list MatchResult :=
  match l with
  | [] => [x]
  | y :: l' => if key_ltb y x then y :: insert_sorted x l' else x :: l
  end.

Definition sort_results (l : list MatchResult) : list MatchResult :=
  fold_right insert_sorted [] l.

Section Match.

(** The order in which a set of strings is enumerated. *)
Variable rank : str -> N.

Section Entry.

Variables (text_words : list str) (text_join : str).

(** Lines 141-158: the score of a variant that is not a piece of the text. *)
Definition fuzzy_score (cand : str) (cand_tokens : list str)
  (keyword_match_ratio : Q) : Q :=
  let overlap :=
    match cand_tokens with
    | [] => 0%Q
    | _ => Float.div
             (Qlen (PySet.inter cand_tokens (PySet.of_list text_words)))
             (Qlen cand_tokens)
    end in
  let window_size := Nat.max 1 (length cand_tokens) in
  let windows :=
    Z.to_nat (Z.max 1 (Z.of_nat (length text_words)
                       - Z.of_nat window_size + 1)) in
  let max_ngram_ratio :=
    fold_left
      (fun acc i =>
         let window := join (lit " ") (firstn window_size (skipn i text_words)) in
         let r := _seq_ratio cand window in
         if Qltb acc r then r else acc)
      (seq 0 windows) 0%Q in
  let whole_ratio := _seq_ratio cand text_join in
  let max_ngram_ratio := pymax max_ngram_ratio whole_ratio in
  pymax (pymax max_ngram_ratio (Float.mul overlap (Float.double (9 # 10))))
        (Float.mul keyword_match_ratio (Float.double (85 # 100))).

(** Lines 125-165: the loop on the variants, with its [continue]s and its
    [break]; the state is [(best_score, best_variant, any_candidate)]. *)
Fixpoint scan_variants (keyword_match_ratio : Q) (variants : list str)
  (best_score : Q) (best_variant : option str) (any_candidate : bool)
  : Q * option str * bool :=
  match variants with
  | [] => (best_score, best_variant, any_candidate)
  | cand :: rest =>
      let cand := lower (strip cand) in
      if negb (truthy cand)
      then scan_variants keyword_match_ratio rest
                         best_score best_variant any_candidate
      else
        let cand_tokens := cand_tokens_of cand in
        if bare_form cand_tokens
        then scan_variants keyword_match_ratio rest
                           best_score best_variant any_candidate
        else
          let score :=
            if contains text_join cand then 1%Q
            else fuzzy_score cand cand_tokens keyword_match_ratio in
          let '(best_score', best_variant') :=
            if Qltb best_score score then (score, Some cand)
            else (best_score, best_variant) in
          if Qle_bool (Float.double (999 # 1000)) best_score'
          then (best_score', best_variant', true)
          else scan_variants keyword_match_ratio rest
                             best_score' best_variant' true
  end.

(** Lines 170-176 *)
Definition boost (best_score keyword_match_ratio : Q) : Q :=
  if Qle_bool 1%Q keyword_match_ratio
  then pymax best_score (Float.double (95 # 100))
  else if Qle_bool (Float.double (8 # 10)) keyword_match_ratio
       then pymax best_score (Float.double (85 # 100))
  else best_score.

(** Line 113: [drug_core_tokens & set(text_words)] *)
Definition matched_tokens_of (drug : str) : list str :=
  PySet.inter (drug_core_tokens_of (drug_tokens_of (lower drug)))
              (PySet.of_list text_words).

(** Line 114 *)
Definition keyword_match_ratio_of (drug : str) : Q :=
  match drug_core_tokens_of (drug_tokens_of (lower drug)) with
  | [] => 0%Q
  | core => Float.div (Qlen (matched_tokens_of drug)) (Qlen core)
  end.

(** Lines 99-180: the body of the loop on the catalog; [None] where the
    entry is left out. *)
Definition match_entry (cutoff : Q) (drug instr : str)
  : result (option MatchResult) :=
  if negb (truthy drug) || negb (truthy (strip drug)) then Ok None
  else
    let matched_tokens := matched_tokens_of drug in
    let keyword_match_ratio := keyword_match_ratio_of drug in
    if negb (truthy_list matched_tokens) then Ok None
    else
      variants <- _expand_variants drug ;;
      let '(best_score, best_variant, any_candidate) :=
        scan_variants keyword_match_ratio (PySet.iter rank variants)
                      0%Q None false in
      if negb any_candidate then Ok None
      else
        let final_score := boost best_score keyword_match_ratio in
        if Qle_bool cutoff final_score && truthy_list matched_tokens
        then Ok (Some (mkMatch drug
                               (match best_variant with
                                | Some v => v
                                | None => drug
                                end)
                               (_snippet instr)
                               (round3 final_score)))
        else Ok None.

(** Lines 97-98: the loop on the catalog. *)
Fixpoint match_loop (cutoff : Q) (items : list (str * str))
  : result (list MatchResult) :=
  match items with
  | [] => Ok []
  | (drug, instr) :: rest =>
      r <- match_entry cutoff drug instr ;;
      results <- match_loop cutoff rest ;;
      Ok (match r with
          | Some x => x :: results
          | None => results
          end)
  end.

End Entry.

(** [match_instructions(extracted_text, cutoff, max_results)], on the catalog
    [instructions_db] that [get_all_drugs_dict()] returns; [None] is Python's
    [None], and the float [cutoff] is the double nearest to the number
    given. *)
Definition match_instructions (instructions_db : list (str * str))
  (extracted_text : option str) (cutoff : Q) (max_results : Z)
  : result (list MatchResult) :=
  match extracted_text with
  | None => Ok []
  | Some [] => Ok []
  | Some extracted_text =>
      let text := lower extracted_text in
      let text_words := text_words_of text in
      let text_join := join (lit " ") text_words in
      results <- match_loop text_words text_join (Float.double cutoff)
                            instructions_db ;;
      Ok (slice_to max_results (sort_results results))
  end.

End Match.


(** The enumeration of a set in the order of insertion. *)
Definition first_come : str -> N := fun _ => 0%N.

(** Scenario A of the specification. *)
Definition scenario_A_db : list (str * str) :=
  [(lit "Betamethasone Cream/Ointment", lit "Apply thin layer twice daily")].

Definition scenario_A_text : str :=
  lit "apply betamethasone cream twice daily".

Definition scenario_A_result : MatchResult :=
  mkMatch (lit "Betamethasone Cream/Ointment") (lit "betamethasone cream")
          (lit "Apply thin layer twice daily") 1%Q.

(** A catalog of four entries, a text that names them all, and the list
    returned for them. *)
Definition ranking_db : list (str * str) :=
  [(lit "Aspirin", lit "x"); (lit "Betamethasone Cream/Ointment", lit "y");
   (lit "Zinc Oxide", lit "z"); (lit "Aspirin Tablet", lit "w")].

Definition ranking_text : str :=
  lit "zinc oxide, betamethasone and aspirin (tablet)".

Definition ranking_results : list MatchResult :=
  [mkMatch (lit "Aspirin") (lit "aspirin") (lit "x") 1%Q;
   mkMatch (lit "Aspirin Tablet") (lit "aspirin tablet") (lit "w") 1%Q;
   mkMatch (lit "Zinc Oxide") (lit "zinc oxide") (lit "z") 1%Q;
   mkMatch (lit "Betamethasone Cream/Ointment")
           (lit "betamethasone cream/ointment") (lit "y") (19 # 20)%Q].

(** A name of 1500 letters and a form, and an enumeration of sets that puts
    the variant rebuilt from that name and its form first. *)
Definition long_word : str := repeat "a"%char 1500.

Definition rebuilt_first : str -> N :=
  fun s => if str_eqb s (long_word ++ lit " x") then 0%N else 1%N.

(** ** The other helpers of [app.py] *)

Definition ALLOWED_EXTENSIONS : list str :=
  map lit ["png"; "jpg"; "jpeg"; "docx"]%string.

(** The first [sep] of [s]: what stands before it and what stands after. *)
Fixpoint break_at (sep : ascii) (s : str) : option (str * str) :=
  match s with
  | [] => None
  | c :: s' =>
      if Ascii.eqb c sep then Some ([], s')
      else match break_at sep s' with
           | None => None
           | Some (before, after) => Some (c :: before, after)
           end
  end.

(** [s.rsplit(sep, 1)]: [s] cut at its last [sep], or [s] alone. *)
Definition rsplit1 (sep : ascii) (s : str) : list str :=
  match break_at sep (rev s) with
  | None => [s]
  | Some (after, before) => [rev before; rev after]
  end.

(** Lines 30-31 *)
Definition allowed_file (filename : str) : result bool :=
  if has_char "."%char filename
  then match nth_error (rsplit1 "."%char filename) 1 with
       | None => Raise IndexError
       | Some ext => Ok (PySet.mem (lower ext) ALLOWED_EXTENSIONS)
       end
  else Ok false.

(** Lines 73-78 *)
Definition _is_core_token_match (core_tokens text_words : list str) : bool :=
  existsb (fun t => truthy t && existsb (str_eqb t) text_words) core_tokens.

(** A block that lies in the range [blo..hi) of the second sequence. *)
Definition block_within_b (blo hi : nat) (m : Difflib.Match) : Prop :=
  let '(_, j, k) := m in blo <= j /\ j + k <= hi.

(** The blocks recorded for a row end in the range [blo..bhi) of the second
    sequence and start in it. *)
Definition lens_in_b (blo bhi : nat) (j2len : list (nat * nat)) : Prop :=
  Forall (fun jk => blo + snd jk <= S (fst jk) /\ fst jk < bhi) j2len.

(** What the loop on the variants keeps true of its state: the best score
    is between 0 and 1; it is positive once a candidate was scored; and when
    it is positive the best variant is one of the variants, trimmed and
    lowercased. *)
Definition scan_state_ok (all : list str) (st : Q * option str * bool)
  : Prop :=
  let '(best_score, best_variant, any_candidate) := st in
  (0 <= best_score <= 1)%Q
  /\ (any_candidate = true -> (0 < best_score)%Q)
  /\ ((0 < best_score)%Q ->
      exists v, In v all /\ best_variant = Some (lower (strip v))).

(** ** The two pages that call the matcher

    A response is either [flash(message, category)] followed by
    [redirect(url_for(endpoint))], or [render_template('results.html', ...)]
    with its three keyword arguments. *)

Inductive response : Type :=
| Redirect (endpoint message category : str)
| RenderResults (instructions : list MatchResult) (ocr_text search_mode : str).

(** [str(e)] *)
Definition exn_message (e : exn) : str :=
  match e with
  | IndexError => lit "list index out of range"
  end.

(** Lines 218-230; [search_text] is the field of that name of the form,
    [None] when the form has none. *)
Definition patient_search (rank : str -> N)
  (instructions_db : list (str * str)) (search_text : option str)
  : result response :=
  let search_text :=
    strip (match search_text with Some s => s | None => [] end) in
  if negb (truthy search_text)
  then Ok (Redirect (lit "patient")
                    (lit "Please enter a medicine name to search")
                    (lit "error"))
  else
    matches <- match_instructions rank instructions_db (Some search_text)
                                  (25 # 100)%Q 10%Z ;;
    Ok (RenderResults matches search_text (lit "text")).

(** What reading [request.files] gives, on lines 187 and 191: the name of
    the file of the field [file], [None] when the form has no such field.
    The form is parsed at that first reading, which raises
    [RequestEntityTooLarge] when the body of the request is longer than the
    [MAX_CONTENT_LENGTH] of line 28. *)
Inductive request_files : Type :=
| TooLarge
| Files (file : option str).

(** How the upload page ends: with a response, or with an exception that
    leaves the function, raised by the reading of the request or by the
    lines that stand outside the [try]. *)
Inductive outcome : Type :=
| Responds (resp : response)
| RequestEntityTooLarge
| Uncaught (e : exn).

(** Lines 186-215; [extracted] is what [extract_text_from_image] returns for
    the file: a string on every path of that function. *)
Definition patient_upload (rank : str -> N)
  (instructions_db : list (str * str)) (files : request_files)
  (extracted : str) : outcome :=
  match files with
  | TooLarge => RequestEntityTooLarge
  | Files None =>
      Responds (Redirect (lit "patient") (lit "No file uploaded")
                         (lit "error"))
  | Files (Some filename) =>
      if str_eqb filename []
      then Responds (Redirect (lit "patient") (lit "No file selected")
                              (lit "error"))
      else
        match (if truthy filename then allowed_file filename else Ok false)
        with
        | Raise e => Uncaught e
        | Ok true =>
            let extracted_text :=
              if truthy extracted then extracted else [] in
            match match_instructions rank instructions_db
                                     (Some extracted_text) (25 # 100)%Q 10%Z
            with
            | Ok matches =>
                Responds (RenderResults matches extracted_text (lit "image"))
            | Raise e =>
                Responds (Redirect (lit "patient")
                            (lit "Error processing image: " ++ exn_message e)
                            (lit "error"))
            end
        | Ok false =>
            Responds
              (Redirect (lit "patient")
                 (lit "Invalid file type. Please upload an image (JPG, PNG, JPEG)")
                 (lit "error"))
        end
  end.

(** ** The table [drug_information] of [utils/database.py]

    The table is the list of its rows in the order of their ids, with the
    counter of [AUTOINCREMENT].  The constraint [UNIQUE] on [drug] makes an
    [INSERT] or an [UPDATE] that would give two rows the same name fail with
    [sqlite3.IntegrityError]; [ORDER BY drug] is the order of strings on
    code points.

    SQLite may refuse a write with [sqlite3.OperationalError]: the database
    is locked, as it is while a connection that was never closed holds its
    transaction (the connection of an [add_drug] that was rejected is one),
    or its file cannot be written.  Whether SQLite carries a write out is an
    input of the functions that write, [writable]; what is read is read from
    a database that can be opened. *)

Module Database.

Record row : Type := mkRow {
  row_id : Z;
  row_drug : str;
  row_instructions : str
}.

Record table : Type := mkTable {
  rows : list row;
  last_id : Z
}.

(** The table that [init_database] creates. *)
Definition empty_table : table := mkTable [] 0.

Definition has_drug (drug : str) (rs : list row) : bool :=
  existsb (fun r => str_eqb (row_drug r) drug) rs.

Definition has_id (id : Z) (rs : list row) : bool :=
  existsb (fun r => (row_id r =? id)%Z) rs.

(** [INSERT INTO drug_information (drug, instructions) VALUES (?, ?)];
    [None] is [IntegrityError]. *)
Definition sql_insert (drug instructions : str) (t : table) : option table :=
  if has_drug drug (rows t) then None
  else Some (mkTable (rows t ++ [mkRow (last_id t + 1) drug instructions])
                     (last_id t + 1)).

(** [INSERT OR REPLACE INTO drug_information ...]: the row of that name, if
    any, is deleted first. *)
Definition sql_insert_or_replace (drug instructions : str) (t : table)
  : table :=
  mkTable (filter (fun r => negb (str_eqb (row_drug r) drug)) (rows t)
           ++ [mkRow (last_id t + 1) drug instructions])
          (last_id t + 1).

(** [UPDATE drug_information SET drug = ?, instructions = ? WHERE id = ?] *)
Definition sql_update (id : Z) (drug instructions : str) (t : table)
  : option table :=
  if has_id id (rows t)
  then
    if existsb (fun r => negb (row_id r =? id)%Z && str_eqb (row_drug r) drug)
               (rows t)
    then None
    else Some (mkTable
                 (map (fun r => if (row_id r =? id)%Z
                                then mkRow id drug instructions else r)
                      (rows t))
                 (last_id t))
  else Some t.

(** [DELETE FROM drug_information WHERE id = ?] *)
Definition sql_delete (id : Z) (t : table) : table :=
  mkTable (filter (fun r => negb (row_id r =? id)%Z) (rows t)) (last_id t).

(** [ORDER BY drug] *)
Fixpoint insert_row (r : row) (l : list row) : list row :=
  match l with
  | [] => [r]
  | y :: l' =>
      match str_compare (row_drug y) (row_drug r) with
      | Lt => y :: insert_row r l'
      | _ => r :: l
      end
  end.

Definition order_by_drug (l : list row) : list row :=
  fold_right insert_row [] l.

(** [d[k] = v] on a dictionary, a list of its items in the order of
    insertion. *)
Fixpoint dict_set (k v : str) (d : list (str * str)) : list (str * str) :=
  match d with
  | [] => [(k, v)]
  | (k', v') :: d' =>
      if str_eqb k' k then (k', v) :: d' else (k', v') :: dict_set k v d'
  end.

(** [{k: v for k, v in pairs}] *)
Definition dict_of (pairs : list (str * str)) : list (str * str) :=
  fold_left (fun d kv => dict_set (fst kv) (snd kv) d) pairs [].

(** Lines 161-170 *)
Definition get_all_drugs (t : table) : list (Z * str * str) :=
  map (fun r => (row_id r, row_drug r, row_instructions r))
      (order_by_drug (rows t)).

(** Lines 172-181 *)
Definition get_all_drugs_dict (t : table) : list (str * str) :=
  dict_of (map (fun r => (row_drug r, row_instructions r))
               (order_by_drug (rows t))).

(** The integers that [sqlite3] binds to a statement: those of 64 bits; any
    other raises [OverflowError]. *)
Definition int64 (n : Z) : bool := (- 2 ^ 63 <=? n)%Z && (n <? 2 ^ 63)%Z.

(** Lines 183-201: [False] on [IntegrityError], and on any other exception
    too. *)
Definition add_drug (writable : bool) (drug instructions : str) (t : table)
  : bool * table :=
  if writable
  then match sql_insert (strip drug) (strip instructions) t with
       | Some t' => (true, t')
       | None => (false, t)
       end
  else (false, t).

(** Lines 203-219: [False] on every exception. *)
Definition update_drug (writable : bool) (drug_id : Z)
  (drug instructions : str) (t : table) : bool * table :=
  if writable && int64 drug_id
  then match sql_update drug_id (strip drug) (strip instructions) t with
       | Some t' => (true, t')
       | None => (false, t)
       end
  else (false, t).

(** Lines 221-234: [False] on every exception. *)
Definition delete_drug (writable : bool) (drug_id : Z) (t : table)
  : bool * table :=
  if writable && int64 drug_id then (true, sql_delete drug_id t)
  else (false, t).

(** Lines 88-98 of [load_from_docx_to_db]: the items of the dictionary are
    written one by one, and those that SQLite accepts are counted; an item
    whose write raises [sqlite3.Error] is passed over.  [accepted] tells, by
    the name of the item, whether its write is carried out. *)
Definition store_all (accepted : str -> bool)
  (instructions : list (str * str)) (t : table) : nat * table :=
  fold_left (fun ct kv =>
               if accepted (fst kv)
               then (S (fst ct),
                     sql_insert_or_replace (fst kv) (snd kv) (snd ct))
               else ct)
            instructions (0, t).

(** The tables that the functions above make of the empty table. *)
Inductive reachable : table -> Prop :=
| reach_empty : reachable empty_table
| reach_add writable drug instructions t :
    reachable t -> reachable (snd (add_drug writable drug instructions t))
| reach_update writable drug_id drug instructions t :
    reachable t ->
    reachable (snd (update_drug writable drug_id drug instructions t))
| reach_delete writable drug_id t :
    reachable t -> reachable (snd (delete_drug writable drug_id t))
| reach_store accepted instructions t :
    reachable t -> reachable (snd (store_all accepted instructions t)).

(** No two rows have the same name or the same id, and no id is above the
    counter. *)
Definition table_ok (t : table) : Prop :=
  NoDup (map row_drug (rows t))
  /\ NoDup (map row_id (rows t))
  /\ Forall (fun r => (row_id r <= last_id t)%Z) (rows t).

End Database.

(** Lines 239-254 of [app.py]; the answer is the message flashed and its
    category, before the redirection to the admin page. *)
Definition admin_add (writable : bool) (drug instructions : option str)
  (t : Database.table) : (str * str) * Database.table :=
  let drug := strip (match drug with Some s => s | None => [] end) in
  let instructions :=
    strip (match instructions with Some s => s | None => [] end) in
  if negb (truthy drug) || negb (truthy instructions)
  then ((lit "Both drug name and instructions are required", lit "error"), t)
  else
    let '(ok, t') := Database.add_drug writable drug instructions t in
    if (ok : bool)
    then ((lit "Successfully added " ++ drug, lit "success"), t')
    else ((lit "Failed to add " ++ drug ++ lit ". It may already exist.",
           lit "error"), t').

(** ** The import of [load_from_docx_to_db]

    Of the document, the import reads the rows of the tables, each with the
    texts of its cells and the HTML that [_convert_cell_to_html] makes of its
    second cell, and the texts of the paragraphs. *)

Module Docx.

Record document : Type := mkDocument {
  tables : list (list (list str * str));
  paragraphs : list str
}.

(** [key.lower() not in ['drug', 'medicine', 'name']], negated *)
Definition is_header (key : str) : bool :=
  existsb (str_eqb (lower key)) (map lit ["drug"; "medicine"; "name"]%string).

(** [d.setdefault(k, v)] *)
Definition setdefault (k v : str) (d : list (str * str)) : list (str * str) :=
  if existsb (fun kv => str_eqb (fst kv) k) d then d else d ++ [(k, v)].

(** Lines 46-52: one row of a table. *)
Definition read_row (d : list (str * str)) (row : list str * str)
  : list (str * str) :=
  let cells := map strip (fst row) in
  if (2 <=? length cells) && truthy (hd [] cells)
  then
    let name := hd [] cells in
    if negb (is_header name) then Database.dict_set name (snd row) d else d
  else d.

(** Lines 44-52 *)
Definition read_tables (ts : list (list (list str * str)))
  (d : list (str * str)) : list (str * str) :=
  fold_left (fun d table => fold_left read_row table d) ts d.

(** [key, val = line.split(sep, 1)], for a line that has [sep] in it. *)
Definition split1 (sep : ascii) (line : str) : str * str :=
  match break_at sep line with
  | Some (key, val) => (key, val)
  | None => (line, [])
  end.

(** Lines 56-82: the loop on the paragraphs; a key that ends its line takes
    the next paragraph for its value, and that paragraph is passed over. *)
Fixpoint read_paragraphs (paras : list str) (d : list (str * str))
  : list (str * str) :=
  match paras with
  | [] => d
  | line :: rest =>
      if has_char ":"%char line then
        let '(key, val) := split1 ":"%char line in
        let key := strip key in
        let val := strip val in
        if truthy key && negb (is_header key) then
          if truthy val then read_paragraphs rest (setdefault key val d)
          else match rest with
               | next :: rest' => read_paragraphs rest' (setdefault key next d)
               | [] => d
               end
        else read_paragraphs rest d
      else if has_char "-"%char line then
        let '(key, val) := split1 "-"%char line in
        let key := strip key in
        let val := strip val in
        if truthy key && negb (is_header key)
        then read_paragraphs rest (setdefault key val d)
        else read_paragraphs rest d
      else if has_char (ascii_of_N 9) line then
        let '(key, val) := split1 (ascii_of_N 9) line in
        let key := strip key in
        let val := strip val in
        if truthy key && negb (is_header key)
        then read_paragraphs rest (setdefault key val d)
        else read_paragraphs rest d
      else read_paragraphs rest d
  end.

(** Lines 44-82: the dictionary [instructions]. *)
Definition read_document (doc : document) : list (str * str) :=
  read_paragraphs
    (map strip (filter (fun p => truthy (strip p)) (paragraphs doc)))
    (read_tables (tables doc) []).

(** Lines 26-103; the document [None] is a path that does not exist.
    [committed] tells whether the connection of line 85 opens and the
    [commit] of line 100 goes through; when they do not, the exception
    leaves the function, which returns nothing: the result [None]. *)
Definition load_from_docx_to_db (doc : option document)
  (accepted : str -> bool) (committed : bool) (t : Database.table)
  : option (nat * Database.table) :=
  match doc with
  | None => Some (0, t)
  | Some doc =>
      if committed
      then Some (Database.store_all accepted (read_document doc) t)
      else None
  end.

(** A key that the import may store: trimmed, not empty and no header. *)
Definition key_ok (k : str) : Prop :=
  k <> [] /\ strip k = k /\ is_header k = false.

(** A dictionary of the import: its keys are distinct, and may be stored. *)
Definition dict_ok (d : list (str * str)) : Prop :=
  NoDup (map fst d) /\ Forall key_ok (map fst d).

End Docx.

(** A document of one table and two paragraphs. *)
Definition leaflet : Docx.document :=
  Docx.mkDocument
    [[([lit "Drug"; lit "Instructions"], lit "Instructions<br>");
      ([lit " Aspirin "; lit "Take one"], lit "Take one<br>")]]
    [lit "Aspirin: never"; lit "Gel - rub in"].

(** A table of two drugs. *)
Definition two_drugs : Database.table :=
  snd (Database.add_drug true (lit " Zinc Oxide ") (lit "z")
         (snd (Database.add_drug true (lit "Aspirin") (lit " a ")
                 Database.empty_table))).

(** ** The nearest double *)

Lemma round_half_even_bounds (q : Q) :
  (Qfloor q <= round_half_even q <= Qfloor q + 1)%Z.
Proof.
  unfold round_half_even.
  destruct (Qcompare _ _); [destruct (Z.even _)| |]; lia.
Qed.

(** Rounding to the nearest integer keeps the order. *)
Lemma round_half_even_mono (x y : Q) :
  (x <= y)%Q -> (round_half_even x <= round_half_even y)%Z.
Proof.
  intros Hxy.
  pose proof (Qfloor_resp_le _ _ Hxy) as Hf.
  destruct (Z.eq_dec (Qfloor x) (Qfloor y)) as [E|N].
  - unfold round_half_even. rewrite E.
    destruct (Qcompare (x - inject_Z (Qfloor y)) (1 # 2)) eqn:Cx;
      destruct (Qcompare (y - inject_Z (Qfloor y)) (1 # 2)) eqn:Cy;
      try (destruct (Z.even (Qfloor y))); try lia; exfalso;
      repeat match goal with
      | H : Qcompare _ _ = Eq |- _ => apply Qeq_alt in H
      | H : Qcompare _ _ = Lt |- _ => apply Qlt_alt in H
      | H : Qcompare _ _ = Gt |- _ => apply Qgt_alt in H
      end; lra.
  - pose proof (round_half_even_bounds x). pose proof (round_half_even_bounds y).
    lia.
Qed.

Lemma round_half_even_Z (n : Z) : round_half_even (inject_Z n) = n.
Proof.
  unfold round_half_even. rewrite Qfloor_Z.
  replace (Qcompare (inject_Z n - inject_Z n) (1 # 2)) with Lt; [reflexivity|].
  symmetry. apply Qlt_alt.
  assert (E : (inject_Z n - inject_Z n == 0)%Q) by ring.
  rewrite E. reflexivity.
Qed.

(** The nearest integer is at most a half below. *)
Lemma round_half_even_close (q : Q) :
  (q - (1 # 2) <= inject_Z (round_half_even q))%Q.
Proof.
  unfold round_half_even.
  pose proof (Qlt_floor q) as Hlt.
  assert (Hs : (inject_Z (Qfloor q + 1) == inject_Z (Qfloor q) + 1)%Q)
    by (rewrite inject_Z_plus; reflexivity).
  destruct (Qcompare (q - inject_Z (Qfloor q)) (1 # 2)) eqn:E.
  - apply Qeq_alt in E.
    destruct (Z.even (Qfloor q)); [|rewrite Hs]; lra.
  - apply Qlt_alt in E. lra.
  - rewrite Hs. lra.
Qed.

Module FloatFacts.
Import Float.

Lemma pow2_pos (e : Z) : (0 < pow2 e)%Q.
Proof. apply Qpower_0_lt. reflexivity. Qed.

Lemma pow2_le (e f : Z) : (e <= f)%Z -> (pow2 e <= pow2 f)%Q.
Proof. intros H. apply Qpower_le_compat_l; [exact H | discriminate]. Qed.

Lemma pow2_lt_inv (e f : Z) : (pow2 e < pow2 f)%Q -> (e < f)%Z.
Proof. intros H. apply (Qpower_lt_compat_l_inv 2); [exact H | reflexivity]. Qed.

Lemma pow2_add (e f : Z) : (pow2 (e + f) == pow2 e * pow2 f)%Q.
Proof. apply Qpower_plus. discriminate. Qed.

Lemma pow2_Z (n : Z) : (0 <= n)%Z -> (pow2 n == inject_Z (2 ^ n))%Q.
Proof. intros H. unfold pow2. symmetry. exact (Zpower_Qpower 2 n H). Qed.

Lemma pow2_sub (x y : Z) : (0 <= x)%Z -> (0 <= y)%Z ->
  (pow2 (x - y) == inject_Z (2 ^ x) / inject_Z (2 ^ y))%Q.
Proof.
  intros Hx Hy. unfold pow2. rewrite Qpower_minus by discriminate.
  fold (pow2 x) (pow2 y). now rewrite !pow2_Z.
Qed.

(** Fractions of integers. *)
Lemma div_le_frac (X Y a : Z) (b : positive) :
  (0 < Y)%Z -> (X * Zpos b <= a * Y)%Z ->
  (inject_Z X / inject_Z Y <= a # b)%Q.
Proof.
  intros HY H.
  apply Qle_shift_div_r; [change 0%Q with (inject_Z 0); now rewrite <- Zlt_Qlt|].
  unfold Qle, Qmult, inject_Z. simpl. lia.
Qed.

Lemma frac_lt_div (X Y a : Z) (b : positive) :
  (0 < Y)%Z -> (a * Y < X * Zpos b)%Z ->
  (a # b < inject_Z X / inject_Z Y)%Q.
Proof.
  intros HY H.
  apply Qlt_shift_div_l; [change 0%Q with (inject_Z 0); now rewrite <- Zlt_Qlt|].
  unfold Qlt, Qmult, inject_Z. simpl. lia.
Qed.

Lemma exponent_spec (q : Q) :
  (0 < q)%Q -> (pow2 (exponent q) <= q < pow2 (exponent q + 1))%Q.
Proof.
  intros Hq. destruct q as [a b].
  assert (Ha : (0 < a)%Z) by (unfold Qlt in Hq; simpl in Hq; lia).
  pose proof (Z.log2_spec a Ha) as [Ha1 Ha2].
  pose proof (Z.log2_spec (Zpos b) eq_refl) as [Hb1 Hb2].
  pose proof (Z.log2_nonneg a) as Hla.
  pose proof (Z.log2_nonneg (Zpos b)) as Hlb.
  set (la := Z.log2 a) in *. set (lb := Z.log2 (Zpos b)) in *.
  assert (Hpa : (0 < 2 ^ la)%Z) by (apply Z.pow_pos_nonneg; lia).
  assert (Hpb : (0 < 2 ^ lb)%Z) by (apply Z.pow_pos_nonneg; lia).
  rewrite Z.pow_succ_r in Ha2, Hb2 by assumption.
  assert (Hlo : (pow2 (la - lb - 1) <= a # b)%Q).
  { replace (la - lb - 1)%Z with (la - (lb + 1))%Z by lia.
    rewrite pow2_sub by lia. rewrite Z.pow_add_r by lia.
    apply div_le_frac; [lia|]. change (2 ^ 1)%Z with 2%Z. nia. }
  assert (Hhi : (a # b < pow2 (la - lb + 1))%Q).
  { replace (la - lb + 1)%Z with ((la + 1) - lb)%Z by lia.
    rewrite pow2_sub by lia. rewrite Z.pow_add_r by lia.
    apply frac_lt_div; [lia|]. change (2 ^ 1)%Z with 2%Z. nia. }
  unfold exponent. cbn [Qnum Qden]. fold la lb.
  destruct (Qle_bool (pow2 (la - lb)) (a # b)) eqn:E.
  - apply Qle_bool_iff in E. split; assumption.
  - assert (Hlt : (a # b < pow2 (la - lb))%Q).
    { apply Qnot_le_lt. intros H. apply Qle_bool_iff in H. congruence. }
    split; [assumption|].
    replace (la - lb - 1 + 1)%Z with (la - lb)%Z by lia. exact Hlt.
Qed.

Lemma exponent_mono (x y : Q) :
  (0 < x)%Q -> (x <= y)%Q -> (exponent x <= exponent y)%Z.
Proof.
  intros Hx Hxy.
  destruct (exponent_spec Hx) as [H1 _].
  destruct (exponent_spec (Qlt_le_trans _ _ _ Hx Hxy)) as [_ H2].
  assert (H : (pow2 (exponent x) < pow2 (exponent y + 1))%Q) by lra.
  apply pow2_lt_inv in H. lia.
Qed.

(** The scaled significand lies between [2^52] and [2^53]. *)
Lemma significand_range (q : Q) :
  (0 < q)%Q ->
  (inject_Z (2 ^ 52) <= q / pow2 (exponent q - 52) <= inject_Z (2 ^ 53))%Q.
Proof.
  intros Hq. destruct (exponent_spec Hq) as [H1 H2].
  pose proof (pow2_pos (exponent q - 52)) as Hs.
  rewrite <- !pow2_Z by lia.
  split.
  - apply Qle_shift_div_l; [exact Hs|].
    rewrite <- pow2_add.
    replace (52 + (exponent q - 52))%Z with (exponent q) by lia. exact H1.
  - apply Qle_shift_div_r; [exact Hs|].
    rewrite <- pow2_add.
    replace (53 + (exponent q - 52))%Z with (exponent q + 1)%Z by lia.
    now apply Qlt_le_weak.
Qed.

Lemma nearest_range (q : Q) :
  (0 < q)%Q ->
  (pow2 (exponent q) <= nearest q <= pow2 (exponent q + 1))%Q.
Proof.
  intros Hq. destruct (significand_range Hq) as [H1 H2].
  pose proof (pow2_pos (exponent q - 52)) as Hs.
  apply round_half_even_mono in H1, H2. rewrite round_half_even_Z in H1, H2.
  unfold nearest.
  set (m := round_half_even _) in *.
  rewrite Zle_Qle in H1, H2. rewrite <- !pow2_Z in H1, H2 by lia.
  split.
  - replace (exponent q) with (52 + (exponent q - 52))%Z at 1 by lia.
    rewrite pow2_add. apply Qmult_le_compat_r; [exact H1 | lra].
  - replace (exponent q + 1)%Z with (53 + (exponent q - 52))%Z by lia.
    rewrite pow2_add. apply Qmult_le_compat_r; [exact H2 | lra].
Qed.

Lemma nearest_pos (q : Q) : (0 < q)%Q -> (0 < nearest q)%Q.
Proof.
  intros Hq. destruct (nearest_range Hq) as [H _].
  pose proof (pow2_pos (exponent q)). lra.
Qed.

Lemma nearest_mono (x y : Q) :
  (0 < x)%Q -> (x <= y)%Q -> (nearest x <= nearest y)%Q.
Proof.
  intros Hx Hxy.
  assert (Hy : (0 < y)%Q) by lra.
  pose proof (exponent_mono Hx Hxy) as He.
  destruct (Z.eq_dec (exponent x) (exponent y)) as [E|N].
  - unfold nearest. rewrite E.
    pose proof (pow2_pos (exponent y - 52)) as Hs.
    apply Qmult_le_compat_r; [|lra].
    rewrite <- Zle_Qle. apply round_half_even_mono.
    apply Qmult_le_compat_r; [exact Hxy|].
    apply Qlt_le_weak, Qinv_lt_0_compat, Hs.
  - destruct (nearest_range Hx) as [_ H1].
    destruct (nearest_range Hy) as [H2 _].
    assert (H3 : (pow2 (exponent x + 1) <= pow2 (exponent y))%Q)
      by (apply pow2_le; lia).
    lra.
Qed.

Lemma double_pos (q : Q) : (0 < q)%Q -> double q = nearest q.
Proof.
  intros H. unfold double.
  assert (E : Qcompare q 0 = Gt) by now apply Qgt_alt.
  now rewrite E.
Qed.

Lemma double_neg (q : Q) : (q < 0)%Q -> double q = (- nearest (- q))%Q.
Proof.
  intros H. unfold double.
  assert (E : Qcompare q 0 = Lt) by now apply Qlt_alt.
  now rewrite E.
Qed.

Lemma double_zero (q : Q) : (q == 0)%Q -> double q = 0%Q.
Proof.
  intros H. unfold double.
  assert (E : Qcompare q 0 = Eq) by now apply Qeq_alt.
  now rewrite E.
Qed.

(** Rounding to the nearest double keeps the order. *)
Lemma double_mono (x y : Q) : (x <= y)%Q -> (double x <= double y)%Q.
Proof.
  intros Hxy.
  destruct (Q_dec x 0) as [[Hx|Hx]|Hx]; destruct (Q_dec y 0) as [[Hy|Hy]|Hy];
    try (exfalso; lra).
  - rewrite (double_neg Hx), (double_neg Hy).
    assert (H : (nearest (- y) <= nearest (- x))%Q)
      by (apply nearest_mono; lra).
    lra.
  - rewrite (double_neg Hx), (double_pos Hy).
    assert (0 < nearest (- x))%Q by (apply nearest_pos; lra).
    pose proof (nearest_pos Hy). lra.
  - rewrite (double_neg Hx), (double_zero Hy).
    assert (0 < nearest (- x))%Q by (apply nearest_pos; lra). lra.
  - rewrite (double_pos Hx), (double_pos Hy). now apply nearest_mono.
  - rewrite (double_zero Hx), (double_pos Hy).
    pose proof (nearest_pos Hy). lra.
  - rewrite (double_zero Hx), (double_zero Hy). lra.
Qed.

Lemma double_eq (x y : Q) : (x == y)%Q -> (double x == double y)%Q.
Proof.
  intros H. apply Qle_antisym; apply double_mono; lra.
Qed.

Lemma double_0 : double 0 = 0%Q.
Proof. reflexivity. Qed.

Lemma double_1 : (double 1 == 1)%Q.
Proof. vm_compute. reflexivity. Qed.

Lemma double_range (q : Q) : (0 <= q <= 1)%Q -> (0 <= double q <= 1)%Q.
Proof.
  intros [H0 H1]. split.
  - rewrite <- double_0. now apply double_mono.
  - rewrite <- double_1. now apply double_mono.
Qed.

Lemma double_positive (q : Q) : (0 < q)%Q -> (0 < double q)%Q.
Proof. intros H. rewrite (double_pos H). now apply nearest_pos. Qed.



Lemma round_half_even_eq (x y : Q) :
  (x == y)%Q -> round_half_even x = round_half_even y.
Proof.
  intros H. apply Z.le_antisymm; apply round_half_even_mono; lra.
Qed.

Lemma exponent_unique (q : Q) (e : Z) :
  (0 < q)%Q -> (pow2 e <= q < pow2 (e + 1))%Q -> exponent q = e.
Proof.
  intros Hq [H1 H2]. destruct (exponent_spec Hq) as [H3 H4].
  assert (Ha : (pow2 e < pow2 (exponent q + 1))%Q) by lra.
  assert (Hb : (pow2 (exponent q) < pow2 (e + 1))%Q) by lra.
  apply pow2_lt_inv in Ha, Hb. lia.
Qed.

Lemma nearest_eq (x y : Q) :
  (0 < x)%Q -> (x == y)%Q -> (nearest x == nearest y)%Q.
Proof.
  intros Hx H. apply Qle_antisym; apply nearest_mono; lra.
Qed.

(** A double is its own nearest double. *)
Lemma nearest_idem (q : Q) : (0 < q)%Q -> (nearest (nearest q) == nearest q)%Q.
Proof.
  intros Hq. destruct (significand_range Hq) as [H1 H2].
  apply round_half_even_mono in H1, H2. rewrite round_half_even_Z in H1, H2.
  pose proof (nearest_pos Hq) as Hv. revert Hv.
  unfold nearest at 1 3 4.
  set (e := exponent q) in *. set (s := (e - 52)%Z).
  set (m := round_half_even (q / pow2 s)) in *.
  pose proof (pow2_pos s) as Hs. intros Hv.
  destruct (Z.eq_dec m (2 ^ 53)) as [Em | Nm].
  - assert (Ev : (inject_Z m * pow2 s == pow2 (e + 1))%Q).
    { rewrite Em, <- pow2_Z by lia. rewrite <- pow2_add.
      replace (53 + s)%Z with (e + 1)%Z by (unfold s; lia). reflexivity. }
    assert (Ee : exponent (inject_Z m * pow2 s) = (e + 1)%Z).
    { apply exponent_unique; [exact Hv|]. rewrite Ev. split; [lra|].
      apply Qpower_lt_compat_l; [lia | reflexivity]. }
    unfold nearest. rewrite Ee.
    replace (e + 1 - 52)%Z with (1 + s)%Z by (unfold s; lia).
    assert (Eq : (inject_Z m * pow2 s / pow2 (1 + s) == inject_Z (2 ^ 52))%Q).
    { rewrite Ev. replace (e + 1)%Z with (52 + (1 + s))%Z by (unfold s; lia).
      rewrite pow2_add, <- pow2_Z by lia.
      pose proof (pow2_pos (1 + s)) as Hp.
      field. intros E0. rewrite E0 in Hp. now apply Qlt_irrefl in Hp. }
    rewrite (round_half_even_eq Eq), round_half_even_Z.
    rewrite Ev. rewrite <- pow2_Z by lia. rewrite <- pow2_add.
    replace (52 + (1 + s))%Z with (e + 1)%Z by (unfold s; lia). reflexivity.
  - assert (Hm : (m < 2 ^ 53)%Z) by (apply Z.le_neq; split; assumption).
    assert (Ee : exponent (inject_Z m * pow2 s) = e).
    { apply exponent_unique; [exact Hv|].
      rewrite Zle_Qle in H1. rewrite <- pow2_Z in H1 by lia.
      assert (Hlt : (inject_Z m < pow2 53)%Q).
      { rewrite pow2_Z by lia. now rewrite <- Zlt_Qlt. }
      split.
      - replace e with (52 + s)%Z at 1 by (unfold s; lia).
        rewrite pow2_add. apply Qmult_le_compat_r; [exact H1 | lra].
      - replace (e + 1)%Z with (53 + s)%Z by (unfold s; lia).
        rewrite pow2_add. apply Qmult_lt_compat_r; [exact Hs | exact Hlt]. }
    unfold nearest. rewrite Ee. fold s.
    assert (Eq : (inject_Z m * pow2 s / pow2 s == inject_Z m)%Q)
      by (field; intros E0; rewrite E0 in Hs; now apply Qlt_irrefl in Hs).
    rewrite (round_half_even_eq Eq), round_half_even_Z. reflexivity.
Qed.

(** Rounding a double gives it back. *)
Lemma double_idem (q : Q) : (double (double q) == double q)%Q.
Proof.
  destruct (Q_dec q 0) as [[Hq|Hq]|Hq].
  - rewrite (double_neg Hq).
    assert (Hn : (0 < nearest (- q))%Q) by (apply nearest_pos; lra).
    assert (Hneg : (- nearest (- q) < 0)%Q) by lra.
    rewrite (double_neg Hneg).
    assert (E : (- - nearest (- q) == nearest (- q))%Q) by ring.
    assert (Hp : (0 < - - nearest (- q))%Q) by lra.
    rewrite (nearest_eq Hp E), nearest_idem by lra. reflexivity.
  - rewrite (double_pos Hq).
    rewrite (double_pos (nearest_pos Hq)). now apply nearest_idem.
  - rewrite (double_zero Hq). reflexivity.
Qed.

End FloatFacts.

(** ** Sets as lists: membership *)

Lemma str_eqb_eq (a b : str) : str_eqb a b = true <-> a = b.
Proof.
  unfold str_eqb. destruct (str_eq_dec a b); split; congruence.
Qed.

Lemma mem_In (x : str) (s : list str) : PySet.mem x s = true <-> In x s.
Proof.
  unfold PySet.mem. rewrite existsb_exists. split.
  - intros [y [Hy He]]. apply str_eqb_eq in He. now subst.
  - intros H. exists x. split; [assumption | now apply str_eqb_eq].
Qed.

Lemma add_In (x y : str) (s : list str) :
  In x (PySet.add y s) <-> x = y \/ In x s.
Proof.
  unfold PySet.add. destruct (PySet.mem y s) eqn:E.
  - apply mem_In in E. split; [auto | intros [-> | H]; assumption].
  - rewrite in_app_iff. simpl. intuition congruence.
Qed.

Lemma fold_add_In (x : str) (l acc : list str) :
  In x (fold_left (fun s y => PySet.add y s) l acc) <-> In x l \/ In x acc.
Proof.
  revert acc. induction l as [|y l IH]; intros acc; simpl.
  - intuition.
  - rewrite IH, add_In. intuition congruence.
Qed.

Lemma of_list_In (x : str) (l : list str) : In x (PySet.of_list l) <-> In x l.
Proof.
  unfold PySet.of_list. rewrite fold_add_In. simpl. intuition.
Qed.

Lemma inter_In (x : str) (a b : list str) :
  In x (PySet.inter a b) <-> In x a /\ In x b.
Proof.
  unfold PySet.inter. rewrite filter_In, mem_In. reflexivity.
Qed.

Lemma diff_In (x : str) (a b : list str) :
  In x (PySet.diff a b) <-> In x a /\ PySet.mem x b = false.
Proof.
  unfold PySet.diff. rewrite filter_In, negb_true_iff. reflexivity.
Qed.

Lemma insert_by_In (rank : str -> N) (x y : str) (l : list str) :
  In x (PySet.insert_by rank y l) <-> x = y \/ In x l.
Proof.
  induction l as [|z l IH]; simpl.
  - intuition congruence.
  - destruct (rank z <? rank y)%N; simpl; [rewrite IH|]; intuition congruence.
Qed.

Lemma iter_In (rank : str -> N) (x : str) (s : list str) :
  In x (PySet.iter rank s) <-> In x s.
Proof.
  unfold PySet.iter. induction s as [|y s IH]; simpl.
  - reflexivity.
  - rewrite insert_by_In, IH. intuition congruence.
Qed.

Lemma slice_to_nil (A : Type) (n : Z) : slice_to n (@nil A) = [].
Proof.
  unfold slice_to. destruct (0 <=? n)%Z; apply firstn_nil.
Qed.

Lemma firstn_incl (A : Type) (n : nat) (l : list A) (x : A) :
  In x (firstn n l) -> In x l.
Proof.
  intros H. rewrite <- (firstn_skipn n l). apply in_or_app. now left.
Qed.

Lemma slice_to_In (A : Type) (n : Z) (l : list A) (x : A) :
  In x (slice_to n l) -> In x l.
Proof.
  unfold slice_to. destruct (0 <=? n)%Z; apply firstn_incl.
Qed.

(** ** The loop on the catalog *)

Section Loop.

Variables (rank : str -> N) (text_words : list str) (text_join : str).
Variable cutoff : Q.

(** What an entry that is kept went through. *)
Lemma match_entry_Some (drug instr : str) (r : MatchResult) :
  match_entry rank text_words text_join cutoff drug instr = Ok (Some r) ->
  exists variants best_score best_variant,
    matched_tokens_of text_words drug <> []
    /\ _expand_variants drug = Ok variants
    /\ scan_variants text_words text_join
         (keyword_match_ratio_of text_words drug)
         (PySet.iter rank variants) 0%Q None false
       = (best_score, best_variant, true)
    /\ Qle_bool cutoff
         (boost best_score (keyword_match_ratio_of text_words drug)) = true
    /\ r = mkMatch drug
                   (match best_variant with Some v => v | None => drug end)
                   (_snippet instr)
                   (round3 (boost best_score
                                  (keyword_match_ratio_of text_words drug))).
Proof.
  unfold match_entry.
  destruct (negb (truthy drug) || negb (truthy (strip drug))); [discriminate|].
  destruct (matched_tokens_of text_words drug) as [|t ts] eqn:Em;
    [discriminate|]. cbn [truthy_list negb].
  destruct (_expand_variants drug) as [variants|e]; [|discriminate].
  cbn [bind].
  destruct (scan_variants _ _ _ _ _ _ _) as [[bs bv] any] eqn:Es.
  destruct any; [|discriminate]. cbn [negb].
  rewrite andb_true_r.
  destruct (Qle_bool cutoff _) eqn:Ec; [|discriminate].
  intros H. injection H as <-.
  exists variants, bs, bv. repeat split; try assumption; discriminate.
Qed.

(** Every result of the loop is the result of one entry of the catalog. *)
Lemma match_loop_In (items : list (str * str)) (results : list MatchResult) :
  match_loop rank text_words text_join cutoff items = Ok results ->
  forall r, In r results ->
  exists drug instr,
    In (drug, instr) items
    /\ match_entry rank text_words text_join cutoff drug instr = Ok (Some r).
Proof.
  revert results. induction items as [|[drug instr] items IH];
    intros results H r Hr; cbn [match_loop] in H.
  - injection H as <-. contradiction.
  - destruct (match_entry rank text_words text_join cutoff drug instr)
      as [o|e] eqn:Ee; [|discriminate]. cbn [bind] in H.
    destruct (match_loop rank text_words text_join cutoff items)
      as [rs|e]; [|discriminate]. cbn [bind] in H.
    injection H as <-.
    assert (Hcase : o = Some r \/ In r rs).
    { destruct o as [x|]; [destruct Hr as [-> | Hr]|]; auto. }
    destruct Hcase as [-> | Hin].
    + exists drug, instr. split; [now left | assumption].
    + destruct (IH rs eq_refl r Hin) as (d & i & Hd & Hm).
      exists d, i. split; [now right | assumption].
Qed.


Lemma match_loop_length (items : list (str * str))
  (results : list MatchResult) :
  match_loop rank text_words text_join cutoff items = Ok results ->
  length results <= length items.
Proof.
  revert results. induction items as [|[d i] items IH];
    intros results H; cbn [match_loop] in H.
  - injection H as <-. apply le_n.
  - destruct (match_entry rank text_words text_join cutoff d i)
      as [o|e]; [|discriminate]. cbn [bind] in H.
    destruct (match_loop rank text_words text_join cutoff items)
      as [rs|e]; [|discriminate]. cbn [bind] in H.
    injection H as <-. specialize (IH rs eq_refl).
    destruct o; simpl; lia.
Qed.

End Loop.

(** ** The order of the results *)

Lemma str_compare_antisym (a b : str) :
  str_compare b a = CompOpp (str_compare a b).
Proof.
  revert b. induction a as [|x a IH]; intros [|y b]; simpl; try reflexivity.
  rewrite (N.compare_antisym (N_of_ascii x) (N_of_ascii y)).
  destruct (N_of_ascii x ?= N_of_ascii y)%N; simpl; auto.
Qed.

Lemma str_le_trans (a b c : str) : str_le a b -> str_le b c -> str_le a c.
Proof.
  unfold str_le. revert b c.
  induction a as [|x a IH]; intros [|y b] [|z c]; simpl;
    try congruence.
  destruct (N.compare_spec (N_of_ascii x) (N_of_ascii y)) as [Hxy|Hxy|Hxy];
    destruct (N.compare_spec (N_of_ascii y) (N_of_ascii z)) as [Hyz|Hyz|Hyz];
    destruct (N.compare_spec (N_of_ascii x) (N_of_ascii z)) as [Hxz|Hxz|Hxz];
    try congruence; try lia.
  apply IH.
Qed.

Lemma Qltb_true (x y : Q) : Qltb x y = true <-> (x < y)%Q.
Proof.
  unfold Qltb. rewrite negb_true_iff. split.
  - intros H. apply Qnot_le_lt. intros Hle.
    apply Qle_bool_iff in Hle. congruence.
  - intros H. destruct (Qle_bool y x) eqn:E; [|reflexivity].
    apply Qle_bool_iff in E. exfalso. exact (Qlt_not_le _ _ H E).
Qed.

Lemma Qltb_false (x y : Q) : Qltb x y = false <-> (y <= x)%Q.
Proof.
  unfold Qltb. rewrite negb_false_iff. apply Qle_bool_iff.
Qed.

Lemma key_ltb_true (x y : MatchResult) :
  key_ltb x y = true -> ranked_before x y.
Proof.
  unfold key_ltb, ranked_before, str_le.
  destruct (Qeq_bool (- score x) (- score y)) eqn:E.
  - apply Qeq_bool_iff in E. intros H. right. split.
    + rewrite <- (Qopp_involutive (score x)), <- (Qopp_involutive (score y)).
      now rewrite E.
    + destruct (str_compare (drug_name x) (drug_name y)); congruence.
  - intros H. apply Qltb_true in H. left.
    now apply Qopp_lt_compat in H; rewrite !Qopp_involutive in H.
Qed.

Lemma key_ltb_false (x y : MatchResult) :
  key_ltb y x = false -> ranked_before x y.
Proof.
  unfold key_ltb, ranked_before, str_le.
  destruct (Qeq_bool (- score y) (- score x)) eqn:E.
  - apply Qeq_bool_iff in E. intros H. right. split.
    + rewrite <- (Qopp_involutive (score x)), <- (Qopp_involutive (score y)).
      now rewrite E.
    + rewrite (str_compare_antisym (drug_name y) (drug_name x)).
      destruct (str_compare (drug_name y) (drug_name x));
        simpl; congruence.
  - intros H. apply Qltb_false in H. left.
    apply Qopp_le_compat in H. rewrite !Qopp_involutive in H.
    apply Qle_lteq in H. destruct H as [H | H]; [assumption|].
    apply Qeq_bool_neq in E. exfalso. apply E. now rewrite H.
Qed.

Lemma ranked_before_trans (x y z : MatchResult) :
  ranked_before x y -> ranked_before y z -> ranked_before x z.
Proof.
  unfold ranked_before.
  intros [Hxy | [Exy Nxy]] [Hyz | [Eyz Nyz]].
  - left. now apply Qlt_trans with (score y).
  - left. now rewrite <- Eyz.
  - left. now rewrite Exy.
  - right. split; [now rewrite Exy | now apply str_le_trans with (drug_name y)].
Qed.

Lemma insert_sorted_In (x y : MatchResult) (l : list MatchResult) :
  In y (insert_sorted x l) <-> y = x \/ In y l.
Proof.
  induction l as [|z l IH]; simpl.
  - intuition congruence.
  - destruct (key_ltb z x); simpl; [rewrite IH|]; intuition congruence.
Qed.

Lemma sort_results_In (y : MatchResult) (l : list MatchResult) :
  In y (sort_results l) <-> In y l.
Proof.
  unfold sort_results. induction l as [|x l IH]; simpl.
  - reflexivity.
  - rewrite insert_sorted_In, IH. intuition congruence.
Qed.

Lemma insert_sorted_length (x : MatchResult) (l : list MatchResult) :
  length (insert_sorted x l) = S (length l).
Proof.
  induction l as [|z l IH]; simpl; [reflexivity|].
  destruct (key_ltb z x); simpl; congruence.
Qed.

Lemma sort_results_length (l : list MatchResult) :
  length (sort_results l) = length l.
Proof.
  unfold sort_results. induction l as [|x l IH]; simpl; [reflexivity|].
  now rewrite insert_sorted_length, IH.
Qed.

Lemma insert_sorted_sorted (x : MatchResult) (l : list MatchResult) :
  StronglySorted ranked_before l ->
  StronglySorted ranked_before (insert_sorted x l).
Proof.
  induction 1 as [|z l Hs IH Hall]; simpl.
  - repeat constructor.
  - destruct (key_ltb z x) eqn:E.
    + constructor; [assumption|].
      apply Forall_forall. intros y Hy.
      apply insert_sorted_In in Hy. destruct Hy as [-> | Hy].
      * now apply key_ltb_true.
      * rewrite Forall_forall in Hall. now apply Hall.
    + apply key_ltb_false in E.
      constructor; [now constructor|].
      constructor; [assumption|].
      rewrite Forall_forall in Hall |- *. intros y Hy.
      apply ranked_before_trans with z; auto.
Qed.

Lemma sort_results_sorted (l : list MatchResult) :
  StronglySorted ranked_before (sort_results l).
Proof.
  unfold sort_results. induction l as [|x l IH]; simpl.
  - constructor.
  - now apply insert_sorted_sorted.
Qed.

Lemma firstn_sorted (n : nat) (l : list MatchResult) :
  StronglySorted ranked_before l -> StronglySorted ranked_before (firstn n l).
Proof.
  intros H. revert n. induction H as [|x l Hs IH Hall]; intros [|n]; simpl;
    try constructor.
  - apply IH.
  - rewrite Forall_forall in Hall |- *. intros y Hy.
    apply Hall. now apply firstn_incl in Hy.
Qed.

Lemma slice_to_sorted (n : Z) (l : list MatchResult) :
  StronglySorted ranked_before l -> StronglySorted ranked_before (slice_to n l).
Proof.
  unfold slice_to. destruct (0 <=? n)%Z; apply firstn_sorted.
Qed.

(** ** Rounding to three decimals *)

Lemma Qmake_1000 (z : Z) : (z # 1000 == inject_Z z * (1 # 1000))%Q.
Proof.
  unfold Qeq, Qmult, inject_Z. simpl. lia.
Qed.

Lemma round_half_even_floor (q : Q) :
  (Qfloor q <= round_half_even q)%Z.
Proof.
  unfold round_half_even.
  destruct (Qcompare _ _); [destruct (Z.even _)| |]; lia.
Qed.


(** Rounding does not cross a thousandth. *)
Lemma round3_grid (n : Z) (q : Q) : (n # 1000 <= q -> n # 1000 <= round3 q)%Q.
Proof.
  intros H. unfold round3. rewrite Qred_correct.
  assert (Hn : (inject_Z n <= q * 1000)%Q)
    by (rewrite Qmake_1000 in H; lra).
  apply Qfloor_resp_le in Hn. rewrite Qfloor_Z in Hn.
  pose proof (round_half_even_floor (q * 1000)) as Hf.
  unfold Qle. simpl. lia.
Qed.

(** A score that is less than half a thousandth below a thousandth is
    rounded to that thousandth or above. *)
Lemma round3_near (n : Z) (q : Q) :
  ((n # 1000) - (1 # 2000) < q -> n # 1000 <= round3 q)%Q.
Proof.
  intros H. unfold round3. rewrite Qred_correct.
  pose proof (round_half_even_close (q * 1000)) as Hc.
  assert (Hn : (inject_Z (n - 1) < inject_Z (round_half_even (q * 1000)))%Q).
  { assert (E : (inject_Z (n - 1) == inject_Z n - 1)%Q)
      by (unfold Zminus; rewrite inject_Z_plus; reflexivity).
    rewrite E. rewrite Qmake_1000 in H. lra. }
  rewrite <- Zlt_Qlt in Hn. unfold Qle. simpl. lia.
Qed.

(** ** The results of [match_instructions] *)

Section Results.

Variables (rank : str -> N) (instructions_db : list (str * str)).
Variables (cutoff : Q) (max_results : Z).

(** Every result comes from the loop body run on one entry of the catalog. *)
Lemma match_instructions_In (text : str) (rs : list MatchResult) :
  match_instructions rank instructions_db (Some text) cutoff max_results
  = Ok rs ->
  forall r, In r rs ->
  exists drug instr,
    In (drug, instr) instructions_db
    /\ match_entry rank (text_words_of (lower text))
         (join (lit " ") (text_words_of (lower text))) (Float.double cutoff)
         drug instr
       = Ok (Some r).
Proof.
  unfold match_instructions. destruct text as [|c text].
  - intros H. injection H as <-. contradiction.
  - set (tw := text_words_of (lower (c :: text))).
    destruct (match_loop rank tw (join (lit " ") tw) (Float.double cutoff)
                         instructions_db)
      as [results|e] eqn:El; [|discriminate].
    cbn [bind]. intros H. injection H as <-. intros r Hr.
    apply slice_to_In in Hr. apply -> sort_results_In in Hr.
    exact (match_loop_In _ _ _ _ _ El r Hr).
Qed.

End Results.

Lemma drug_core_tokens_In (t : str) (drug_tokens : list str) :
  In t (drug_core_tokens_of drug_tokens) ->
  In t drug_tokens
  /\ (PySet.diff drug_tokens FORMS <> [] -> PySet.mem t FORMS = false).
Proof.
  unfold drug_core_tokens_of.
  destruct (PySet.diff drug_tokens FORMS) as [|u core] eqn:Ed.
  - intros H. split; [assumption | congruence].
  - intros H. rewrite <- Ed in H. apply diff_In in H.
    destruct H as [H1 H2]. split; auto.
Qed.

(** ** The claims *)

(** C1 (as amended).  Every result of [match_instructions] bears the name of
    a catalog entry one of whose name tokens is, verbatim, a token of the
    text; that token is outside [FORMS] whenever the name has a token outside
    [FORMS]. A name made of form words only passes the gate on a form word. *)
Theorem match_results_pass_gate (rank : str -> N)
  (instructions_db : list (str * str)) (text : str) (cutoff : Q)
  (max_results : Z) (rs : list MatchResult) :
  match_instructions rank instructions_db (Some text) cutoff max_results
  = Ok rs ->
  forall r, In r rs ->
  exists instr t,
    In (drug_name r, instr) instructions_db
    /\ In t (drug_tokens_of (lower (drug_name r)))
    /\ In t (text_words_of (lower text))
    /\ (PySet.diff (drug_tokens_of (lower (drug_name r))) FORMS <> [] ->
        PySet.mem t FORMS = false).
Proof.
  intros H r Hr.
  destruct (match_instructions_In _ _ _ _ _ H r Hr)
    as (drug & instr & Hin & He).
  apply match_entry_Some in He.
  destruct He as (variants & bs & bv & Hm & _ & _ & _ & ->).
  cbn [drug_name].
  destruct (matched_tokens_of (text_words_of (lower text)) drug)
    as [|t ts] eqn:Em; [congruence|].
  assert (Ht : In t (matched_tokens_of (text_words_of (lower text)) drug))
    by (rewrite Em; now left).
  unfold matched_tokens_of in Ht. apply inter_In in Ht.
  destruct Ht as [Hc Hw]. apply -> of_list_In in Hw.
  apply drug_core_tokens_In in Hc. destruct Hc as [Hc Hf].
  exists instr, t. repeat (split; [assumption|]). assumption.
Qed.

Lemma match_results_pass_gate_witness :
  exists instr t,
    In (lit "Betamethasone Cream/Ointment", instr) scenario_A_db
    /\ In t (drug_tokens_of (lower (lit "Betamethasone Cream/Ointment")))
    /\ In t (text_words_of (lower scenario_A_text))
    /\ (PySet.diff (drug_tokens_of (lower (lit "Betamethasone Cream/Ointment")))
                   FORMS <> [] ->
        PySet.mem t FORMS = false).
Proof.
  refine (@match_results_pass_gate first_come scenario_A_db scenario_A_text
            (25 # 100)%Q 10%Z [scenario_A_result] _ scenario_A_result _).
  - vm_compute. reflexivity.
  - left. reflexivity.
Defined.

(** C1 (as stated) fails: the name [Cream Gel] has no token outside [FORMS],
    yet the text [cream gel] returns it, with score 1. *)
Lemma form_only_name_is_returned :
  match_instructions first_come [(lit "Cream Gel", lit "x")]
                     (Some (lit "cream gel")) (25 # 100)%Q 10%Z
  = Ok [mkMatch (lit "Cream Gel") (lit "cream gel") (lit "x") 1%Q]
  /\ PySet.diff (drug_tokens_of (lower (lit "Cream Gel"))) FORMS = [].
Proof.
  split; vm_compute; reflexivity.
Qed.

(** C2.  A catalog name whose first [/]-separated segment is blank makes
    [_expand_variants] read [fw[0]] of an empty list: on the catalog entry
    [/Cream] and the text [cream], [match_instructions] raises [IndexError]
    instead of returning a list. *)
Theorem blank_first_segment_raises (rank : str -> N) (instr : str)
  (cutoff : Q) (max_results : Z) :
  _expand_variants (lit "/Cream") = Raise IndexError
  /\ match_instructions rank [(lit "/Cream", instr)] (Some (lit "cream"))
                        cutoff max_results
     = Raise IndexError.
Proof.
  split; reflexivity.
Qed.

(** C4 (as amended).  The snippet of every result is the payload of the
    catalog entry of that name with the blanks at its two ends removed. *)
Theorem snippet_is_stripped_payload (rank : str -> N)
  (instructions_db : list (str * str)) (text : str) (cutoff : Q)
  (max_results : Z) (rs : list MatchResult) :
  match_instructions rank instructions_db (Some text) cutoff max_results
  = Ok rs ->
  forall r, In r rs ->
  exists instr,
    In (drug_name r, instr) instructions_db
    /\ instruction_snippet r = strip instr.
Proof.
  intros H r Hr.
  destruct (match_instructions_In _ _ _ _ _ H r Hr)
    as (drug & instr & Hin & He).
  apply match_entry_Some in He.
  destruct He as (variants & bs & bv & _ & _ & _ & _ & ->).
  exists instr. split; [assumption|].
  cbn [instruction_snippet]. unfold _snippet.
  destruct instr; reflexivity.
Qed.

Lemma snippet_is_stripped_payload_witness :
  exists instr,
    In (drug_name scenario_A_result, instr) scenario_A_db
    /\ instruction_snippet scenario_A_result = strip instr.
Proof.
  refine (@snippet_is_stripped_payload first_come scenario_A_db
            scenario_A_text (25 # 100)%Q 10%Z [scenario_A_result] _
            scenario_A_result _).
  - vm_compute. reflexivity.
  - left. reflexivity.
Defined.

(** C4 (as stated) fails: the payload [" take "] comes back as ["take"]. *)
Lemma payload_blanks_are_lost :
  match_instructions first_come [(lit "Aspirin", lit " take ")]
                     (Some (lit "aspirin")) (25 # 100)%Q 10%Z
  = Ok [mkMatch (lit "Aspirin") (lit "aspirin") (lit "take") 1%Q]
  /\ lit "take" <> lit " take ".
Proof.
  split; [vm_compute; reflexivity | discriminate].
Qed.

(** C5.  Scenario C: the name [Cream] expands to the one variant [cream];
    its token [cream] is a token of the text [ointment cream], so that it
    passes the gate, but the variant is a bare form word, which the loop on
    the variants skips: nothing is returned. *)
Theorem scenario_C_returns_nothing (rank : str -> N) (instr : str)
  (max_results : Z) :
  _expand_variants (lit "Cream") = Ok [lit "cream"]
  /\ matched_tokens_of (text_words_of (lower (lit "ointment cream")))
                       (lit "Cream") = [lit "cream"]
  /\ bare_form (cand_tokens_of (lit "cream")) = true
  /\ match_instructions rank [(lit "Cream", instr)]
                        (Some (lit "ointment cream")) (25 # 100)%Q max_results
     = Ok [].
Proof.
  split; [reflexivity|]. split; [reflexivity|]. split; [reflexivity|].
  unfold match_instructions. cbn -[slice_to]. apply f_equal, slice_to_nil.
Qed.

(** C7.  The list returned is sorted: of two results, the one that comes
    first has the larger score, or the same score and a name that is not
    larger in the order of strings. *)
Theorem results_are_ranked (rank : str -> N)
  (instructions_db : list (str * str)) (extracted_text : option str)
  (cutoff : Q) (max_results : Z) (rs : list MatchResult) :
  match_instructions rank instructions_db extracted_text cutoff max_results
  = Ok rs ->
  StronglySorted ranked_before rs.
Proof.
  unfold match_instructions.
  destruct extracted_text as [[|c text]|];
    try (intros H; injection H as <-; constructor).
  destruct (match_loop _ _ _ _ _) as [results|e]; [|discriminate].
  cbn [bind]. intros H. injection H as <-.
  apply slice_to_sorted, sort_results_sorted.
Qed.

(** C8.  An empty text, or no text at all, returns the empty list, whatever
    the catalog, the cutoff and the bound on the results. *)
Theorem empty_text_returns_nothing (rank : str -> N)
  (instructions_db : list (str * str)) (cutoff : Q) (max_results : Z) :
  match_instructions rank instructions_db (Some []) cutoff max_results = Ok []
  /\ match_instructions rank instructions_db None cutoff max_results = Ok [].
Proof.
  split; reflexivity.
Qed.

(** C9.  The filter of line 91 tests the piece before its punctuation is
    stripped, so a piece made of punctuation only leaves an empty token: the
    text [a ... b] has three tokens, the second one empty, and its rejoined
    form has two spaces in a row. *)
Theorem punctuation_piece_leaves_empty_token :
  text_words_of (lower (lit "a ... b")) = [lit "a"; []; lit "b"]
  /\ join (lit " ") (text_words_of (lower (lit "a ... b"))) = lit "a  b".
Proof.
  split; reflexivity.
Qed.

(** ** Blank strings *)

Lemma lower_isspace (c : ascii) : isspace (lower_char c) = isspace c.
Proof.
  destruct c as [[] [] [] [] [] [] [] []]; reflexivity.
Qed.

Lemma lower_blank (s : str) :
  forallb isspace (lower s) = forallb isspace s.
Proof.
  induction s as [|c s IH]; simpl; [reflexivity|].
  now rewrite lower_isspace, IH.
Qed.

Lemma split_ws_blank (s : str) :
  forallb isspace s = true -> split_ws s = [].
Proof.
  unfold split_ws. induction s as [|c s IH]; simpl; [reflexivity|].
  intros H. apply andb_prop in H. destruct H as [Hc Hs].
  rewrite Hc. auto.
Qed.

Lemma inter_nil_r (a : list str) : PySet.inter a (PySet.of_list []) = [].
Proof.
  unfold PySet.inter. induction a as [|x a IH]; simpl; auto.
Qed.

(** With no token in the text, no entry passes the gate. *)
Lemma match_entry_no_words (rank : str -> N) (text_join : str) (cutoff : Q)
  (drug instr : str) :
  match_entry rank [] text_join cutoff drug instr = Ok None.
Proof.
  unfold match_entry.
  destruct (negb (truthy drug) || negb (truthy (strip drug)));
    [reflexivity|].
  unfold matched_tokens_of. rewrite inter_nil_r. reflexivity.
Qed.

Lemma match_loop_no_words (rank : str -> N) (text_join : str) (cutoff : Q)
  (items : list (str * str)) :
  match_loop rank [] text_join cutoff items = Ok [].
Proof.
  induction items as [|[drug instr] items IH]; cbn [match_loop];
    [reflexivity|].
  now rewrite match_entry_no_words, IH.
Qed.

(** C10.  A text that is not empty and holds blanks only returns the empty
    list: it has no token, so that no entry of the catalog passes the gate. *)
Theorem blank_text_returns_nothing (rank : str -> N)
  (instructions_db : list (str * str)) (text : str) (cutoff : Q)
  (max_results : Z) :
  text <> [] ->
  forallb isspace text = true ->
  text_words_of (lower text) = []
  /\ match_instructions rank instructions_db (Some text) cutoff max_results
     = Ok [].
Proof.
  intros Hne Hb.
  assert (Hw : text_words_of (lower text) = []).
  { unfold text_words_of. rewrite split_ws_blank; [reflexivity|].
    now rewrite lower_blank. }
  split; [assumption|].
  unfold match_instructions. destruct text as [|c text]; [congruence|].
  rewrite Hw. rewrite match_loop_no_words. cbn [bind sort_results fold_right].
  now rewrite slice_to_nil.
Qed.

Lemma blank_text_returns_nothing_witness :
  text_words_of (lower (lit "  ")) = []
  /\ match_instructions first_come scenario_A_db (Some (lit "  "))
                        (25 # 100)%Q 10%Z
     = Ok [].
Proof.
  apply (@blank_text_returns_nothing first_come scenario_A_db (lit "  ")
           (25 # 100)%Q 10%Z).
  - discriminate.
  - reflexivity.
Defined.

Lemma results_are_ranked_witness :
  StronglySorted ranked_before ranking_results.
Proof.
  refine (@results_are_ranked first_come ranking_db (Some ranking_text)
            (25 # 100)%Q 10%Z ranking_results _).
  vm_compute. reflexivity.
Defined.

(** ** [strip] and [lower] *)

Section Dropwhile.

Variable p : ascii -> bool.

Lemma dropwhile_clean (s : str) : clean_head p (dropwhile p s).
Proof.
  induction s as [|c s IH]; simpl; [exact I|].
  destruct (p c) eqn:E; [assumption | exact E].
Qed.

Lemma dropwhile_of_clean (s : str) : clean_head p s -> dropwhile p s = s.
Proof.
  destruct s as [|c s]; simpl; [reflexivity|]. now intros ->.
Qed.

Lemma dropwhile_suffix (s : str) : exists w, s = w ++ dropwhile p s.
Proof.
  induction s as [|c s [w IH]]; simpl.
  - now exists [].
  - destruct (p c).
    + exists (c :: w). simpl. now f_equal.
    + now exists [].
Qed.

Lemma dropwhile_incl (s : str) (c : ascii) : In c (dropwhile p s) -> In c s.
Proof.
  destruct (dropwhile_suffix s) as [w Hw]. intros H.
  rewrite Hw. apply in_or_app. now right.
Qed.


Lemma clean_head_rev_dropwhile (t : str) :
  clean_head p t -> clean_head p (rev (dropwhile p (rev t))).
Proof.
  intros Ht. destruct (dropwhile_suffix (rev t)) as [w Hw].
  apply (f_equal (@rev ascii)) in Hw.
  rewrite rev_involutive, rev_app_distr in Hw.
  destruct (rev (dropwhile p (rev t))) as [|c r]; [exact I|].
  rewrite Hw in Ht. exact Ht.
Qed.

Lemma strip_with_idem (s : str) :
  strip_with p (strip_with p s) = strip_with p s.
Proof.
  unfold strip_with.
  rewrite (dropwhile_of_clean (rev (dropwhile p (rev (dropwhile p s))))).
  - rewrite rev_involutive.
    now rewrite (dropwhile_of_clean _ (dropwhile_clean (rev (dropwhile p s)))).
  - apply clean_head_rev_dropwhile, dropwhile_clean.
Qed.

Lemma strip_with_incl (s : str) (c : ascii) : In c (strip_with p s) -> In c s.
Proof.
  unfold strip_with. intros H.
  apply in_rev, dropwhile_incl in H. apply in_rev in H.
  now apply dropwhile_incl in H.
Qed.


End Dropwhile.

Lemma dropwhile_lower (s : str) :
  dropwhile isspace (lower s) = lower (dropwhile isspace s).
Proof.
  induction s as [|c s IH]; simpl; [reflexivity|].
  rewrite lower_isspace. destruct (isspace c); [assumption | reflexivity].
Qed.

Lemma strip_lower (s : str) : strip (lower s) = lower (strip s).
Proof.
  unfold strip, strip_with, lower.
  fold (lower s). rewrite dropwhile_lower. unfold lower at 1.
  rewrite <- map_rev. fold (lower (rev (dropwhile isspace s))).
  rewrite dropwhile_lower. unfold lower. now rewrite map_rev.
Qed.

Lemma lower_char_idem (c : ascii) : lower_char (lower_char c) = lower_char c.
Proof.
  destruct c as [[] [] [] [] [] [] [] []]; reflexivity.
Qed.

Lemma lower_idem (s : str) : lower (lower s) = lower s.
Proof.
  unfold lower. rewrite map_map. apply map_ext, lower_char_idem.
Qed.

(** The variant [name.lower()] is left as it is by line 126. *)
Lemma base_variant_fixed (drug : str) :
  lower (strip (lower (strip drug))) = lower (strip drug).
Proof.
  rewrite strip_lower. unfold strip. now rewrite strip_with_idem, lower_idem.
Qed.

Lemma has_char_strip (c : ascii) (s : str) :
  has_char c s = false -> has_char c (strip s) = false.
Proof.
  unfold has_char. intros H.
  destruct (existsb (Ascii.eqb c) (strip s)) eqn:E; [|reflexivity].
  apply existsb_exists in E. destruct E as [x [Hx Hc]].
  apply strip_with_incl in Hx.
  assert (Ht : existsb (Ascii.eqb c) s = true)
    by (apply existsb_exists; now exists x).
  congruence.
Qed.

(** ** Names and their variants *)







(** A name without [/] has that variant only, and expanding it cannot
    raise. *)
Lemma expand_variants_plain (drug : str) :
  strip drug <> [] ->
  has_char "/" (strip drug) = false ->
  _expand_variants drug = Ok [lower (strip drug)].
Proof.
  unfold _expand_variants. intros Hne Hs.
  destruct (strip drug) as [|c name] eqn:Es; [congruence|].
  cbn [truthy negb]. now rewrite Hs.
Qed.

(** ** The loop on the variants *)

Lemma pymax_ge_l (x y : Q) : (x <= pymax x y)%Q.
Proof.
  unfold pymax. destruct (Qltb x y) eqn:E.
  - apply Qltb_true in E. now apply Qlt_le_weak.
  - apply Qle_refl.
Qed.

Lemma boost_ge (best_score keyword_match_ratio : Q) :
  (best_score <= boost best_score keyword_match_ratio)%Q.
Proof.
  unfold boost.
  destruct (Qle_bool 1 keyword_match_ratio); [apply pymax_ge_l|].
  destruct (Qle_bool _ keyword_match_ratio);
    [apply pymax_ge_l | apply Qle_refl].
Qed.



Lemma double_95 :
  (9495 # 10000 < Float.double (95 # 100))%Q
  /\ (Float.double (95 # 100) <= 1)%Q.
Proof. split; vm_compute; [reflexivity | discriminate]. Qed.

Lemma double_85 :
  (0 < Float.double (85 # 100))%Q /\ (Float.double (85 # 100) <= 1)%Q.
Proof. split; vm_compute; [reflexivity | discriminate]. Qed.

Lemma double_9 :
  (0 <= Float.double (9 # 10))%Q /\ (Float.double (9 # 10) <= 1)%Q.
Proof. split; vm_compute; discriminate. Qed.

Lemma double_quarter : (Float.double (25 # 100) == 25 # 100)%Q.
Proof. vm_compute. reflexivity. Qed.

Section Scan.

Variables (text_words : list str) (text_join : str).
Variable keyword_match_ratio : Q.
Variable hit : str.

Hypothesis hit_truthy : truthy (lower (strip hit)) = true.
Hypothesis hit_not_bare :
  bare_form (cand_tokens_of (lower (strip hit))) = false.
Hypothesis hit_in_text : contains text_join (lower (strip hit)) = true.



End Scan.

Lemma slice_to_all (A : Type) (n : Z) (l : list A) :
  (Z.of_nat (length l) <= n)%Z -> slice_to n l = l.
Proof.
  intros H. unfold slice_to.
  destruct (0 <=? n)%Z eqn:E; [|apply Z.leb_gt in E; lia].
  apply firstn_all2. lia.
Qed.









(** ** The recursion of [get_matching_blocks] is well covered

    The longest block of a range lies in that range, so that the two ranges
    handed on are strictly shorter: the rounds given to [matches] by [ratio]
    are never used up. *)

Module DifflibFacts.
Import Difflib.

Lemma j2len_get_below (n j : nat) (j2len : list (nat * nat)) :
  lens_below n j2len -> j2len_get j j2len <= n.
Proof.
  induction 1 as [|[j' k] l Hk Hl IH]; simpl; [lia|].
  destruct (j' =? j); [exact Hk | exact IH].
Qed.

Lemma j2len_prev_below (n j : nat) (j2len : list (nat * nat)) :
  lens_below n j2len -> j2len_prev j j2len <= n.
Proof.
  destruct j; simpl; [lia | apply j2len_get_below].
Qed.

Lemma scan_j_within (blo bhi alo i : nat) (j2len : list (nat * nat))
  (js : list nat) :
  alo <= i ->
  lens_below (i - alo) j2len ->
  forall newj2len best,
    lens_below (S i - alo) newj2len ->
    block_within alo (S i) best ->
    lens_below (S i - alo) (fst (scan_j blo bhi i j2len js newj2len best))
    /\ block_within alo (S i) (snd (scan_j blo bhi i j2len js newj2len best)).
Proof.
  intros Hi Hj. induction js as [|j js IH]; intros new best Hn Hb; simpl.
  - split; assumption.
  - destruct (j <? blo); [now apply IH|].
    destruct (bhi <=? j); [split; assumption|].
    pose proof (@j2len_prev_below (i - alo) j j2len Hj) as Hk.
    destruct best as [[bi bj] bk].
    apply IH.
    + constructor; [cbn [snd]; lia | assumption].
    + destruct (bk <? S (j2len_prev j j2len)); [|assumption].
      simpl. lia.
Qed.

Lemma scan_i_within (a b : str) (blo bhi alo n : nat) :
  forall i j2len best,
    alo <= i ->
    lens_below (i - alo) j2len ->
    block_within alo i best ->
    block_within alo (i + n) (scan_i a b blo bhi (seq i n) j2len best).
Proof.
  induction n as [|n IH]; intros i j2len best Hi Hj Hb; simpl.
  - now rewrite Nat.add_0_r.
  - assert (Hb' : block_within alo (S i) best).
    { destruct best as [[bi bj] bk]. simpl in *. lia. }
    destruct (@scan_j_within blo bhi alo i j2len (b2j b (char_at a i)) Hi Hj
                [] best (Forall_nil _) Hb') as [Hn Hw].
    destruct (scan_j blo bhi i j2len (b2j b (char_at a i)) [] best)
      as [new best'].
    replace (i + S n) with (S i + n) by lia.
    apply IH; [lia | |assumption].
    exact Hn.
Qed.

Lemma extend_left_within (a b : str) (fuel alo blo hi : nat) (m : Match) :
  block_within alo hi m -> block_within alo hi (extend_left a b fuel alo blo m).
Proof.
  revert m. induction fuel as [|fuel IH]; intros [[bi bj] bk] H; simpl;
    [assumption|].
  destruct ((alo <? bi) && (blo <? bj)
            && Ascii.eqb (char_at a (bi - 1)) (char_at b (bj - 1))) eqn:E;
    [|assumption].
  apply IH. apply andb_prop in E. destruct E as [E _].
  apply andb_prop in E. destruct E as [E _]. apply Nat.ltb_lt in E.
  simpl in *. lia.
Qed.

Lemma extend_right_within (a b : str) (fuel alo ahi bhi : nat) (m : Match) :
  block_within alo ahi m ->
  block_within alo ahi (extend_right a b fuel ahi bhi m).
Proof.
  revert m. induction fuel as [|fuel IH]; intros [[bi bj] bk] H; simpl;
    [assumption|].
  destruct ((bi + bk <? ahi) && (bj + bk <? bhi)
            && Ascii.eqb (char_at a (bi + bk)) (char_at b (bj + bk))) eqn:E;
    [|assumption].
  apply IH. apply andb_prop in E. destruct E as [E _].
  apply andb_prop in E. destruct E as [E _]. apply Nat.ltb_lt in E.
  simpl in *. lia.
Qed.

(** The rounds given to the two loops are enough: where they stop, one more
    round changes nothing. *)
Lemma extend_left_done (a b : str) (fuel alo blo : nat) :
  forall m : Match,
    fst (fst m) <= fuel ->
    extend_left a b 1 alo blo (extend_left a b fuel alo blo m)
    = extend_left a b fuel alo blo m.
Proof.
  induction fuel as [|fuel IH]; intros [[bi bj] bk] H; cbn [fst] in H.
  - assert (bi = 0) as -> by lia. reflexivity.
  - cbn [extend_left].
    destruct ((alo <? bi) && (blo <? bj)
              && Ascii.eqb (char_at a (bi - 1)) (char_at b (bj - 1))) eqn:E.
    + apply IH. cbn [fst]. lia.
    + cbn [extend_left]. now rewrite E.
Qed.

Lemma extend_right_done (a b : str) (fuel ahi bhi : nat) :
  forall m : Match,
    ahi - (fst (fst m) + snd m) <= fuel ->
    extend_right a b 1 ahi bhi (extend_right a b fuel ahi bhi m)
    = extend_right a b fuel ahi bhi m.
Proof.
  induction fuel as [|fuel IH]; intros [[bi bj] bk] H; cbn [fst snd] in H.
  - cbn [extend_right].
    destruct (bi + bk <? ahi) eqn:E; [apply Nat.ltb_lt in E; lia|].
    reflexivity.
  - cbn [extend_right].
    destruct ((bi + bk <? ahi) && (bj + bk <? bhi)
              && Ascii.eqb (char_at a (bi + bk)) (char_at b (bj + bk))) eqn:E.
    + apply IH. cbn [fst snd]. lia.
    + cbn [extend_right]. now rewrite E.
Qed.

(** The block found in a range lies in that range. *)
Lemma find_longest_match_within (a b : str) (alo ahi blo bhi : nat) :
  alo <= ahi ->
  block_within alo ahi (find_longest_match a b alo ahi blo bhi).
Proof.
  intros H. unfold find_longest_match. cbv zeta.
  apply extend_right_within, extend_left_within.
  replace ahi with (alo + (ahi - alo)) at 1 by lia.
  apply scan_i_within.
  - apply le_n.
  - constructor.
  - simpl. lia.
Qed.

(** More rounds than the range is long change nothing. *)
Lemma matches_fuel (a b : str) (fuel1 : nat) :
  forall fuel2 alo ahi blo bhi,
    alo <= ahi -> ahi - alo < fuel1 -> ahi - alo < fuel2 ->
    matches a b fuel1 alo ahi blo bhi = matches a b fuel2 alo ahi blo bhi.
Proof.
  induction fuel1 as [|fuel1 IH]; intros [|fuel2] alo ahi blo bhi Hle H1 H2;
    try lia.
  simpl.
  pose proof (@find_longest_match_within a b alo ahi blo bhi Hle) as Hw.
  destruct (find_longest_match a b alo ahi blo bhi) as [[i j] k].
  simpl in Hw. destruct (k =? 0) eqn:Ek; [reflexivity|].
  apply Nat.eqb_neq in Ek.
  f_equal; [f_equal|].
  - destruct ((alo <? i) && (blo <? j)); [|reflexivity].
    apply IH; lia.
  - destruct ((i + k <? ahi) && (j + k <? bhi)); [|reflexivity].
    apply IH; lia.
Qed.

(** The rounds that [ratio] gives are enough. *)
Lemma ratio_fuel_enough (a b : str) (fuel : nat) :
  length a < fuel ->
  matches a b fuel 0 (length a) 0 (length b)
  = matches a b (S (length a)) 0 (length a) 0 (length b).
Proof.
  intros H. apply matches_fuel; lia.
Qed.

End DifflibFacts.

(** The score 1 of C3 cannot be promised for every name with [/].  The name
    is 1500 letters, [/] and [x]; the text is that name and the word [x].
    The lowercased name is a piece of the text and the entry passes the gate
    on [x]; but when the rebuilt variant (the 1500 letters, a space and [x])
    is enumerated first, it scores 3004/3006, the loop stops there, and the
    score returned is 0.999. *)
Lemma early_break_hides_exact_match :
  contains (join (lit " ") (text_words_of (lower (long_word ++ lit "/x x"))))
           (lower (long_word ++ lit "/x")) = true
  /\ match_instructions rebuilt_first [(long_word ++ lit "/x", lit "i")]
                        (Some (long_word ++ lit "/x x")) (25 # 100)%Q 10%Z
     = Ok [mkMatch (long_word ++ lit "/x") (long_word ++ lit " x") (lit "i")
                   (999 # 1000)%Q].
Proof.
  split; vm_compute; reflexivity.
Qed.

(** ** Further properties of the matcher *)

(** What a call that returns went through. *)
Lemma match_instructions_inv (rank : str -> N)
  (instructions_db : list (str * str)) (extracted_text : option str)
  (cutoff : Q) (max_results : Z) (rs : list MatchResult) :
  match_instructions rank instructions_db extracted_text cutoff max_results
  = Ok rs ->
  rs = []
  \/ exists text results,
       extracted_text = Some text
       /\ text <> []
       /\ match_loop rank (text_words_of (lower text))
            (join (lit " ") (text_words_of (lower text)))
            (Float.double cutoff) instructions_db = Ok results
       /\ rs = slice_to max_results (sort_results results).
Proof.
  unfold match_instructions.
  destruct extracted_text as [[|c text]|];
    try (intros H; injection H as <-; now left).
  destruct (match_loop _ _ _ _ _) as [results|e] eqn:El; [|discriminate].
  cbn [bind]. intros H. injection H as <-. right.
  exists (c :: text), results. repeat split; [discriminate | exact El].
Qed.

Lemma slice_to_length (A : Type) (n : Z) (l : list A) :
  length (slice_to n l) <= length l
  /\ ((0 <= n)%Z -> (Z.of_nat (length (slice_to n l)) <= n)%Z).
Proof.
  unfold slice_to. destruct (0 <=? n)%Z eqn:E.
  - rewrite length_firstn. split; lia.
  - apply Z.leb_gt in E. rewrite length_firstn. split; lia.
Qed.

(** X1.  A call that returns gives no more results than the catalog has
    entries, and no more than [max_results] when that bound is not
    negative. *)
Theorem results_are_bounded (rank : str -> N)
  (instructions_db : list (str * str)) (extracted_text : option str)
  (cutoff : Q) (max_results : Z) (rs : list MatchResult) :
  match_instructions rank instructions_db extracted_text cutoff max_results
  = Ok rs ->
  length rs <= length instructions_db
  /\ ((0 <= max_results)%Z -> (Z.of_nat (length rs) <= max_results)%Z).
Proof.
  intros H. apply match_instructions_inv in H.
  destruct H as [-> | (text & results & _ & _ & El & ->)].
  - simpl. split; lia.
  - destruct (slice_to_length max_results (sort_results results)) as [H1 H2].
    split; [|exact H2].
    rewrite sort_results_length in H1.
    pose proof (match_loop_length _ _ _ _ _ El). lia.
Qed.

Lemma results_are_bounded_witness :
  length (firstn 2 ranking_results) <= length ranking_db
  /\ ((0 <= 2)%Z -> (Z.of_nat (length (firstn 2 ranking_results)) <= 2)%Z).
Proof.
  refine (@results_are_bounded first_come ranking_db (Some ranking_text)
            (25 # 100)%Q 2%Z (firstn 2 ranking_results) _).
  vm_compute. reflexivity.
Defined.

(** The names of the results of the loop are names of the catalog, each
    once when the names of the catalog are distinct. *)
Lemma match_loop_names (rank : str -> N) (text_words : list str)
  (text_join : str) (cutoff : Q) (items : list (str * str)) :
  forall results,
    match_loop rank text_words text_join cutoff items = Ok results ->
    incl (map drug_name results) (map fst items)
    /\ (NoDup (map fst items) -> NoDup (map drug_name results)).
Proof.
  induction items as [|[drug instr] items IH]; intros results H;
    cbn [match_loop] in H.
  - injection H as <-. split; [apply incl_refl | intros _; constructor].
  - destruct (match_entry rank text_words text_join cutoff drug instr)
      as [o|e] eqn:Ee; [|discriminate]. cbn [bind] in H.
    destruct (match_loop rank text_words text_join cutoff items)
      as [rs|e]; [|discriminate]. cbn [bind] in H.
    injection H as <-. destruct (IH rs eq_refl) as [Hi Hn].
    destruct o as [r|].
    + apply match_entry_Some in Ee.
      destruct Ee as (vs & bs & bv & _ & _ & _ & _ & ->).
      cbn [map drug_name fst]. split.
      * intros x [<- | Hx]; [now left | right; now apply Hi].
      * intros Hd. inversion Hd as [|? ? Hnotin Hrest]; subst.
        constructor; [|now apply Hn].
        intros Hin. apply Hnotin. now apply Hi.
    + cbn [map fst]. split.
      * intros x Hx. right. now apply Hi.
      * intros Hd. inversion Hd; subst. now apply Hn.
Qed.

Lemma insert_sorted_perm (x : MatchResult) (l : list MatchResult) :
  Permutation (insert_sorted x l) (x :: l).
Proof.
  induction l as [|y l IH]; simpl; [apply Permutation_refl|].
  destruct (key_ltb y x); [|apply Permutation_refl].
  apply perm_trans with (y :: x :: l); [now apply perm_skip | apply perm_swap].
Qed.

Lemma sort_results_perm (l : list MatchResult) :
  Permutation (sort_results l) l.
Proof.
  unfold sort_results. induction l as [|x l IH]; simpl;
    [apply Permutation_refl|].
  apply perm_trans with (x :: fold_right insert_sorted [] l);
    [apply insert_sorted_perm | now apply perm_skip].
Qed.

Lemma NoDup_firstn (A : Type) (n : nat) (l : list A) :
  NoDup l -> NoDup (firstn n l).
Proof.
  intros H. rewrite <- (firstn_skipn n l) in H.
  now apply NoDup_app_remove_r in H.
Qed.

Lemma NoDup_slice_to (A : Type) (n : Z) (l : list A) :
  NoDup l -> NoDup (slice_to n l).
Proof.
  unfold slice_to. destruct (0 <=? n)%Z; apply NoDup_firstn.
Qed.

Lemma map_slice_to (A B : Type) (f : A -> B) (n : Z) (l : list A) :
  map f (slice_to n l) = slice_to n (map f l).
Proof.
  unfold slice_to. rewrite length_map.
  destruct (0 <=? n)%Z; symmetry; apply firstn_map.
Qed.

(** X2.  When the names of the catalog are distinct, as the keys of the
    dictionary of [get_all_drugs_dict] are, so are the names of the results:
    no entry is returned twice. *)
Theorem result_names_are_distinct (rank : str -> N)
  (instructions_db : list (str * str)) (extracted_text : option str)
  (cutoff : Q) (max_results : Z) (rs : list MatchResult) :
  match_instructions rank instructions_db extracted_text cutoff max_results
  = Ok rs ->
  NoDup (map fst instructions_db) ->
  NoDup (map drug_name rs).
Proof.
  intros H Hd. apply match_instructions_inv in H.
  destruct H as [-> | (text & results & _ & _ & El & ->)]; [constructor|].
  apply match_loop_names in El. destruct El as [_ Hn].
  rewrite map_slice_to. apply NoDup_slice_to.
  apply (Permutation_NoDup (l := map drug_name results)); [|now apply Hn].
  apply Permutation_map, Permutation_sym, sort_results_perm.
Qed.

Lemma result_names_are_distinct_witness :
  NoDup (map drug_name ranking_results).
Proof.
  refine (@result_names_are_distinct first_come ranking_db
            (Some ranking_text) (25 # 100)%Q 10%Z ranking_results _ _).
  - vm_compute. reflexivity.
  - repeat constructor; simpl; intuition discriminate.
Defined.

Lemma nonblank_name (drug : str) :
  negb (truthy drug) || negb (truthy (strip drug)) = false ->
  strip drug <> [].
Proof.
  intros Eb E. rewrite E in Eb. cbn in Eb.
  rewrite orb_true_r in Eb. discriminate.
Qed.

(** An entry whose name has no [/] has one variant: the order of
    enumeration plays no part. *)
Lemma match_entry_rank (rank1 rank2 : str -> N) (text_words : list str)
  (text_join : str) (cutoff : Q) (drug instr : str) :
  has_char "/" drug = false ->
  match_entry rank1 text_words text_join cutoff drug instr
  = match_entry rank2 text_words text_join cutoff drug instr.
Proof.
  intros Hs. unfold match_entry.
  destruct (negb (truthy drug) || negb (truthy (strip drug))) eqn:Eb;
    [reflexivity|].
  destruct (matched_tokens_of text_words drug); [reflexivity|].
  cbn [truthy_list negb].
  rewrite (expand_variants_plain _ (nonblank_name _ Eb)
             (has_char_strip _ _ Hs)).
  reflexivity.
Qed.

Lemma match_loop_rank (rank1 rank2 : str -> N) (text_words : list str)
  (text_join : str) (cutoff : Q) (items : list (str * str)) :
  (forall drug instr, In (drug, instr) items -> has_char "/" drug = false) ->
  match_loop rank1 text_words text_join cutoff items
  = match_loop rank2 text_words text_join cutoff items.
Proof.
  induction items as [|[drug instr] items IH]; intros H; cbn [match_loop];
    [reflexivity|].
  rewrite (match_entry_rank rank1 rank2 text_words text_join cutoff drug instr
             (H drug instr (or_introl eq_refl))).
  rewrite IH; [reflexivity|].
  intros d i Hin. apply (H d i). now right.
Qed.

(** X3.  When no name of the catalog has a [/], the list returned, or the
    exception raised, is the same whatever the order in which sets are
    enumerated. *)
Theorem order_is_immaterial_without_slash (rank1 rank2 : str -> N)
  (instructions_db : list (str * str)) (extracted_text : option str)
  (cutoff : Q) (max_results : Z) :
  (forall drug instr,
      In (drug, instr) instructions_db -> has_char "/" drug = false) ->
  match_instructions rank1 instructions_db extracted_text cutoff max_results
  = match_instructions rank2 instructions_db extracted_text cutoff max_results.
Proof.
  intros H. unfold match_instructions.
  destruct extracted_text as [[|c text]|]; try reflexivity.
  now rewrite (match_loop_rank rank1 rank2 _ _ (Float.double cutoff)
                 instructions_db H).
Qed.

Lemma order_is_immaterial_without_slash_witness :
  match_instructions first_come [(lit "Aspirin", lit "x")]
                     (Some (lit "aspirin")) (25 # 100)%Q 10%Z
  = match_instructions rebuilt_first [(lit "Aspirin", lit "x")]
                       (Some (lit "aspirin")) (25 # 100)%Q 10%Z.
Proof.
  apply (@order_is_immaterial_without_slash first_come rebuilt_first
           [(lit "Aspirin", lit "x")] (Some (lit "aspirin"))
           (25 # 100)%Q 10%Z).
  intros drug instr [H | []]. injection H as <- _. reflexivity.
Defined.

(** With a lower cutoff an entry is kept if it was, and raises only if it
    did. *)
Lemma match_entry_cutoff (rank : str -> N) (text_words : list str)
  (text_join : str) (cutoff1 cutoff2 : Q) (drug instr : str)
  (o : option MatchResult) :
  (cutoff1 <= cutoff2)%Q ->
  match_entry rank text_words text_join cutoff2 drug instr = Ok o ->
  exists o',
    match_entry rank text_words text_join cutoff1 drug instr = Ok o'
    /\ (forall r, o = Some r -> o' = Some r).
Proof.
  intros Hc. unfold match_entry.
  destruct (negb (truthy drug) || negb (truthy (strip drug))).
  { intros H. injection H as <-. exists None. split; [reflexivity | auto]. }
  destruct (matched_tokens_of text_words drug) as [|t ts].
  { intros H. injection H as <-. exists None. split; [reflexivity | auto]. }
  cbn [truthy_list negb].
  destruct (_expand_variants drug) as [variants|e]; [|discriminate].
  cbn [bind].
  destruct (scan_variants _ _ _ _ _ _ _) as [[bs bv] any].
  destruct any; cbn [negb].
  2:{ intros H. injection H as <-. exists None. split; [reflexivity | auto]. }
  rewrite !andb_true_r.
  destruct (Qle_bool cutoff2 _) eqn:E2.
  - apply Qle_bool_iff in E2.
    assert (E1 : Qle_bool cutoff1
                   (boost bs (keyword_match_ratio_of text_words drug)) = true)
      by (apply Qle_bool_iff; now apply Qle_trans with cutoff2).
    rewrite E1. intros H. injection H as <-.
    eexists. split; [reflexivity | auto].
  - intros H. injection H as <-.
    destruct (Qle_bool cutoff1 _); eexists; (split; [reflexivity|]);
      intros r Hr; discriminate.
Qed.

Lemma match_loop_cutoff (rank : str -> N) (text_words : list str)
  (text_join : str) (cutoff1 cutoff2 : Q) (items : list (str * str)) :
  (cutoff1 <= cutoff2)%Q ->
  forall results2,
    match_loop rank text_words text_join cutoff2 items = Ok results2 ->
    exists results1,
      match_loop rank text_words text_join cutoff1 items = Ok results1
      /\ incl results2 results1.
Proof.
  intros Hc. induction items as [|[drug instr] items IH]; intros rs2 H;
    cbn [match_loop] in *.
  - injection H as <-. exists []. split; [reflexivity | apply incl_refl].
  - destruct (match_entry rank text_words text_join cutoff2 drug instr)
      as [o|e] eqn:Ee; [|discriminate]. cbn [bind] in H.
    destruct (match_loop rank text_words text_join cutoff2 items)
      as [rs|e]; [|discriminate]. cbn [bind] in H. injection H as <-.
    destruct (match_entry_cutoff _ _ _ _ _ Hc Ee) as (o' & -> & Ho).
    destruct (IH rs eq_refl) as (rs1 & -> & Hi). cbn [bind].
    eexists. split; [reflexivity|].
    destruct o as [r|].
    + rewrite (Ho r eq_refl).
      intros x [<- | Hx]; [now left | right; now apply Hi].
    + destruct o'; [apply incl_tl|]; exact Hi.
Qed.

(** X4.  Lowering the cutoff loses nothing: when the call returns with a
    cutoff and a bound [max_results] that cuts nothing, it returns with any
    lower cutoff, and every result of the first call is a result of the
    second. *)
Theorem lower_cutoff_keeps_results (rank : str -> N)
  (instructions_db : list (str * str)) (extracted_text : option str)
  (cutoff1 cutoff2 : Q) (max_results : Z) (rs2 : list MatchResult) :
  (cutoff1 <= cutoff2)%Q ->
  (Z.of_nat (length instructions_db) <= max_results)%Z ->
  match_instructions rank instructions_db extracted_text cutoff2 max_results
  = Ok rs2 ->
  exists rs1,
    match_instructions rank instructions_db extracted_text cutoff1 max_results
    = Ok rs1
    /\ incl rs2 rs1.
Proof.
  intros Hc Hmax. unfold match_instructions.
  destruct extracted_text as [[|c text]|];
    try (intros H; injection H as <-; exists []; split;
         [reflexivity | apply incl_refl]).
  set (tw := text_words_of (lower (c :: text))).
  destruct (match_loop rank tw (join (lit " ") tw) (Float.double cutoff2)
                       instructions_db)
    as [results2|e] eqn:El; [|discriminate].
  cbn [bind]. intros H. injection H as <-.
  destruct (match_loop_cutoff _ _ _ _ (FloatFacts.double_mono Hc) El)
    as (results1 & El1 & Hi).
  rewrite El1. cbn [bind]. eexists. split; [reflexivity|].
  pose proof (match_loop_length _ _ _ _ _ El).
  pose proof (match_loop_length _ _ _ _ _ El1).
  rewrite !slice_to_all by (rewrite sort_results_length; lia).
  intros r Hr. apply sort_results_In. apply Hi.
  now apply -> sort_results_In in Hr.
Qed.

Lemma lower_cutoff_keeps_results_witness :
  exists rs1,
    match_instructions first_come ranking_db (Some ranking_text)
                       (25 # 100)%Q 10%Z = Ok rs1
    /\ incl (firstn 3 ranking_results) rs1.
Proof.
  refine (@lower_cutoff_keeps_results first_come ranking_db
            (Some ranking_text) (25 # 100)%Q (96 # 100)%Q 10%Z
            (firstn 3 ranking_results) _ _ _).
  - unfold Qle. simpl. lia.
  - simpl. lia.
  - vm_compute. reflexivity.
Defined.

Lemma pymax_ge_r (x y : Q) : (y <= pymax x y)%Q.
Proof.
  unfold pymax. destruct (Qltb x y) eqn:E.
  - apply Qle_refl.
  - now apply Qltb_false in E.
Qed.

Lemma filter_all (A : Type) (f : A -> bool) (l : list A) :
  (forall x, In x l -> f x = true) -> filter f l = l.
Proof.
  induction l as [|x l IH]; simpl; intros H; [reflexivity|].
  rewrite (H x (or_introl eq_refl)). f_equal. apply IH. auto.
Qed.

Lemma Qlen_pos (l : list str) : l <> [] -> (0 < Qlen l)%Q.
Proof.
  destruct l as [|x l]; [congruence|]. intros _.
  unfold Qlen, Qlt. simpl. lia.
Qed.

(** When every gate token of the name is a token of the text, the keyword
    ratio is 1. *)
Lemma keyword_ratio_full (text_words : list str) (drug : str) :
  matched_tokens_of text_words drug <> [] ->
  (forall t, In t (drug_core_tokens_of (drug_tokens_of (lower drug))) ->
             In t text_words) ->
  (keyword_match_ratio_of text_words drug == 1)%Q.
Proof.
  intros Hm Hall. unfold keyword_match_ratio_of.
  assert (E : matched_tokens_of text_words drug
              = drug_core_tokens_of (drug_tokens_of (lower drug))).
  { unfold matched_tokens_of, PySet.inter. apply filter_all.
    intros x Hx. apply mem_In, of_list_In. now apply Hall. }
  rewrite E in *.
  destruct (drug_core_tokens_of (drug_tokens_of (lower drug))) as [|c core];
    [congruence|].
  pose proof (Qlen_pos Hm) as Hp.
  unfold Float.div. rewrite <- FloatFacts.double_1.
  apply FloatFacts.double_eq.
  field. intros H0. rewrite H0 in Hp. now apply Qlt_irrefl in Hp.
Qed.

(** X5.  A result whose name has all its gate tokens (the tokens outside
    [FORMS], or all the tokens when none is outside) among the tokens of the
    text has a score of 0.95 at least. *)
Theorem full_coverage_scores_high (rank : str -> N)
  (instructions_db : list (str * str)) (text : str) (cutoff : Q)
  (max_results : Z) (rs : list MatchResult) :
  match_instructions rank instructions_db (Some text) cutoff max_results
  = Ok rs ->
  forall r, In r rs ->
  (forall t,
      In t (drug_core_tokens_of (drug_tokens_of (lower (drug_name r)))) ->
      In t (text_words_of (lower text))) ->
  (95 # 100 <= score r)%Q.
Proof.
  intros H r Hr Hall.
  destruct (match_instructions_In _ _ _ _ _ H r Hr)
    as (drug & instr & Hin & He).
  apply match_entry_Some in He.
  destruct He as (variants & bs & bv & Hm & _ & _ & _ & ->).
  cbn [drug_name score] in *.
  pose proof (keyword_ratio_full _ _ Hm Hall) as Hk.
  assert (Hb : (Float.double (95 # 100)
                <= boost bs (keyword_match_ratio_of
                               (text_words_of (lower text)) drug))%Q).
  { unfold boost.
    assert (E : Qle_bool 1 (keyword_match_ratio_of
                              (text_words_of (lower text)) drug) = true)
      by (apply Qle_bool_iff; rewrite Hk; apply Qle_refl).
    rewrite E. apply pymax_ge_r. }
  apply (Qle_trans _ (950 # 1000)%Q); [unfold Qle; simpl; lia|].
  apply round3_near. pose proof double_95 as [H95 _]. lra.
Qed.

Lemma full_coverage_scores_high_witness :
  (95 # 100 <= score (mkMatch (lit "Betamethasone Cream/Ointment")
                              (lit "betamethasone cream/ointment") (lit "y")
                              (19 # 20)%Q))%Q.
Proof.
  refine (@full_coverage_scores_high first_come ranking_db ranking_text
            (25 # 100)%Q 10%Z ranking_results _
            (mkMatch (lit "Betamethasone Cream/Ointment")
                     (lit "betamethasone cream/ointment") (lit "y")
                     (19 # 20)%Q) _ _).
  - vm_compute. reflexivity.
  - right. right. right. left. reflexivity.
  - intros t Ht. vm_compute in Ht. destruct Ht as [<- | []].
    vm_compute. tauto.
Defined.

(** ** The ratio of [difflib] lies between 0 and 1 *)

Module DifflibRange.
Import Difflib.

Lemma j2len_get_in_b (blo bhi j : nat) (j2len : list (nat * nat)) :
  lens_in_b blo bhi j2len ->
  j2len_get j j2len = 0 \/ blo + j2len_get j j2len <= S j.
Proof.
  induction 1 as [|[j' k] l [Hk _] Hl IH]; simpl; [now left|].
  destruct (j' =? j) eqn:E; [|exact IH].
  apply Nat.eqb_eq in E. subst. right. exact Hk.
Qed.

Lemma j2len_prev_in_b (blo bhi j : nat) (j2len : list (nat * nat)) :
  lens_in_b blo bhi j2len ->
  j2len_prev j j2len = 0 \/ blo + j2len_prev j j2len <= j.
Proof.
  destruct j as [|j]; simpl; [now left|]. apply j2len_get_in_b.
Qed.

Lemma scan_j_within_b (blo bhi i : nat) (j2len : list (nat * nat))
  (js : list nat) :
  lens_in_b blo bhi j2len ->
  forall newj2len best,
    lens_in_b blo bhi newj2len ->
    block_within_b blo bhi best ->
    lens_in_b blo bhi (fst (scan_j blo bhi i j2len js newj2len best))
    /\ block_within_b blo bhi
         (snd (scan_j blo bhi i j2len js newj2len best)).
Proof.
  intros Hj. induction js as [|j js IH]; intros new best Hn Hb; simpl.
  - split; assumption.
  - destruct (j <? blo) eqn:E1; [now apply IH|].
    destruct (bhi <=? j) eqn:E2; [split; assumption|].
    apply Nat.ltb_ge in E1. apply Nat.leb_gt in E2.
    pose proof (@j2len_prev_in_b blo bhi j j2len Hj) as Hk.
    destruct best as [[bi bj] bk].
    apply IH.
    + constructor; [cbn [fst snd]; lia | assumption].
    + destruct (bk <? S (j2len_prev j j2len)); [|assumption].
      cbn [block_within_b]. lia.
Qed.

Lemma scan_i_within_b (a b : str) (blo bhi : nat) (idxs : list nat) :
  forall j2len best,
    lens_in_b blo bhi j2len ->
    block_within_b blo bhi best ->
    block_within_b blo bhi (scan_i a b blo bhi idxs j2len best).
Proof.
  induction idxs as [|i idxs IH]; intros j2len best Hj Hb; simpl;
    [assumption|].
  destruct (@scan_j_within_b blo bhi i j2len (b2j b (char_at a i)) Hj
              [] best (Forall_nil _) Hb) as [Hn Hw].
  destruct (scan_j blo bhi i j2len (b2j b (char_at a i)) [] best)
    as [new best'].
  now apply IH.
Qed.

Lemma extend_left_within_b (a b : str) (fuel alo blo hi : nat) (m : Match) :
  block_within_b blo hi m ->
  block_within_b blo hi (extend_left a b fuel alo blo m).
Proof.
  revert m. induction fuel as [|fuel IH]; intros [[bi bj] bk] H; simpl;
    [assumption|].
  destruct ((alo <? bi) && (blo <? bj)
            && Ascii.eqb (char_at a (bi - 1)) (char_at b (bj - 1))) eqn:E;
    [|assumption].
  apply IH. apply andb_prop in E. destruct E as [E _].
  apply andb_prop in E. destruct E as [_ E]. apply Nat.ltb_lt in E.
  simpl in *. lia.
Qed.

Lemma extend_right_within_b (a b : str) (fuel blo ahi bhi : nat) (m : Match) :
  block_within_b blo bhi m ->
  block_within_b blo bhi (extend_right a b fuel ahi bhi m).
Proof.
  revert m. induction fuel as [|fuel IH]; intros [[bi bj] bk] H; simpl;
    [assumption|].
  destruct ((bi + bk <? ahi) && (bj + bk <? bhi)
            && Ascii.eqb (char_at a (bi + bk)) (char_at b (bj + bk))) eqn:E;
    [|assumption].
  apply IH. apply andb_prop in E. destruct E as [E _].
  apply andb_prop in E. destruct E as [_ E]. apply Nat.ltb_lt in E.
  simpl in *. lia.
Qed.

(** The block found lies in the range of the second sequence too. *)
Lemma find_longest_match_within_b (a b : str) (alo ahi blo bhi : nat) :
  blo <= bhi ->
  block_within_b blo bhi (find_longest_match a b alo ahi blo bhi).
Proof.
  intros H. unfold find_longest_match. cbv zeta.
  apply extend_right_within_b, extend_left_within_b, scan_i_within_b.
  - constructor.
  - simpl. lia.
Qed.

(** The blocks of a range add up to no more than the range is long, in
    either sequence. *)
Lemma matches_le (a b : str) (fuel : nat) :
  forall alo ahi blo bhi,
    alo <= ahi -> blo <= bhi ->
    matches a b fuel alo ahi blo bhi <= ahi - alo
    /\ matches a b fuel alo ahi blo bhi <= bhi - blo.
Proof.
  induction fuel as [|fuel IH]; intros alo ahi blo bhi Ha Hb; simpl;
    [split; lia|].
  pose proof (@DifflibFacts.find_longest_match_within a b alo ahi blo bhi Ha)
    as Hwa.
  pose proof (@find_longest_match_within_b a b alo ahi blo bhi Hb) as Hwb.
  destruct (find_longest_match a b alo ahi blo bhi) as [[i j] k].
  simpl in Hwa, Hwb. destruct (k =? 0); [split; lia|].
  assert (Hl : (if (alo <? i) && (blo <? j)
                then matches a b fuel alo i blo j else 0) <= i - alo
               /\ (if (alo <? i) && (blo <? j)
                   then matches a b fuel alo i blo j else 0) <= j - blo).
  { destruct ((alo <? i) && (blo <? j)); [apply IH; lia | split; lia]. }
  assert (Hr : (if (i + k <? ahi) && (j + k <? bhi)
                then matches a b fuel (i + k) ahi (j + k) bhi else 0)
               <= ahi - (i + k)
               /\ (if (i + k <? ahi) && (j + k <? bhi)
                   then matches a b fuel (i + k) ahi (j + k) bhi else 0)
                  <= bhi - (j + k)).
  { destruct ((i + k <? ahi) && (j + k <? bhi)); [apply IH; lia | split; lia]. }
  lia.
Qed.

Lemma ratio_range (a b : str) : (0 <= ratio a b <= 1)%Q.
Proof.
  unfold ratio.
  destruct (length a + length b =? 0) eqn:E.
  - split; unfold Qle; simpl; lia.
  - apply Nat.eqb_neq in E.
    destruct (@matches_le a b (S (length a)) 0 (length a) 0 (length b)
                (Nat.le_0_l _) (Nat.le_0_l _)) as [H1 H2].
    unfold Float.div. apply FloatFacts.double_range.
    assert (Hp : (0 < inject_Z (Z.of_nat (length a + length b)))%Q)
      by (change 0%Q with (inject_Z 0); rewrite <- Zlt_Qlt; lia).
    split.
    + apply Qle_shift_div_l; [exact Hp|]. rewrite Qmult_0_l.
      change 0%Q with (inject_Z 0). rewrite <- Zle_Qle. lia.
    + apply Qle_shift_div_r; [exact Hp|]. rewrite Qmult_1_l.
      rewrite <- Zle_Qle. lia.
Qed.

End DifflibRange.

(** ** The range of the scores *)

Lemma pymax_le (x y z : Q) : (x <= z -> y <= z -> pymax x y <= z)%Q.
Proof.
  unfold pymax. destruct (Qltb x y); auto.
Qed.

Lemma boost_le_one (best_score keyword_match_ratio : Q) :
  (best_score <= 1)%Q -> (boost best_score keyword_match_ratio <= 1)%Q.
Proof.
  intros H. pose proof double_95 as [_ H95]. pose proof double_85 as [_ H85].
  unfold boost. destruct (Qle_bool 1 keyword_match_ratio);
    [|destruct (Qle_bool _ keyword_match_ratio)];
    try apply pymax_le; assumption.
Qed.

Lemma round_half_even_le (n : Z) (q : Q) :
  (q <= inject_Z n)%Q -> (round_half_even q <= n)%Z.
Proof.
  intros H. unfold round_half_even.
  pose proof (Qfloor_le q) as Hf.
  assert (Hle : (Qfloor q <= n)%Z) by (rewrite Zle_Qle; lra).
  assert (Hlt : (1 # 2 <= q - inject_Z (Qfloor q))%Q -> (Qfloor q + 1 <= n)%Z).
  { intros Hh. assert (Hs : (inject_Z (Qfloor q) < inject_Z n)%Q) by lra.
    rewrite <- Zlt_Qlt in Hs. lia. }
  destruct (Qcompare (q - inject_Z (Qfloor q)) (1 # 2)) eqn:E.
  - apply Qeq_alt in E. destruct (Z.even (Qfloor q)); [assumption|].
    apply Hlt. rewrite E. apply Qle_refl.
  - assumption.
  - apply Qgt_alt in E. apply Hlt. now apply Qlt_le_weak.
Qed.

(** Rounding does not cross a thousandth upwards either. *)
Lemma round3_grid_le (n : Z) (q : Q) :
  (q <= n # 1000 -> round3 q <= n # 1000)%Q.
Proof.
  intros H. unfold round3. rewrite Qred_correct.
  assert (Hn : (q * 1000 <= inject_Z n)%Q)
    by (rewrite Qmake_1000 in H; lra).
  apply round_half_even_le in Hn.
  unfold Qle. simpl. lia.
Qed.

Lemma Qlen_le (l1 l2 : list str) :
  length l1 <= length l2 -> (Qlen l1 <= Qlen l2)%Q.
Proof.
  intros H. unfold Qlen. rewrite <- Zle_Qle. lia.
Qed.

Lemma Qlen_nonneg (l : list str) : (0 <= Qlen l)%Q.
Proof.
  unfold Qlen. change 0%Q with (inject_Z 0). rewrite <- Zle_Qle. lia.
Qed.

(** The part of a set that lies in another is a fraction of it. *)
Lemma inter_fraction (a b : list str) :
  a <> [] -> (0 <= Qlen (PySet.inter a b) / Qlen a <= 1)%Q.
Proof.
  intros Ha. pose proof (Qlen_pos Ha) as Hp.
  pose proof (Qlen_nonneg (PySet.inter a b)) as H0.
  assert (Hle : (Qlen (PySet.inter a b) <= Qlen a)%Q)
    by (apply Qlen_le, filter_length_le).
  split.
  - apply Qle_shift_div_l; [assumption | lra].
  - apply Qle_shift_div_r; [assumption | lra].
Qed.

Lemma keyword_ratio_range (text_words : list str) (drug : str) :
  (0 <= keyword_match_ratio_of text_words drug <= 1)%Q.
Proof.
  unfold keyword_match_ratio_of, matched_tokens_of.
  destruct (drug_core_tokens_of (drug_tokens_of (lower drug))) as [|c core];
    [split; unfold Qle; simpl; lia|].
  apply FloatFacts.double_range, inter_fraction. discriminate.
Qed.

Lemma keyword_ratio_pos (text_words : list str) (drug : str) :
  matched_tokens_of text_words drug <> [] ->
  (0 < keyword_match_ratio_of text_words drug)%Q.
Proof.
  intros Hm. unfold keyword_match_ratio_of.
  destruct (drug_core_tokens_of (drug_tokens_of (lower drug))) as [|c core]
    eqn:Ec.
  - exfalso. apply Hm. unfold matched_tokens_of. now rewrite Ec.
  - apply FloatFacts.double_positive.
    apply Qlt_shift_div_l; [apply Qlen_pos; discriminate|].
    pose proof (Qlen_pos Hm). lra.
Qed.

Section Scores.

Variables (text_words : list str) (text_join : str).
Variable keyword_match_ratio : Q.

Hypothesis ratio_pos : (0 < keyword_match_ratio)%Q.
Hypothesis ratio_le : (keyword_match_ratio <= 1)%Q.

Lemma windows_le (cand : str) (window_size : nat) (idxs : list nat) :
  forall acc : Q,
    (acc <= 1)%Q ->
    (fold_left
       (fun acc i =>
          let window :=
            join (lit " ") (firstn window_size (skipn i text_words)) in
          let r := _seq_ratio cand window in
          if Qltb acc r then r else acc)
       idxs acc <= 1)%Q.
Proof.
  induction idxs as [|i idxs IH]; intros acc Hacc; simpl; [assumption|].
  apply IH. destruct (Qltb acc _); [|assumption].
  apply DifflibRange.ratio_range.
Qed.

Lemma fuzzy_score_range (cand : str) (cand_tokens : list str) :
  (0 < fuzzy_score text_words text_join cand cand_tokens keyword_match_ratio
   <= 1)%Q.
Proof.
  pose proof double_85 as [H85 H85'].
  pose proof double_9 as [H9 H9'].
  unfold fuzzy_score. split.
  - apply Qlt_le_trans
      with (Float.mul keyword_match_ratio (Float.double (85 # 100)));
      [|apply pymax_ge_r].
    apply FloatFacts.double_positive. nra.
  - apply pymax_le; [apply pymax_le; [apply pymax_le|]|].
    + apply windows_le. unfold Qle. simpl. lia.
    + apply DifflibRange.ratio_range.
    + apply FloatFacts.double_range.
      destruct cand_tokens as [|t ts]; [split; lra|].
      assert (Hne : t :: ts <> []) by discriminate.
      pose proof (FloatFacts.double_range
                    (inter_fraction (PySet.of_list text_words) Hne)) as Hf.
      unfold Float.div. nra.
    + apply FloatFacts.double_range. nra.
Qed.

Lemma scan_variants_ok (all variants : list str) :
  incl variants all ->
  forall best_score best_variant any_candidate,
    scan_state_ok all (best_score, best_variant, any_candidate) ->
    scan_state_ok all
      (scan_variants text_words text_join keyword_match_ratio variants
                     best_score best_variant any_candidate).
Proof.
  induction variants as [|v variants IH]; intros Hi bs bv any Hst;
    cbn [scan_variants]; [assumption|].
  assert (Hi' : incl variants all) by (intros x Hx; apply Hi; now right).
  destruct (negb (truthy (lower (strip v)))); [now apply IH|].
  destruct (bare_form (cand_tokens_of (lower (strip v)))); [now apply IH|].
  set (sc := if contains text_join (lower (strip v)) then 1%Q
             else fuzzy_score text_words text_join (lower (strip v))
                    (cand_tokens_of (lower (strip v))) keyword_match_ratio).
  assert (Hsc : (0 < sc <= 1)%Q).
  { unfold sc. destruct (contains text_join (lower (strip v)));
      [split; [reflexivity | apply Qle_refl] | apply fuzzy_score_range]. }
  clearbody sc. destruct Hst as (Hr & Ha & Hv).
  assert (Hnew : scan_state_ok all
                   (if Qltb bs sc then (sc, Some (lower (strip v)))
                    else (bs, bv), true)).
  { destruct (Qltb bs sc) eqn:El; cbn [scan_state_ok].
    - split; [lra|]. split; [intros _; lra|].
      intros _. exists v. split; [apply Hi; now left | reflexivity].
    - apply Qltb_false in El. split; [assumption|].
      split; [intros _; lra | assumption]. }
  destruct (Qltb bs sc).
  - destruct (Qle_bool _ sc); [assumption | now apply IH].
  - destruct (Qle_bool _ bs); [assumption | now apply IH].
Qed.

End Scores.

(** X6.  The ratio of [_seq_ratio] is between 0 and 1, whatever the two
    strings. *)
Theorem seq_ratio_range (a b : str) : (0 <= _seq_ratio a b <= 1)%Q.
Proof.
  unfold _seq_ratio. apply DifflibRange.ratio_range.
Qed.

(** What the loop on the variants ends on, for an entry that is kept. *)
Lemma match_entry_scan (rank : str -> N) (text_words : list str)
  (text_join : str) (cutoff : Q) (drug instr : str) (r : MatchResult) :
  match_entry rank text_words text_join cutoff drug instr = Ok (Some r) ->
  exists variants best_score v,
    _expand_variants drug = Ok variants
    /\ In v variants
    /\ (0 < best_score <= 1)%Q
    /\ (cutoff <= boost best_score
                        (keyword_match_ratio_of text_words drug))%Q
    /\ r = mkMatch drug (lower (strip v)) (_snippet instr)
                   (round3 (boost best_score
                                  (keyword_match_ratio_of text_words drug))).
Proof.
  intros H. apply match_entry_Some in H.
  destruct H as (variants & bs & bv & Hm & Hv & Hs & Hc & ->).
  apply Qle_bool_iff in Hc.
  pose proof (keyword_ratio_pos _ _ Hm) as Hp.
  destruct (keyword_ratio_range text_words drug) as [_ Hle].
  assert (Hok : scan_state_ok (PySet.iter rank variants) (bs, bv, true)).
  { rewrite <- Hs.
    apply (scan_variants_ok text_words text_join Hp Hle (incl_refl _)).
    cbn [scan_state_ok]. split; [split; unfold Qle; simpl; lia|].
    split; [discriminate|]. intros H0. now apply Qlt_irrefl in H0. }
  destruct Hok as (Hr & Ha & Hv').
  specialize (Ha eq_refl). destruct (Hv' Ha) as (v & Hin & ->).
  exists variants, bs, v. split; [assumption|].
  split; [now apply iter_In in Hin|]. split; [lra|].
  split; [assumption | reflexivity].
Qed.




(** The products of line 158 are rounded too: three of the four gate
    tokens of a name give the keyword ratio 0.75, and 0.75 * 0.85 is a
    double just below 0.6375; the entry passes the cutoff 0.6375, which is
    that same double, and its score is rounded down to 0.637. *)
Lemma rounded_product_passes_cutoff :
  match_instructions first_come [(lit "Vitamin A, D, E Ointment", lit "x")]
                     (Some (lit "vitamin a d")) (6375 # 10000)%Q 10%Z
  = Ok [mkMatch (lit "Vitamin A, D, E Ointment")
                (lit "vitamin a, d, e ointment") (lit "x") (637 # 1000)%Q]
  /\ (Float.mul (3 # 4) (Float.double (85 # 100)) < 6375 # 10000)%Q
  /\ (Float.mul (3 # 4) (Float.double (85 # 100))
      == Float.double (6375 # 10000))%Q.
Proof.
  split; [vm_compute; reflexivity|]. split; vm_compute; reflexivity.
Qed.

(** X7.  Every score returned is between 0 and 1. *)
Theorem scores_are_in_range (rank : str -> N)
  (instructions_db : list (str * str)) (text : str) (cutoff : Q)
  (max_results : Z) (rs : list MatchResult) :
  match_instructions rank instructions_db (Some text) cutoff max_results
  = Ok rs ->
  forall r, In r rs -> (0 <= score r <= 1)%Q.
Proof.
  intros H r Hr.
  destruct (match_instructions_In _ _ _ _ _ H r Hr)
    as (drug & instr & Hin & He).
  apply match_entry_scan in He.
  destruct He as (variants & bs & v & _ & _ & Hbs & _ & ->). cbn [score].
  set (k := keyword_match_ratio_of (text_words_of (lower text)) drug).
  pose proof (boost_ge bs k) as Hlo.
  assert (Hhi : (boost bs k <= 1)%Q) by (apply boost_le_one; lra).
  split.
  - apply (Qle_trans _ (0 # 1000)%Q); [unfold Qle; simpl; lia|].
    apply round3_grid. apply (Qle_trans _ 0%Q); [unfold Qle; simpl; lia | lra].
  - apply (Qle_trans _ (1000 # 1000)%Q); [|unfold Qle; simpl; lia].
    apply round3_grid_le.
    apply (Qle_trans _ 1%Q); [lra | unfold Qle; simpl; lia].
Qed.

Lemma scores_are_in_range_witness : (0 <= score scenario_A_result <= 1)%Q.
Proof.
  refine (@scores_are_in_range first_come scenario_A_db scenario_A_text
            (25 # 100)%Q 10%Z [scenario_A_result] _ scenario_A_result _).
  - vm_compute. reflexivity.
  - left. reflexivity.
Defined.

(** ** The variants are trimmed, lowercased and not empty *)

Lemma dropwhile_snoc (p : ascii -> bool) (c : ascii) (l : str) :
  p c = false -> exists w, dropwhile p (l ++ [c]) = w ++ [c].
Proof.
  intros Hc. induction l as [|x l [w IH]]; simpl.
  - rewrite Hc. now exists [].
  - destruct (p x); [now exists w | now exists (x :: l)].
Qed.

Lemma strip_keeps_head (c : ascii) (x : str) :
  isspace c = false -> exists z, strip (c :: x) = c :: z.
Proof.
  intros Hc. unfold strip, strip_with. cbn [dropwhile]. rewrite Hc.
  cbn [rev]. destruct (@dropwhile_snoc isspace c (rev x) Hc) as [w ->].
  rewrite rev_app_distr. now exists (rev w).
Qed.

(** The words of [split()] are not empty and hold no blank. *)
Lemma split_ws_aux_words (s : str) :
  forall cur w,
    forallb (fun c => negb (isspace c)) cur = true ->
    In w (split_ws_aux cur s) ->
    w <> [] /\ forallb (fun c => negb (isspace c)) w = true.
Proof.
  assert (Hrev : forall cur, cur <> [] ->
            forallb (fun c => negb (isspace c)) cur = true ->
            rev cur <> []
            /\ forallb (fun c => negb (isspace c)) (rev cur) = true).
  { intros cur Hne Hc. split.
    - intros E. apply Hne. apply (f_equal (@rev ascii)) in E.
      now rewrite rev_involutive in E.
    - apply forallb_forall. intros x Hx. apply in_rev in Hx.
      rewrite forallb_forall in Hc. now apply Hc. }
  induction s as [|c s IH]; intros cur w Hc Hw; simpl in Hw.
  - destruct cur as [|x cur]; [contradiction|].
    destruct Hw as [<- | []]. apply Hrev; [discriminate | assumption].
  - destruct (isspace c) eqn:Ec.
    + destruct cur as [|x cur]; [now apply (IH [])|].
      destruct Hw as [<- | Hw]; [|now apply (IH [])].
      apply Hrev; [discriminate | assumption].
    + apply (IH (c :: cur)); [|assumption].
      simpl. now rewrite Ec.
Qed.

Lemma split_ws_words (s w : str) :
  In w (split_ws s) ->
  w <> [] /\ forallb (fun c => negb (isspace c)) w = true.
Proof.
  apply split_ws_aux_words. reflexivity.
Qed.

Lemma split_ws_first_word (s w : str) (ws : list str) :
  split_ws s = w :: ws -> exists c z, w = c :: z /\ isspace c = false.
Proof.
  intros E.
  destruct (@split_ws_words s w) as [Hne Hb]; [rewrite E; now left|].
  destruct w as [|c z]; [congruence|]. exists c, z. split; [reflexivity|].
  simpl in Hb. apply andb_prop in Hb. destruct Hb as [Hb _].
  now apply negb_true_iff in Hb.
Qed.

Lemma fold_left_inv (A : Type) (f : list str -> A -> list str)
  (Q : str -> Prop) (l : list A) :
  (forall vs p x, In p l -> In x (f vs p) -> In x vs \/ Q x) ->
  forall acc x, In x (fold_left f l acc) -> In x acc \/ Q x.
Proof.
  induction l as [|p l IH]; simpl; intros Hf acc x Hx; [now left|].
  destruct (IH (fun vs q y Hq => Hf vs q y (or_intror Hq)) _ _ Hx)
    as [H | H]; [|now right].
  apply (Hf acc p x (or_introl eq_refl)) in H. exact H.
Qed.

Lemma lower_nonempty (s : str) : s <> [] -> lower s <> [].
Proof.
  destruct s; [congruence | discriminate].
Qed.

(** The [core] of line 64 starts with a character that is no blank. *)
Lemma core_head (first core : str) :
  (if 1 <? length (split_ws first)
   then Ok (join (lit " ") (removelast (split_ws first)))
   else match split_ws first with
        | [] => Raise IndexError
        | w :: _ => Ok w
        end) = Ok core ->
  exists c z, core = c :: z /\ isspace c = false.
Proof.
  destruct (split_ws first) as [|w ws] eqn:Ef; [discriminate|].
  destruct (split_ws_first_word _ Ef) as (c & z & -> & Hc).
  destruct ws as [|w2 ws]; cbn [length Nat.ltb Nat.leb].
  - intros H. injection H as <-. now exists c, z.
  - intros H. injection H as <-.
    destruct ws as [|w3 ws]; eexists _, _; (split; [reflexivity | exact Hc]).
Qed.

Lemma variants_normal_form (name : str) (variants : list str) :
  _expand_variants name = Ok variants ->
  forall v, In v variants -> v <> [] /\ lower (strip v) = v.
Proof.
  unfold _expand_variants. intros H v Hv.
  destruct (strip name) as [|c nm] eqn:Es.
  { cbn in H. injection H as <-. contradiction. }
  cbn [truthy negb] in H.
  assert (Hbase : lower (c :: nm) <> []
                  /\ lower (strip (lower (c :: nm))) = lower (c :: nm)).
  { split; [discriminate|]. rewrite <- Es. apply base_variant_fixed. }
  destruct (has_char "/" (c :: nm)).
  2:{ injection H as <-. destruct Hv as [<- | []]. exact Hbase. }
  set (parts := map strip (split_on "/" (c :: nm))) in H.
  set (variants1 := fold_left _ parts [lower (c :: nm)]) in H.
  assert (H1 : forall x, In x variants1 ->
                 x <> [] /\ lower (strip x) = x).
  { intros x Hx. unfold variants1 in Hx.
    apply (@fold_left_inv str _
             (fun x => x <> [] /\ lower (strip x) = x)) in Hx.
    - destruct Hx as [[<- | []] | Hx]; [exact Hbase | exact Hx].
    - intros vs p y Hp Hy. destruct (truthy p) eqn:Ep; [|now left].
      apply add_In in Hy. destruct Hy as [-> | Hy]; [right | now left].
      split; [apply lower_nonempty; destruct p; discriminate|].
      unfold parts in Hp. apply in_map_iff in Hp.
      destruct Hp as (q & <- & _). apply base_variant_fixed. }
  clearbody variants1.
  destruct (match parts with
            | [] => Raise IndexError
            | q :: _ => Ok q
            end) as [first|e]; [|discriminate].
  cbn [bind] in H.
  destruct (if 1 <? length (split_ws first)
            then Ok (join (lit " ") (removelast (split_ws first)))
            else match split_ws first with
                 | [] => Raise IndexError
                 | w :: _ => Ok w
                 end) as [core|e] eqn:Ec; [|discriminate].
  cbn [bind] in H. injection H as <-.
  destruct (core_head _ Ec) as (c0 & z & -> & Hc0).
  apply (@fold_left_inv str _
           (fun x => x <> [] /\ lower (strip x) = x)) in Hv.
  - destruct Hv as [Hv | Hv]; [now apply H1 | exact Hv].
  - intros vs p y _ Hy. apply add_In in Hy.
    destruct Hy as [-> | Hy]; [right | now left].
    split; [|apply base_variant_fixed].
    apply lower_nonempty. cbn [app].
    destruct (@strip_keeps_head c0 (z ++ " "%char :: last_word p) Hc0)
      as [y ->].
    discriminate.
Qed.

(** X8.  Every variant of a name is trimmed, lowercased and not empty:
    lines 126-128 of the loop on the variants leave each one as it is and
    skip none. *)
Theorem variants_are_normal (name : str) (variants : list str) :
  _expand_variants name = Ok variants ->
  forall v, In v variants -> v <> [] /\ lower (strip v) = v.
Proof.
  exact (@variants_normal_form name variants).
Qed.

Lemma variants_are_normal_witness :
  lit "betamethasone ointment" <> []
  /\ lower (strip (lit "betamethasone ointment"))
     = lit "betamethasone ointment".
Proof.
  refine (@variants_are_normal (lit "Betamethasone Cream/Ointment")
            [lit "betamethasone cream/ointment"; lit "betamethasone cream";
             lit "ointment"; lit "betamethasone ointment"] _
            (lit "betamethasone ointment") _).
  - vm_compute. reflexivity.
  - right. right. right. left. reflexivity.
Defined.

(** X9.  The matched variant of every result is one of the variants of its
    name: the fallback on the name itself of line 180 is never taken. *)
Theorem matched_variant_is_a_variant (rank : str -> N)
  (instructions_db : list (str * str)) (text : str) (cutoff : Q)
  (max_results : Z) (rs : list MatchResult) :
  match_instructions rank instructions_db (Some text) cutoff max_results
  = Ok rs ->
  forall r, In r rs ->
  exists variants,
    _expand_variants (drug_name r) = Ok variants
    /\ In (matched_variant r) variants.
Proof.
  intros H r Hr.
  destruct (match_instructions_In _ _ _ _ _ H r Hr)
    as (drug & instr & Hin & He).
  apply match_entry_scan in He.
  destruct He as (variants & bs & v & Hv & Hvin & _ & _ & ->).
  cbn [drug_name matched_variant]. exists variants. split; [assumption|].
  destruct (variants_normal_form _ Hv v Hvin) as [_ ->]. exact Hvin.
Qed.

Lemma matched_variant_is_a_variant_witness :
  exists variants,
    _expand_variants (drug_name scenario_A_result) = Ok variants
    /\ In (matched_variant scenario_A_result) variants.
Proof.
  refine (@matched_variant_is_a_variant first_come scenario_A_db
            scenario_A_text (25 # 100)%Q 10%Z [scenario_A_result] _
            scenario_A_result _).
  - vm_compute. reflexivity.
  - left. reflexivity.
Defined.

(** ** When the matcher raises *)

Lemma split_on_aux_head (sep : ascii) (s : str) :
  forall cur, exists y rest, split_on_aux sep cur s = (rev cur ++ y) :: rest.
Proof.
  induction s as [|c s IH]; intros cur; simpl.
  - exists [], []. now rewrite app_nil_r.
  - destruct (Ascii.eqb c sep).
    + exists [], (split_on_aux sep [] s). now rewrite app_nil_r.
    + destruct (IH (c :: cur)) as (y & rest & ->).
      exists (c :: y), rest. simpl. now rewrite <- app_assoc.
Qed.

Lemma split_ws_aux_nonempty (s : str) :
  forall cur, cur <> [] -> split_ws_aux cur s <> [].
Proof.
  induction s as [|c s IH]; intros cur Hne; simpl.
  - destruct cur; [congruence | discriminate].
  - destruct (isspace c).
    + destruct cur; [congruence | discriminate].
    + apply IH. discriminate.
Qed.

Lemma strip_clean_head (s : str) : clean_head isspace (strip s).
Proof.
  unfold strip, strip_with. apply clean_head_rev_dropwhile, dropwhile_clean.
Qed.

(** [_expand_variants] raises on the names that start with [/] once
    trimmed, and on no other. *)
Lemma expand_variants_raises (name : str) (e : exn) :
  _expand_variants name = Raise e <->
  exists rest, strip name = "/"%char :: rest.
Proof.
  unfold _expand_variants. split.
  - intros H. pose proof (strip_clean_head name) as Hclean.
    destruct (strip name) as [|c nm] eqn:Es; [discriminate|].
    cbn [truthy negb] in H. cbn [clean_head] in Hclean.
    destruct (Ascii.eqb c "/") eqn:Ec.
    { apply Ascii.eqb_eq in Ec. subst. now exists nm. }
    exfalso.
    destruct (has_char "/" (c :: nm)); [|discriminate].
    assert (Hparts : exists y rest,
               map strip (split_on "/" (c :: nm)) = strip (c :: y) :: rest).
    { unfold split_on. cbn [split_on_aux]. rewrite Ec.
      destruct (split_on_aux_head "/" nm [c]) as (y & rest & ->).
      exists y, (map strip rest). reflexivity. }
    destruct Hparts as (y & rest & Hp). rewrite Hp in H. cbn [bind] in H.
    destruct (@strip_keeps_head c y Hclean) as [z Hz]. rewrite Hz in H.
    assert (Hw : split_ws (c :: z) <> []).
    { unfold split_ws. cbn [split_ws_aux]. rewrite Hclean.
      apply split_ws_aux_nonempty. discriminate. }
    destruct (split_ws (c :: z)) as [|w ws]; [congruence|].
    destruct (1 <? length (w :: ws)); discriminate.
  - intros [rest ->]. destruct e. reflexivity.
Qed.

(** X10.  [_expand_variants] raises [IndexError] on the names that, once
    trimmed, start with [/], and returns a set of variants for every other
    name. *)
Theorem expand_variants_raises_on_leading_slash (name : str) :
  (_expand_variants name = Raise IndexError <->
   exists rest, strip name = "/"%char :: rest)
  /\ ((forall rest, strip name <> "/"%char :: rest) ->
      exists variants, _expand_variants name = Ok variants).
Proof.
  split; [apply expand_variants_raises|].
  intros H. destruct (_expand_variants name) as [vs|e] eqn:E; [now exists vs|].
  apply expand_variants_raises in E. destruct E as [rest E].
  now apply H in E.
Qed.

(** An entry raises when it passes the gate and its trimmed name starts
    with [/], and only then. *)
Lemma match_entry_raises (rank : str -> N) (text_words : list str)
  (text_join : str) (cutoff : Q) (drug instr : str) (e : exn) :
  match_entry rank text_words text_join cutoff drug instr = Raise e <->
  matched_tokens_of text_words drug <> []
  /\ exists rest, strip drug = "/"%char :: rest.
Proof.
  unfold match_entry. split.
  - intros H.
    destruct (negb (truthy drug) || negb (truthy (strip drug)));
      [discriminate|].
    destruct (matched_tokens_of text_words drug) as [|t ts];
      [discriminate|]. cbn [truthy_list negb] in H.
    split; [discriminate|].
    destruct (_expand_variants drug) as [vs|e'] eqn:Ev.
    + cbn [bind] in H.
      destruct (scan_variants _ _ _ _ _ _ _) as [[bs bv] any].
      destruct any; cbn [negb] in H; [|discriminate].
      destruct (Qle_bool cutoff _ && _); discriminate.
    + now apply expand_variants_raises in Ev.
  - intros [Hm [rest Hs]].
    assert (Hb : negb (truthy drug) || negb (truthy (strip drug)) = false).
    { rewrite Hs. destruct drug; [discriminate | reflexivity]. }
    rewrite Hb.
    destruct (matched_tokens_of text_words drug) as [|t ts]; [congruence|].
    cbn [truthy_list negb].
    assert (Hr : _expand_variants drug = Raise e)
      by (apply expand_variants_raises; now exists rest).
    now rewrite Hr.
Qed.

Lemma match_loop_raises (rank : str -> N) (text_words : list str)
  (text_join : str) (cutoff : Q) (items : list (str * str)) (e : exn) :
  match_loop rank text_words text_join cutoff items = Raise e <->
  exists drug instr,
    In (drug, instr) items
    /\ matched_tokens_of text_words drug <> []
    /\ exists rest, strip drug = "/"%char :: rest.
Proof.
  induction items as [|[drug instr] items IH]; cbn [match_loop].
  - split; [discriminate | intros (d & i & [] & _)].
  - destruct (match_entry rank text_words text_join cutoff drug instr)
      as [o|e'] eqn:Ee; cbn [bind].
    + destruct (match_loop rank text_words text_join cutoff items)
        as [rs|e'']; cbn [bind].
      * split; [discriminate|].
        intros (d & i & [Heq | Hin] & Hm & Hs).
        -- injection Heq as -> ->.
           assert (Hr : match_entry rank text_words text_join cutoff d i
                        = Raise e) by (apply match_entry_raises; auto).
           congruence.
        -- assert (Hr : @Ok (list MatchResult) rs = Raise e)
             by (apply IH; exists d, i; auto).
           discriminate.
      * split.
        -- intros _. destruct e, e''.
           destruct (proj1 IH eq_refl) as (d & i & Hin & H).
           exists d, i. split; [now right | exact H].
        -- intros _. now destruct e, e''.
    + split.
      * intros _. apply match_entry_raises in Ee.
        exists drug, instr. split; [now left | exact Ee].
      * intros _. now destruct e, e'.
Qed.

(** X11.  [match_instructions] raises when the text is not empty and some
    entry of the catalog whose trimmed name starts with [/] passes the gate,
    and only then; in every other case it returns a list. *)
Theorem match_raises_on_leading_slash (rank : str -> N)
  (instructions_db : list (str * str)) (extracted_text : option str)
  (cutoff : Q) (max_results : Z) :
  (match_instructions rank instructions_db extracted_text cutoff max_results
   = Raise IndexError <->
   exists text drug instr,
     extracted_text = Some text
     /\ text <> []
     /\ In (drug, instr) instructions_db
     /\ matched_tokens_of (text_words_of (lower text)) drug <> []
     /\ exists rest, strip drug = "/"%char :: rest)
  /\ ((forall drug instr rest,
          In (drug, instr) instructions_db -> strip drug <> "/"%char :: rest) ->
      exists rs,
        match_instructions rank instructions_db extracted_text cutoff
                           max_results = Ok rs).
Proof.
  assert (Hiff :
    match_instructions rank instructions_db extracted_text cutoff max_results
    = Raise IndexError <->
    exists text drug instr,
      extracted_text = Some text
      /\ text <> []
      /\ In (drug, instr) instructions_db
      /\ matched_tokens_of (text_words_of (lower text)) drug <> []
      /\ exists rest, strip drug = "/"%char :: rest).
  { unfold match_instructions.
    destruct extracted_text as [[|c text]|].
    - split; [discriminate|].
      intros (t & d & i & Ht & Hne & _). injection Ht as <-. congruence.
    - set (tw := text_words_of (lower (c :: text))).
      destruct (match_loop rank tw (join (lit " ") tw) (Float.double cutoff)
                           instructions_db)
        as [rs|e] eqn:El; cbn [bind].
      + split; [discriminate|].
        intros (t & d & i & Ht & _ & Hin & Hm & Hs). injection Ht as <-.
        assert (Hr : match_loop rank tw (join (lit " ") tw)
                       (Float.double cutoff) instructions_db
                     = Raise IndexError)
          by (apply match_loop_raises; exists d, i; auto).
        congruence.
      + split.
        * intros _. apply match_loop_raises in El.
          destruct El as (d & i & Hin & Hm & Hs).
          exists (c :: text), d, i.
          repeat (split; [first [reflexivity | discriminate | assumption]|]).
          exact Hs.
        * intros _. now destruct e.
    - split; [discriminate|].
      intros (t & d & i & Ht & _). discriminate. }
  split; [exact Hiff|].
  intros H.
  destruct (match_instructions rank instructions_db extracted_text cutoff
              max_results) as [rs|e] eqn:E; [now exists rs|].
  destruct e.
  destruct (proj1 Hiff eq_refl) as (t & d & i & _ & _ & Hin & _ & rest & Hs).
  exfalso. exact (H d i rest Hin Hs).
Qed.

(** ** The other helpers *)

(** X12.  [_snippet] trims: its result neither starts nor ends with a blank,
    and trimming it again changes nothing. *)
Theorem snippet_is_trimmed (text : str) :
  clean_head isspace (_snippet text)
  /\ clean_head isspace (rev (_snippet text))
  /\ _snippet (_snippet text) = _snippet text.
Proof.
  assert (E : forall t, _snippet t = strip t)
    by (intros t; unfold _snippet; destruct t; reflexivity).
  rewrite !E. split; [apply strip_clean_head|]. split.
  - unfold strip, strip_with. rewrite rev_involutive. apply dropwhile_clean.
  - unfold strip. apply strip_with_idem.
Qed.

Lemma existsb_rev (f : ascii -> bool) (s : str) :
  existsb f (rev s) = existsb f s.
Proof.
  destruct (existsb f s) eqn:E.
  - apply existsb_exists in E. destruct E as (x & Hx & Hf).
    apply existsb_exists. exists x. split; [now apply -> in_rev | exact Hf].
  - destruct (existsb f (rev s)) eqn:E'; [|reflexivity].
    apply existsb_exists in E'. destruct E' as (x & Hx & Hf).
    apply in_rev in Hx.
    assert (Ht : existsb f s = true) by (apply existsb_exists; now exists x).
    congruence.
Qed.

Lemma break_at_app (sep : ascii) (x y : str) :
  has_char sep x = false -> break_at sep (x ++ sep :: y) = Some (x, y).
Proof.
  unfold has_char. induction x as [|c x IH]; simpl; intros H.
  - now rewrite Ascii.eqb_refl.
  - apply orb_false_elim in H. destruct H as [Hc Hx].
    rewrite Ascii.eqb_sym, Hc. now rewrite (IH Hx).
Qed.

Lemma break_at_none (sep : ascii) (s : str) :
  has_char sep s = false -> break_at sep s = None.
Proof.
  unfold has_char. induction s as [|c s IH]; simpl; intros H; [reflexivity|].
  apply orb_false_elim in H. destruct H as [Hc Hs].
  rewrite Ascii.eqb_sym, Hc. now rewrite (IH Hs).
Qed.

(** [rsplit] cuts at the last separator. *)
Lemma rsplit1_app (sep : ascii) (stem ext : str) :
  has_char sep ext = false ->
  rsplit1 sep (stem ++ sep :: ext) = [stem; ext].
Proof.
  intros H. unfold rsplit1.
  rewrite rev_app_distr. cbn [rev]. rewrite <- app_assoc. cbn [app].
  rewrite break_at_app by (unfold has_char; now rewrite existsb_rev).
  now rewrite !rev_involutive.
Qed.

(** X13.  [allowed_file] looks at what follows the last dot only, whatever
    its case: a name [stem.ext] is allowed when [ext], lowercased, is one of
    png, jpg, jpeg and docx; a name without a dot is not allowed. *)
Theorem allowed_file_last_extension (stem ext filename : str) :
  has_char "."%char ext = false ->
  has_char "."%char filename = false ->
  allowed_file (stem ++ "."%char :: ext)
  = Ok (PySet.mem (lower ext) ALLOWED_EXTENSIONS)
  /\ allowed_file filename = Ok false.
Proof.
  intros He Hf. unfold allowed_file. split.
  - assert (Hd : has_char "." (stem ++ "."%char :: ext) = true).
    { unfold has_char. rewrite existsb_app. simpl. apply orb_true_r. }
    rewrite Hd, (@rsplit1_app "."%char stem ext He). reflexivity.
  - now rewrite Hf.
Qed.

Lemma allowed_file_last_extension_witness :
  allowed_file (lit "scan.tar" ++ "."%char :: lit "PNG")
  = Ok (PySet.mem (lower (lit "PNG")) ALLOWED_EXTENSIONS)
  /\ allowed_file (lit "png") = Ok false.
Proof.
  apply (@allowed_file_last_extension (lit "scan.tar") (lit "PNG") (lit "png"));
    reflexivity.
Defined.

Lemma drug_tokens_nonempty (drug_lower t : str) :
  In t (drug_tokens_of drug_lower) -> t <> [].
Proof.
  unfold drug_tokens_of. intros H. apply -> of_list_In in H.
  apply in_map_iff in H. destruct H as (u & <- & Hu).
  apply filter_In in Hu. destruct Hu as [_ Hu].
  destruct (strip u); [discriminate | discriminate].
Qed.

Lemma truthy_filter (A : Type) (f : A -> bool) (l : list A) :
  match filter f l with [] => false | _ => true end = existsb f l.
Proof.
  induction l as [|x l IH]; simpl; [reflexivity|].
  destruct (f x); [reflexivity | exact IH].
Qed.

Lemma existsb_ext_in (A : Type) (f g : A -> bool) (l : list A) :
  (forall x, In x l -> f x = g x) -> existsb f l = existsb g l.
Proof.
  induction l as [|x l IH]; simpl; intros H; [reflexivity|].
  rewrite (H x (or_introl eq_refl)), IH; auto.
Qed.

Lemma mem_of_list (x : str) (l : list str) :
  PySet.mem x (PySet.of_list l) = PySet.mem x l.
Proof.
  destruct (PySet.mem x l) eqn:E.
  - apply mem_In, of_list_In. now apply mem_In.
  - destruct (PySet.mem x (PySet.of_list l)) eqn:E'; [|reflexivity].
    apply mem_In in E'. apply -> of_list_In in E'. apply mem_In in E'.
    congruence.
Qed.

(** X14.  On the gate tokens of a name, [_is_core_token_match] says what
    the gate of [match_instructions] says: it holds when one of these
    tokens is a token of the text, that is when [matched_tokens] is not
    empty. *)
Theorem core_token_match_is_the_gate (text_words : list str) (drug : str) :
  _is_core_token_match
    (drug_core_tokens_of (drug_tokens_of (lower drug))) text_words
  = truthy_list (matched_tokens_of text_words drug).
Proof.
  unfold _is_core_token_match, matched_tokens_of, PySet.inter, truthy_list.
  rewrite truthy_filter. apply existsb_ext_in.
  intros t Ht. apply drug_core_tokens_In in Ht. destruct Ht as [Ht _].
  apply drug_tokens_nonempty in Ht.
  rewrite mem_of_list. unfold PySet.mem.
  destruct t; [congruence | reflexivity].
Qed.

(** ** The tokens of the text *)

Lemma split_ws_aux_chars (s : str) :
  forall cur w c,
    In w (split_ws_aux cur s) -> In c w -> In c cur \/ In c s.
Proof.
  induction s as [|x s IH]; intros cur w c Hw Hc; simpl in Hw.
  - destruct cur as [|y cur]; [contradiction|].
    destruct Hw as [<- | []]. left. now apply in_rev.
  - destruct (isspace x).
    + destruct cur as [|y cur].
      * destruct (IH [] w c Hw Hc) as [[] | H]. right. now right.
      * destruct Hw as [<- | Hw]; [left; now apply in_rev|].
        destruct (IH [] w c Hw Hc) as [[] | H]. right. now right.
    + destruct (IH (x :: cur) w c Hw Hc) as [[<- | H] | H].
      * right. now left.
      * now left.
      * right. now right.
Qed.

Lemma lower_fixed (s : str) :
  (forall c, In c s -> lower_char c = c) -> lower s = s.
Proof.
  unfold lower. induction s as [|c s IH]; simpl; intros H; [reflexivity|].
  rewrite (H c (or_introl eq_refl)). f_equal. apply IH. auto.
Qed.

(** X15.  Every token of the lowercased text is lowercase, holds no blank,
    and neither starts nor ends with one of the punctuation characters of
    line 91. *)
Theorem text_words_are_normal (text t : str) :
  In t (text_words_of (lower text)) ->
  lower t = t
  /\ forallb (fun c => negb (isspace c)) t = true
  /\ clean_head (mem_chars punctuation) t
  /\ clean_head (mem_chars punctuation) (rev t).
Proof.
  unfold text_words_of. intros H. apply in_map_iff in H.
  destruct H as (w & <- & Hw). apply filter_In in Hw. destruct Hw as [Hw _].
  split; [|split; [|split]].
  - apply lower_fixed. intros c Hc. apply strip_with_incl in Hc.
    destruct (split_ws_aux_chars _ _ _ _ Hw Hc) as [[] | Hin].
    unfold lower in Hin. apply in_map_iff in Hin.
    destruct Hin as (c' & <- & _). apply lower_char_idem.
  - apply split_ws_words in Hw. destruct Hw as [_ Hb].
    apply forallb_forall. intros c Hc. apply strip_with_incl in Hc.
    rewrite forallb_forall in Hb. now apply Hb.
  - unfold strip_with. apply clean_head_rev_dropwhile, dropwhile_clean.
  - unfold strip_with. rewrite rev_involutive. apply dropwhile_clean.
Qed.

Lemma text_words_are_normal_witness :
  lower (lit "betamethasone") = lit "betamethasone"
  /\ forallb (fun c => negb (isspace c)) (lit "betamethasone") = true
  /\ clean_head (mem_chars punctuation) (lit "betamethasone")
  /\ clean_head (mem_chars punctuation) (rev (lit "betamethasone")).
Proof.
  apply (@text_words_are_normal (lit "Apply (Betamethasone), twice.")
           (lit "betamethasone")).
  vm_compute. tauto.
Defined.

(** ** The pages *)

Lemma strip_blank (s : str) : forallb isspace s = true -> strip s = [].
Proof.
  intros H. unfold strip, strip_with.
  assert (E : dropwhile isspace s = []).
  { induction s as [|c s IH]; simpl in *; [reflexivity|].
    apply andb_prop in H. destruct H as [Hc Hs]. rewrite Hc. auto. }
  rewrite E. reflexivity.
Qed.

(** X16.  A search whose text is missing, empty or blank is answered by the
    redirection to the patient page with its error message, whatever the
    catalog: the matcher is not called. *)
Theorem blank_search_is_redirected (rank : str -> N)
  (instructions_db : list (str * str)) (query : str) :
  forallb isspace query = true ->
  patient_search rank instructions_db (Some query)
  = Ok (Redirect (lit "patient")
                 (lit "Please enter a medicine name to search") (lit "error"))
  /\ patient_search rank instructions_db None
     = Ok (Redirect (lit "patient")
                    (lit "Please enter a medicine name to search")
                    (lit "error")).
Proof.
  intros H. unfold patient_search. rewrite (strip_blank _ H).
  split; reflexivity.
Qed.

Lemma blank_search_is_redirected_witness :
  patient_search first_come [(lit "/Cream", lit "x")] (Some (lit "   "))
  = Ok (Redirect (lit "patient")
                 (lit "Please enter a medicine name to search") (lit "error"))
  /\ patient_search first_come [(lit "/Cream", lit "x")] None
     = Ok (Redirect (lit "patient")
                    (lit "Please enter a medicine name to search")
                    (lit "error")).
Proof.
  apply (@blank_search_is_redirected first_come [(lit "/Cream", lit "x")]
           (lit "   ")).
  reflexivity.
Defined.

(** At the cutoff 0.25 of the two pages, what the matcher returns. *)
Lemma page_results (rank : str -> N) (instructions_db : list (str * str))
  (text : str) (rs : list MatchResult) :
  match_instructions rank instructions_db (Some text) (25 # 100)%Q 10%Z
  = Ok rs ->
  length rs <= 10
  /\ forall r, In r rs -> (25 # 100 <= score r)%Q.
Proof.
  intros H. split.
  - pose proof H as H'. apply match_instructions_inv in H'.
    destruct H' as [-> | (t & results & _ & _ & _ & ->)]; [simpl; lia|].
    destruct (slice_to_length 10 (sort_results results)) as [_ Hn]. lia.
  - intros r Hr.
    destruct (match_instructions_In _ _ _ _ _ H r Hr)
      as (drug & instr & Hin & He).
    apply match_entry_Some in He.
    destruct He as (variants & bs & bv & _ & _ & _ & Hc & ->).
    cbn [score]. apply Qle_bool_iff in Hc. rewrite double_quarter in Hc.
    apply (Qle_trans _ (250 # 1000)%Q); [unfold Qle; simpl; lia|].
    apply round3_grid.
    apply (Qle_trans _ (25 # 100)%Q); [unfold Qle; simpl; lia | exact Hc].
Qed.

(** X17.  When the search page shows results, the text it shows is the
    query trimmed, which is not empty; there are ten results at most and the
    score of each is 0.25 at least. *)
Theorem search_page_results (rank : str -> N)
  (instructions_db : list (str * str)) (search_text : option str)
  (matches : list MatchResult) (ocr_text search_mode : str) :
  patient_search rank instructions_db search_text
  = Ok (RenderResults matches ocr_text search_mode) ->
  (exists query, search_text = Some query /\ ocr_text = strip query)
  /\ ocr_text <> []
  /\ search_mode = lit "text"
  /\ length matches <= 10
  /\ forall r, In r matches -> (25 # 100 <= score r)%Q.
Proof.
  unfold patient_search.
  destruct (strip match search_text with Some s => s | None => [] end)
    as [|c t] eqn:Es; [discriminate|].
  cbn [truthy negb].
  match goal with
  | |- context [bind ?m _] => destruct m as [rs|e] eqn:Em
  end; cbn [bind]; [|discriminate].
  intros H. injection H as <- <- <-.
  destruct (page_results _ _ _ Em) as [Hn Hs].
  split; [|split; [discriminate | split; [reflexivity | split; assumption]]].
  destruct search_text as [q|];
    [exists q; split; [reflexivity | now rewrite Es]
    | cbn in Es; discriminate Es].
Qed.

Lemma search_page_results_witness :
  (exists query,
      Some (lit " betamethasone cream ") = Some query
      /\ lit "betamethasone cream" = strip query)
  /\ lit "betamethasone cream" <> []
  /\ lit "text" = lit "text"
  /\ length [mkMatch (lit "Betamethasone Cream/Ointment")
                     (lit "betamethasone cream")
                     (lit "Apply thin layer twice daily") 1%Q] <= 10
  /\ forall r,
       In r [mkMatch (lit "Betamethasone Cream/Ointment")
                     (lit "betamethasone cream")
                     (lit "Apply thin layer twice daily") 1%Q] ->
       (25 # 100 <= score r)%Q.
Proof.
  refine (@search_page_results first_come scenario_A_db
            (Some (lit " betamethasone cream ")) _ _ _ _).
  vm_compute. reflexivity.
Defined.

Lemma break_at_some (sep : ascii) (s : str) :
  has_char sep s = true -> exists x y, break_at sep s = Some (x, y).
Proof.
  unfold has_char. induction s as [|c s IH]; simpl; [discriminate|].
  rewrite (Ascii.eqb_sym sep c). destruct (Ascii.eqb c sep); [eauto|].
  simpl. intros H. destruct (IH H) as (x & y & ->). eauto.
Qed.

(** [allowed_file] never reads past the list of [rsplit]. *)
Lemma allowed_file_total (filename : str) :
  exists b, allowed_file filename = Ok b.
Proof.
  unfold allowed_file. destruct (has_char "." filename) eqn:E; [|eauto].
  unfold rsplit1.
  assert (Hr : has_char "." (rev filename) = true)
    by (unfold has_char in *; now rewrite existsb_rev).
  destruct (break_at_some _ _ Hr) as (x & y & ->). simpl. eauto.
Qed.

(** X18.  The upload page lets through no exception of its body: the one
    exception that leaves it is [RequestEntityTooLarge], raised where
    [request.files] is read from a request that is too large; [allowed_file]
    never raises on the name of the file, and where the matcher raises on a
    file that is allowed, the answer is the redirection to the patient page
    with the message of the exception. *)
Theorem upload_page_exceptions (rank : str -> N)
  (instructions_db : list (str * str)) (files : request_files)
  (extracted : str) :
  (patient_upload rank instructions_db files extracted
   = RequestEntityTooLarge <-> files = TooLarge)
  /\ (forall e,
         patient_upload rank instructions_db files extracted <> Uncaught e)
  /\ (forall filename e,
         files = Files (Some filename) ->
         allowed_file filename = Ok true ->
         match_instructions rank instructions_db (Some extracted)
                            (25 # 100)%Q 10%Z = Raise e ->
         patient_upload rank instructions_db files extracted
         = Responds
             (Redirect (lit "patient")
                       (lit "Error processing image: list index out of range")
                       (lit "error"))).
Proof.
  assert (Ht : (if truthy extracted then extracted else []) = extracted)
    by (destruct extracted; reflexivity).
  assert (Hcases :
    files = TooLarge
    \/ exists resp,
         patient_upload rank instructions_db files extracted
         = Responds resp).
  { unfold patient_upload. destruct files as [|[filename|]]; [now left| |];
      right; [|eauto].
    destruct (str_eqb filename []); [eauto|].
    destruct (truthy filename); [|eauto].
    destruct (allowed_file_total filename) as [b ->].
    destruct b; [|eauto].
    destruct (match_instructions _ _ _ _ _); eauto. }
  split; [|split].
  - split; [|now intros ->].
    destruct Hcases as [-> | [resp ->]]; [reflexivity | discriminate].
  - intros e. destruct Hcases as [-> | [resp ->]]; discriminate.
  - intros filename e -> Ha Hm. unfold patient_upload.
    destruct filename as [|c f]; [discriminate Ha|].
    assert (Hn : str_eqb (c :: f) [] = false).
    { unfold str_eqb. destruct (str_eq_dec (c :: f) []);
        [discriminate | reflexivity]. }
    rewrite Hn. cbn [truthy]. rewrite Ha, Ht, Hm.
    destruct e. reflexivity.
Qed.

Lemma expand_variants_raises_on_leading_slash_witness :
  _expand_variants (lit " /Cream") = Raise IndexError.
Proof.
  apply (proj1 (@expand_variants_raises_on_leading_slash (lit " /Cream"))).
  exists (lit "Cream"). reflexivity.
Defined.

Lemma match_raises_on_leading_slash_witness :
  match_instructions first_come [(lit "Aspirin", lit "a"); (lit "/Cream", lit "x")]
                     (Some (lit "cream")) (25 # 100)%Q 10%Z
  = Raise IndexError.
Proof.
  apply (proj1 (@match_raises_on_leading_slash first_come
                  [(lit "Aspirin", lit "a"); (lit "/Cream", lit "x")]
                  (Some (lit "cream")) (25 # 100)%Q 10%Z)).
  exists (lit "cream"), (lit "/Cream"), (lit "x").
  split; [reflexivity|]. split; [discriminate|].
  split; [right; left; reflexivity|].
  split; [vm_compute; discriminate|].
  exists (lit "Cream"). reflexivity.
Defined.

Lemma upload_page_exceptions_witness :
  patient_upload first_come [(lit "/Cream", lit "x")]
                 (Files (Some (lit "label.PNG"))) (lit "cream")
  = Responds (Redirect (lit "patient")
                (lit "Error processing image: list index out of range")
                (lit "error")).
Proof.
  apply (proj2 (proj2 (@upload_page_exceptions first_come
                         [(lit "/Cream", lit "x")]
                         (Files (Some (lit "label.PNG"))) (lit "cream")))
           (lit "label.PNG") IndexError);
    reflexivity.
Defined.

(** ** The table of the drugs *)

Module DatabaseFacts.
Import Database.

Lemma has_drug_In (drug : str) (rs : list row) :
  has_drug drug rs = true <-> In drug (map row_drug rs).
Proof.
  unfold has_drug. rewrite existsb_exists, in_map_iff. split.
  - intros (r & Hr & He). apply str_eqb_eq in He. now exists r.
  - intros (r & He & Hr). exists r. split; [assumption|].
    now apply str_eqb_eq.
Qed.

Lemma has_drug_not_In (drug : str) (rs : list row) :
  has_drug drug rs = false <-> ~ In drug (map row_drug rs).
Proof.
  rewrite <- has_drug_In. destruct (has_drug drug rs); split; congruence.
Qed.

Lemma NoDup_snoc (A : Type) (x : A) (l : list A) :
  NoDup l -> ~ In x l -> NoDup (l ++ [x]).
Proof.
  induction 1 as [|y l Hy Hl IH]; intros Hx; simpl.
  - constructor; [intros [] | constructor].
  - constructor.
    + rewrite in_app_iff. intros [H | [H | []]]; [contradiction|].
      apply Hx. now left.
    + apply IH. intros H. apply Hx. now right.
Qed.

Lemma filter_keeps_distinct (A B : Type) (key : A -> B) (keep : A -> bool) :
  forall items : list A,
    NoDup (map key items) -> NoDup (map key (filter keep items)).
Proof.
  intros items. induction items as [|it items IH]; simpl; intros Hd;
    [constructor|].
  inversion Hd as [|? ? Hit Hrest]; subst.
  destruct (keep it); simpl; [|now apply IH].
  constructor; [|now apply IH].
  intros Hin. apply Hit. apply in_map_iff in Hin.
  destruct Hin as (y & <- & Hy). apply filter_In in Hy.
  apply in_map. tauto.
Qed.

Lemma Forall_le_weaken (rs : list row) (n m : Z) :
  (n <= m)%Z ->
  Forall (fun r => (row_id r <= n)%Z) rs ->
  Forall (fun r => (row_id r <= m)%Z) rs.
Proof.
  intros Hnm. apply Forall_impl. intros r Hr. lia.
Qed.

Lemma fresh_id (rs : list row) (n : Z) :
  Forall (fun r => (row_id r <= n)%Z) rs -> ~ In (n + 1)%Z (map row_id rs).
Proof.
  intros H Hin. apply in_map_iff in Hin. destruct Hin as (r & He & Hr).
  rewrite Forall_forall in H. specialize (H r Hr). lia.
Qed.

Lemma insert_ok (drug instructions : str) (t t' : table) :
  table_ok t -> sql_insert drug instructions t = Some t' -> table_ok t'.
Proof.
  intros (Hn & Hi & Hl). unfold sql_insert.
  destruct (has_drug drug (rows t)) eqn:E; [discriminate|].
  intros H. injection H as <-. unfold table_ok. cbn [rows last_id].
  rewrite !map_app. cbn [map row_drug row_id]. split; [|split].
  - apply NoDup_snoc; [assumption | now apply has_drug_not_In].
  - apply NoDup_snoc; [assumption | now apply fresh_id].
  - apply Forall_app. split.
    + apply (Forall_le_weaken (n := last_id t)); [lia | assumption].
    + constructor; [cbn; lia | constructor].
Qed.

Lemma insert_or_replace_ok (drug instructions : str) (t : table) :
  table_ok t -> table_ok (sql_insert_or_replace drug instructions t).
Proof.
  intros (Hn & Hi & Hl). unfold table_ok, sql_insert_or_replace.
  cbn [rows last_id]. rewrite !map_app. cbn [map row_drug row_id].
  split; [|split].
  - apply NoDup_snoc; [now apply filter_keeps_distinct|].
    intros Hin. apply in_map_iff in Hin. destruct Hin as (r & He & Hr).
    apply filter_In in Hr. destruct Hr as [_ Hr].
    apply negb_true_iff in Hr.
    assert (Ht : str_eqb (row_drug r) drug = true) by now apply str_eqb_eq.
    congruence.
  - apply NoDup_snoc; [now apply filter_keeps_distinct|].
    intros Hin. apply (fresh_id Hl). apply in_map_iff in Hin.
    destruct Hin as (r & He & Hr). apply filter_In in Hr.
    apply in_map_iff. exists r. tauto.
  - apply Forall_app. split.
    + apply (Forall_le_weaken (n := last_id t)); [lia|].
      rewrite Forall_forall in *. intros r Hr. apply filter_In in Hr.
      now apply Hl.
    + constructor; [cbn; lia | constructor].
Qed.

Lemma delete_ok (id : Z) (t : table) : table_ok t -> table_ok (sql_delete id t).
Proof.
  intros (Hn & Hi & Hl). unfold table_ok, sql_delete. cbn [rows last_id].
  split; [|split]; try now apply filter_keeps_distinct.
  rewrite Forall_forall in *. intros r Hr. apply filter_In in Hr.
  now apply Hl.
Qed.

(** Renaming the row of an id keeps the names distinct when no other row
    bears the new name. *)
Lemma rename_keeps_names (id : Z) (drug instructions : str) (rs : list row) :
  NoDup (map row_id rs) ->
  NoDup (map row_drug rs) ->
  (forall r, In r rs -> row_id r <> id -> row_drug r <> drug) ->
  NoDup (map row_drug
           (map (fun r => if (row_id r =? id)%Z
                          then mkRow id drug instructions else r) rs)).
Proof.
  induction rs as [|r rs IH]; simpl; intros Hi Hn Hother; [constructor|].
  inversion Hi as [|? ? Hri Hi']; subst.
  inversion Hn as [|? ? Hrn Hn']; subst.
  assert (IH' := IH Hi' Hn' (fun x Hx => Hother x (or_intror Hx))).
  constructor; [|exact IH'].
  intros Hin. apply in_map_iff in Hin. destruct Hin as (y & Hy & Hin).
  apply in_map_iff in Hin. destruct Hin as (x & <- & Hx).
  destruct (row_id r =? id)%Z eqn:Er; destruct (row_id x =? id)%Z eqn:Ex;
    cbn [row_drug] in Hy.
  - apply Z.eqb_eq in Er, Ex. apply Hri. apply in_map_iff.
    exists x. split; [congruence | assumption].
  - apply Z.eqb_neq in Ex.
    exact (Hother x (or_intror Hx) Ex Hy).
  - apply Z.eqb_neq in Er.
    exact (Hother r (or_introl eq_refl) Er (eq_sym Hy)).
  - apply Hrn. apply in_map_iff. exists x. split; assumption.
Qed.

Lemma update_ok (id : Z) (drug instructions : str) (t t' : table) :
  table_ok t -> sql_update id drug instructions t = Some t' -> table_ok t'.
Proof.
  intros Hok. pose proof Hok as (Hn & Hi & Hl). unfold sql_update.
  destruct (has_id id (rows t)); [|intros H; injection H as <-; exact Hok].
  destruct (existsb _ (rows t)) eqn:E; [discriminate|].
  intros H. injection H as <-. unfold table_ok. cbn [rows last_id].
  split; [|split].
  - apply rename_keeps_names; try assumption.
    intros r Hr Hid Hd.
    assert (Ht : existsb (fun r => negb (row_id r =? id)%Z
                                   && str_eqb (row_drug r) drug) (rows t)
                 = true).
    { apply existsb_exists. exists r. split; [assumption|].
      apply andb_true_intro. split.
      - apply negb_true_iff. now apply Z.eqb_neq.
      - now apply str_eqb_eq. }
    congruence.
  - rewrite map_map.
    rewrite (map_ext_in _ row_id); [assumption|].
    intros r _. destruct (row_id r =? id)%Z eqn:Er; [|reflexivity].
    apply Z.eqb_eq in Er. now cbn.
  - rewrite Forall_forall in *. intros r Hr. apply in_map_iff in Hr.
    destruct Hr as (x & <- & Hx). specialize (Hl x Hx).
    destruct (row_id x =? id)%Z eqn:Er; [|assumption].
    apply Z.eqb_eq in Er. cbn. lia.
Qed.

(** One round of the loop of [store_all]. *)
Lemma store_step (accepted : str -> bool) (kv : str * str)
  (l : list (str * str)) (n : nat) (t : table) :
  fold_left (fun ct kv =>
               if accepted (fst kv)
               then (S (fst ct),
                     sql_insert_or_replace (fst kv) (snd kv) (snd ct))
               else ct)
            (kv :: l) (n, t)
  = fold_left (fun ct kv =>
                 if accepted (fst kv)
                 then (S (fst ct),
                       sql_insert_or_replace (fst kv) (snd kv) (snd ct))
                 else ct)
              l (if accepted (fst kv)
                 then (S n, sql_insert_or_replace (fst kv) (snd kv) t)
                 else (n, t)).
Proof. reflexivity. Qed.

Lemma store_all_ok (accepted : str -> bool) (instructions : list (str * str)) :
  forall n t, table_ok t ->
    table_ok (snd (fold_left
                     (fun ct kv =>
                        if accepted (fst kv)
                        then (S (fst ct),
                              sql_insert_or_replace (fst kv) (snd kv)
                                                    (snd ct))
                        else ct)
                     instructions (n, t))).
Proof.
  induction instructions as [|kv l IH]; intros n t Hok; [assumption|].
  rewrite store_step. destruct (accepted (fst kv)); apply IH;
    [now apply insert_or_replace_ok | assumption].
Qed.

(** Every table made of the empty one has distinct names and ids. *)
Lemma reachable_ok (t : table) : reachable t -> table_ok t.
Proof.
  induction 1 as [|w d i t Hr IH|w id d i t Hr IH|w id t Hr IH|acc l t Hr IH].
  - unfold table_ok. cbn. repeat constructor.
  - unfold add_drug. destruct w; [|assumption].
    destruct (sql_insert (strip d) (strip i) t) eqn:E; cbn [snd];
      [now apply (@insert_ok _ _ _ _ IH E) | assumption].
  - unfold update_drug. destruct (w && int64 id); [|assumption].
    destruct (sql_update id (strip d) (strip i) t) eqn:E; cbn [snd];
      [now apply (@update_ok _ _ _ _ _ IH E) | assumption].
  - unfold delete_drug. destruct (w && int64 id); [|assumption].
    cbn [snd]. now apply delete_ok.
  - unfold store_all. now apply store_all_ok.
Qed.

End DatabaseFacts.

Module CatalogFacts.
Import Database DatabaseFacts.

Lemma str_compare_eq (a b : str) : str_compare a b = Eq -> a = b.
Proof.
  revert b. induction a as [|x a IH]; intros [|y b]; simpl;
    try discriminate; [reflexivity|].
  destruct (N_of_ascii x ?= N_of_ascii y)%N eqn:E; try discriminate.
  intros H. apply N.compare_eq in E.
  assert (x = y).
  { rewrite <- (ascii_N_embedding x), <- (ascii_N_embedding y). now rewrite E. }
  subst. f_equal. now apply IH.
Qed.

Lemma insert_row_perm (r : row) (l : list row) :
  Permutation (insert_row r l) (r :: l).
Proof.
  induction l as [|y l IH]; simpl; [apply Permutation_refl|].
  destruct (str_compare (row_drug y) (row_drug r));
    try apply Permutation_refl.
  apply perm_trans with (y :: r :: l); [now apply perm_skip | apply perm_swap].
Qed.

Lemma order_by_drug_perm (l : list row) : Permutation (order_by_drug l) l.
Proof.
  unfold order_by_drug. induction l as [|x l IH]; simpl;
    [apply Permutation_refl|].
  apply perm_trans with (x :: fold_right insert_row [] l);
    [apply insert_row_perm | now apply perm_skip].
Qed.

Lemma insert_row_sorted (r : row) (l : list row) :
  StronglySorted (fun a b => str_le (row_drug a) (row_drug b)) l ->
  StronglySorted (fun a b => str_le (row_drug a) (row_drug b))
                 (insert_row r l).
Proof.
  induction 1 as [|y l Hs IH Hall]; simpl; [repeat constructor|].
  destruct (str_compare (row_drug y) (row_drug r)) eqn:E.
  - assert (Hry : str_le (row_drug r) (row_drug y)).
    { unfold str_le. rewrite str_compare_antisym, E. discriminate. }
    constructor; [now constructor|]. constructor; [assumption|].
    rewrite Forall_forall in *. intros z Hz.
    apply str_le_trans with (row_drug y); auto.
  - constructor; [assumption|].
    apply Forall_forall. intros z Hz.
    apply (Permutation_in _ (insert_row_perm r l)) in Hz.
    destruct Hz as [<- | Hz].
    + unfold str_le. rewrite E. discriminate.
    + rewrite Forall_forall in Hall. now apply Hall.
  - assert (Hry : str_le (row_drug r) (row_drug y)).
    { unfold str_le. rewrite str_compare_antisym, E. discriminate. }
    constructor; [now constructor|]. constructor; [assumption|].
    rewrite Forall_forall in *. intros z Hz.
    apply str_le_trans with (row_drug y); auto.
Qed.

Lemma order_by_drug_sorted (l : list row) :
  StronglySorted (fun a b => str_le (row_drug a) (row_drug b))
                 (order_by_drug l).
Proof.
  unfold order_by_drug. induction l as [|x l IH]; simpl;
    [constructor | now apply insert_row_sorted].
Qed.

(** Sorted rows of distinct names, as pairs: the names go up strictly. *)
Lemma sorted_pairs (l : list row) :
  StronglySorted (fun a b => str_le (row_drug a) (row_drug b)) l ->
  NoDup (map row_drug l) ->
  StronglySorted (fun a b : str * str => str_compare (fst a) (fst b) = Lt)
                 (map (fun r => (row_drug r, row_instructions r)) l).
Proof.
  induction 1 as [|y l Hs IH Hall]; simpl; intros Hn; [constructor|].
  inversion Hn as [|? ? Hy Hn']; subst.
  constructor; [now apply IH|].
  apply Forall_forall. intros p Hp. apply in_map_iff in Hp.
  destruct Hp as (z & <- & Hz). cbn [fst].
  rewrite Forall_forall in Hall. specialize (Hall z Hz). unfold str_le in Hall.
  destruct (str_compare (row_drug y) (row_drug z)) eqn:E;
    [|reflexivity | congruence].
  apply str_compare_eq in E. exfalso. apply Hy. rewrite E. now apply in_map.
Qed.

Lemma dict_set_fresh (k v : str) (d : list (str * str)) :
  ~ In k (map fst d) -> dict_set k v d = d ++ [(k, v)].
Proof.
  induction d as [|[k' v'] d IH]; simpl; intros H; [reflexivity|].
  destruct (str_eqb k' k) eqn:E.
  - apply str_eqb_eq in E. exfalso. apply H. now left.
  - f_equal. apply IH. tauto.
Qed.

Lemma dict_of_distinct (pairs : list (str * str)) :
  forall acc,
    NoDup (map fst (acc ++ pairs)) ->
    fold_left (fun d kv => dict_set (fst kv) (snd kv) d) pairs acc
    = acc ++ pairs.
Proof.
  induction pairs as [|[k v] pairs IH]; intros acc H; simpl.
  - now rewrite app_nil_r.
  - rewrite dict_set_fresh.
    + rewrite IH; rewrite <- app_assoc; [reflexivity | exact H].
    + rewrite map_app in H. apply NoDup_remove_2 in H.
      intros Hin. apply H. apply in_or_app. now left.
Qed.

(** With distinct names, the dictionary is the list of the rows by name. *)
Lemma get_all_drugs_dict_rows (t : table) :
  table_ok t ->
  get_all_drugs_dict t
  = map (fun r => (row_drug r, row_instructions r)) (order_by_drug (rows t)).
Proof.
  intros (Hn & _). unfold get_all_drugs_dict, dict_of.
  rewrite dict_of_distinct; [reflexivity|].
  cbn [app]. rewrite map_map. cbn [fst].
  apply (Permutation_NoDup (l := map row_drug (rows t))); [|assumption].
  apply Permutation_map, Permutation_sym, order_by_drug_perm.
Qed.

Lemma dict_In (t : table) (drug instructions : str) :
  table_ok t ->
  (In (drug, instructions) (get_all_drugs_dict t) <->
   exists id, In (mkRow id drug instructions) (rows t)).
Proof.
  intros Hok. rewrite (get_all_drugs_dict_rows Hok), in_map_iff. split.
  - intros ([id d i] & He & Hr). cbn in He. injection He as -> ->.
    exists id. now apply (Permutation_in _ (order_by_drug_perm (rows t))).
  - intros (id & Hr). exists (mkRow id drug instructions).
    split; [reflexivity|].
    now apply (Permutation_in _ (Permutation_sym (order_by_drug_perm (rows t)))).
Qed.

Lemma dict_keys (t : table) (drug : str) :
  table_ok t ->
  (In drug (map fst (get_all_drugs_dict t)) <-> has_drug drug (rows t) = true).
Proof.
  intros Hok. rewrite (get_all_drugs_dict_rows Hok), map_map. cbn [fst].
  rewrite has_drug_In. split; intros H.
  - now apply (Permutation_in _ (Permutation_map row_drug
                                   (order_by_drug_perm (rows t)))).
  - now apply (Permutation_in _ (Permutation_sym
                 (Permutation_map row_drug (order_by_drug_perm (rows t))))).
Qed.

End CatalogFacts.

(** X19.  Whatever was added, updated, deleted and imported since the table
    was created, [get_all_drugs_dict] gives the rows of the table, each
    once, by strictly increasing name: the catalog handed to the matcher
    has distinct names. *)
Theorem catalog_is_sorted_and_distinct (t : Database.table) :
  Database.reachable t ->
  StronglySorted (fun a b : str * str => str_compare (fst a) (fst b) = Lt)
                 (Database.get_all_drugs_dict t)
  /\ NoDup (map fst (Database.get_all_drugs_dict t))
  /\ forall drug instructions,
       In (drug, instructions) (Database.get_all_drugs_dict t) <->
       exists id, In (Database.mkRow id drug instructions) (Database.rows t).
Proof.
  intros Hr. apply DatabaseFacts.reachable_ok in Hr.
  pose proof Hr as (Hn & _).
  split; [|split].
  - rewrite (CatalogFacts.get_all_drugs_dict_rows Hr).
    apply CatalogFacts.sorted_pairs;
      [apply CatalogFacts.order_by_drug_sorted|].
    apply (Permutation_NoDup (l := map Database.row_drug (Database.rows t)));
      [|assumption].
    apply Permutation_map, Permutation_sym, CatalogFacts.order_by_drug_perm.
  - rewrite (CatalogFacts.get_all_drugs_dict_rows Hr), map_map. cbn [fst].
    apply (Permutation_NoDup (l := map Database.row_drug (Database.rows t)));
      [|assumption].
    apply Permutation_map, Permutation_sym, CatalogFacts.order_by_drug_perm.
  - intros d i. now apply CatalogFacts.dict_In.
Qed.

Lemma catalog_is_sorted_and_distinct_witness :
  StronglySorted (fun a b : str * str => str_compare (fst a) (fst b) = Lt)
                 (Database.get_all_drugs_dict two_drugs)
  /\ NoDup (map fst (Database.get_all_drugs_dict two_drugs))
  /\ forall drug instructions,
       In (drug, instructions) (Database.get_all_drugs_dict two_drugs) <->
       exists id,
         In (Database.mkRow id drug instructions) (Database.rows two_drugs).
Proof.
  apply (@catalog_is_sorted_and_distinct two_drugs).
  unfold two_drugs. apply Database.reach_add, Database.reach_add.
  apply Database.reach_empty.
Defined.

(** X20.  [add_drug] returns [True] when SQLite carries the write out and
    the name, trimmed, is not yet in the catalog, and only then.  When it
    returns [False] the table is left as it is; when it returns [True] the
    catalog read back has the trimmed name with the trimmed instructions,
    and all it had before. *)
Theorem add_drug_round_trip (writable : bool) (drug instructions : str)
  (t : Database.table) :
  Database.reachable t ->
  (fst (Database.add_drug writable drug instructions t) = true <->
   writable = true
   /\ ~ In (strip drug) (map fst (Database.get_all_drugs_dict t)))
  /\ (fst (Database.add_drug writable drug instructions t) = false ->
      snd (Database.add_drug writable drug instructions t) = t)
  /\ (fst (Database.add_drug writable drug instructions t) = true ->
      In (strip drug, strip instructions)
         (Database.get_all_drugs_dict
            (snd (Database.add_drug writable drug instructions t)))
      /\ incl (Database.get_all_drugs_dict t)
              (Database.get_all_drugs_dict
                 (snd (Database.add_drug writable drug instructions t)))).
Proof.
  intros Hr. apply DatabaseFacts.reachable_ok in Hr.
  pose proof (CatalogFacts.dict_keys (strip drug) Hr) as Hkeys.
  unfold Database.add_drug. destruct writable.
  2:{ cbn [fst snd]. split; [|split]; try discriminate; try reflexivity.
      split; [discriminate | intros [H _]; discriminate]. }
  destruct (Database.sql_insert (strip drug) (strip instructions) t)
    as [t'|] eqn:Hi; cbn [fst snd].
  - pose proof (@DatabaseFacts.insert_ok _ _ _ _ Hr Hi) as Hok'.
    unfold Database.sql_insert in Hi.
    destruct (Database.has_drug (strip drug) (Database.rows t)) eqn:E;
      [discriminate|]. injection Hi as <-.
    split; [|split].
    + split; [|reflexivity]. intros _. split; [reflexivity|].
      intros H. apply Hkeys in H. congruence.
    + discriminate.
    + intros _. split.
      * apply (CatalogFacts.dict_In _ _ Hok').
        exists (Database.last_id t + 1)%Z.
        cbn [Database.rows]. apply in_or_app. right. now left.
      * intros [d i] Hin. apply (CatalogFacts.dict_In _ _ Hr) in Hin.
        destruct Hin as [id Hin].
        apply (CatalogFacts.dict_In _ _ Hok'). exists id.
        cbn [Database.rows]. apply in_or_app. now left.
  - unfold Database.sql_insert in Hi.
    destruct (Database.has_drug (strip drug) (Database.rows t)) eqn:E;
      [|discriminate].
    split; [|split]; try discriminate; try reflexivity.
    split; [discriminate|]. intros [_ H]. exfalso. apply H.
    now apply Hkeys.
Qed.

Lemma add_drug_round_trip_witness :
  (fst (Database.add_drug true (lit " Gel") (lit "g ") two_drugs) = true <->
   true = true
   /\ ~ In (strip (lit " Gel"))
           (map fst (Database.get_all_drugs_dict two_drugs)))
  /\ (fst (Database.add_drug true (lit " Gel") (lit "g ") two_drugs) = false ->
      snd (Database.add_drug true (lit " Gel") (lit "g ") two_drugs)
      = two_drugs)
  /\ (fst (Database.add_drug true (lit " Gel") (lit "g ") two_drugs) = true ->
      In (strip (lit " Gel"), strip (lit "g "))
         (Database.get_all_drugs_dict
            (snd (Database.add_drug true (lit " Gel") (lit "g ") two_drugs)))
      /\ incl (Database.get_all_drugs_dict two_drugs)
              (Database.get_all_drugs_dict
                 (snd (Database.add_drug true (lit " Gel") (lit "g ")
                         two_drugs)))).
Proof.
  apply (@add_drug_round_trip true (lit " Gel") (lit "g ") two_drugs).
  unfold two_drugs. apply Database.reach_add, Database.reach_add.
  apply Database.reach_empty.
Defined.

Lemma existsb_false_in (A : Type) (f : A -> bool) (l : list A) :
  existsb f l = false -> forall x, In x l -> f x = false.
Proof.
  intros H x Hx. destruct (f x) eqn:E; [|reflexivity].
  assert (Ht : existsb f l = true) by (apply existsb_exists; now exists x).
  congruence.
Qed.

(** X21.  On an id that no row has, [update_drug] and [delete_drug] leave
    the table as it is, and they return [True] whenever SQLite carries the
    statement out, that is on a database that can be written and an id of 64
    bits: success is reported though nothing was updated or deleted.  On an
    id beyond 64 bits they return [False]. *)
Theorem missing_id_reports_success (writable : bool) (drug_id : Z)
  (drug instructions : str) (t : Database.table) :
  Database.has_id drug_id (Database.rows t) = false ->
  Database.update_drug writable drug_id drug instructions t
  = (writable && Database.int64 drug_id, t)
  /\ Database.delete_drug writable drug_id t
     = (writable && Database.int64 drug_id, t).
Proof.
  intros H. split.
  - unfold Database.update_drug, Database.sql_update. rewrite H.
    now destruct (writable && Database.int64 drug_id).
  - unfold Database.delete_drug, Database.sql_delete.
    destruct (writable && Database.int64 drug_id); [|reflexivity].
    f_equal. rewrite filter_all; [now destruct t|].
    intros r Hr. unfold Database.has_id in H.
    now rewrite (existsb_false_in _ _ H r Hr).
Qed.

Lemma missing_id_reports_success_witness :
  Database.update_drug true 7 (lit "Gel") (lit "g") two_drugs
  = (true && Database.int64 7, two_drugs)
  /\ Database.delete_drug true 7 two_drugs
     = (true && Database.int64 7, two_drugs).
Proof.
  apply (@missing_id_reports_success true 7%Z (lit "Gel") (lit "g")
           two_drugs).
  reflexivity.
Defined.

(** X22.  [admin_add] stores no blank: when the name or the instructions
    are missing or blank, the table is left as it is and the error message
    is flashed; and every row it adds has a trimmed name and trimmed
    instructions that are not empty. *)
Theorem admin_add_stores_no_blank (writable : bool)
  (drug instructions : option str) (t : Database.table) :
  ((strip (match drug with Some s => s | None => [] end) = []
    \/ strip (match instructions with Some s => s | None => [] end) = []) ->
   admin_add writable drug instructions t
   = ((lit "Both drug name and instructions are required", lit "error"), t))
  /\ forall r,
       In r (Database.rows (snd (admin_add writable drug instructions t))) ->
       In r (Database.rows t)
       \/ (Database.row_drug r <> []
           /\ strip (Database.row_drug r) = Database.row_drug r
           /\ Database.row_instructions r <> []
           /\ strip (Database.row_instructions r)
              = Database.row_instructions r).
Proof.
  unfold admin_add.
  set (d := strip match drug with Some s => s | None => [] end).
  set (i := strip match instructions with Some s => s | None => [] end).
  assert (Hd : strip d = d) by apply strip_with_idem.
  assert (Hi : strip i = i) by apply strip_with_idem.
  split.
  - intros [-> | ->]; [reflexivity|]. cbn. now rewrite orb_true_r.
  - intros r. destruct (negb (truthy d) || negb (truthy i)) eqn:Eb;
      [now left|].
    apply orb_false_elim in Eb. destruct Eb as [Ed Ei].
    unfold Database.add_drug, Database.sql_insert. rewrite Hd, Hi.
    destruct writable; [|now left].
    destruct (Database.has_drug d (Database.rows t)); cbn [snd];
      [now left|].
    cbn [Database.rows]. intros Hr. apply in_app_or in Hr.
    destruct Hr as [Hr | [<- | []]]; [now left | right].
    cbn [Database.row_drug Database.row_instructions].
    repeat split; try assumption.
    + destruct d; [discriminate | discriminate].
    + destruct i; [discriminate | discriminate].
Qed.

Lemma store_count (accepted : str -> bool) (l : list (str * str)) :
  forall n t,
    fst (fold_left
           (fun ct kv =>
              if accepted (fst kv)
              then (S (fst ct),
                    Database.sql_insert_or_replace (fst kv) (snd kv) (snd ct))
              else ct)
           l (n, t))
    = n + length (filter (fun kv => accepted (fst kv)) l).
Proof.
  induction l as [|kv l IH]; intros n t; [simpl; lia|].
  rewrite DatabaseFacts.store_step. cbn [filter].
  destruct (accepted (fst kv)); rewrite IH; cbn [length]; lia.
Qed.

Lemma store_preserves (accepted : str -> bool) (l : list (str * str))
  (r : Database.row) :
  ~ In (Database.row_drug r) (map fst l) ->
  forall n t,
    In r (Database.rows t) ->
    In r (Database.rows
            (snd (fold_left
                    (fun ct kv =>
                       if accepted (fst kv)
                       then (S (fst ct),
                             Database.sql_insert_or_replace (fst kv) (snd kv)
                                                            (snd ct))
                       else ct)
                    l (n, t)))).
Proof.
  induction l as [|[k v] l IH]; intros Hk n t Hr; [assumption|].
  rewrite DatabaseFacts.store_step. cbn [fst snd].
  assert (Hk' : ~ In (Database.row_drug r) (map fst l))
    by (intros H; apply Hk; now right).
  destruct (accepted k); apply IH; try assumption.
  cbn [Database.sql_insert_or_replace Database.rows].
  apply in_or_app. left. apply filter_In. split; [assumption|].
  apply negb_true_iff. destruct (str_eqb (Database.row_drug r) k) eqn:E;
    [|reflexivity].
  apply str_eqb_eq in E. exfalso. apply Hk. now left.
Qed.

Lemma store_has (accepted : str -> bool) (l : list (str * str)) (k v : str) :
  NoDup (map fst l) ->
  In (k, v) l ->
  accepted k = true ->
  forall n t,
  exists id,
    In (Database.mkRow id k v)
       (Database.rows
          (snd (fold_left
                  (fun ct kv =>
                     if accepted (fst kv)
                     then (S (fst ct),
                           Database.sql_insert_or_replace (fst kv) (snd kv)
                                                          (snd ct))
                     else ct)
                  l (n, t)))).
Proof.
  induction l as [|[k' v'] l IH]; intros Hn Hin Ha n t; [contradiction|].
  simpl in Hn. inversion Hn as [|? ? Hk Hn']; subst.
  rewrite DatabaseFacts.store_step. cbn [fst snd].
  destruct Hin as [He | Hin].
  - injection He as -> ->. rewrite Ha.
    exists (Database.last_id t + 1)%Z.
    apply store_preserves; [exact Hk|].
    cbn [Database.sql_insert_or_replace Database.rows].
    apply in_or_app. right. now left.
  - destruct (accepted k'); now apply IH.
Qed.

(** X23.  The import counts the entries of its dictionary that SQLite
    accepts, entries that replace a row included, and passes over the
    others; every entry that was accepted can be read back from the catalog
    afterwards. *)
Theorem store_all_round_trip (accepted : str -> bool)
  (instructions : list (str * str)) (t : Database.table) :
  Database.reachable t ->
  NoDup (map fst instructions) ->
  fst (Database.store_all accepted instructions t)
  = length (filter (fun kv => accepted (fst kv)) instructions)
  /\ forall drug html,
       In (drug, html) instructions ->
       accepted drug = true ->
       In (drug, html)
          (Database.get_all_drugs_dict
             (snd (Database.store_all accepted instructions t))).
Proof.
  intros Hr Hn. split.
  - unfold Database.store_all. now rewrite store_count.
  - intros k v Hin Ha.
    assert (Hok : Database.table_ok
                    (snd (Database.store_all accepted instructions t))).
    { apply DatabaseFacts.reachable_ok. now apply Database.reach_store. }
    apply (CatalogFacts.dict_In _ _ Hok).
    unfold Database.store_all. now apply store_has.
Qed.

Lemma store_all_round_trip_witness :
  fst (Database.store_all (fun name => negb (str_eqb name (lit "Cream")))
         [(lit "Aspirin", lit "new"); (lit "Cream", lit "c");
          (lit "Gel", lit "g")]
         two_drugs)
  = length (filter (fun kv => negb (str_eqb (fst kv) (lit "Cream")))
              [(lit "Aspirin", lit "new"); (lit "Cream", lit "c");
               (lit "Gel", lit "g")])
  /\ forall drug html,
       In (drug, html) [(lit "Aspirin", lit "new"); (lit "Cream", lit "c");
                        (lit "Gel", lit "g")] ->
       negb (str_eqb drug (lit "Cream")) = true ->
       In (drug, html)
          (Database.get_all_drugs_dict
             (snd (Database.store_all
                     (fun name => negb (str_eqb name (lit "Cream")))
                     [(lit "Aspirin", lit "new"); (lit "Cream", lit "c");
                      (lit "Gel", lit "g")]
                     two_drugs))).
Proof.
  apply (@store_all_round_trip
           (fun name => negb (str_eqb name (lit "Cream")))
           [(lit "Aspirin", lit "new"); (lit "Cream", lit "c");
            (lit "Gel", lit "g")]
           two_drugs).
  - unfold two_drugs. apply Database.reach_add, Database.reach_add.
    apply Database.reach_empty.
  - repeat constructor; simpl; intuition discriminate.
Defined.

(** ** The import *)

Module DocxFacts.
Import Database Docx.

Lemma has_key (k : str) (d : list (str * str)) :
  existsb (fun kv => str_eqb (fst kv) k) d = true <-> In k (map fst d).
Proof.
  rewrite existsb_exists, in_map_iff. split.
  - intros (kv & Hkv & He). apply str_eqb_eq in He. now exists kv.
  - intros (kv & He & Hkv). exists kv. split; [assumption|].
    now apply str_eqb_eq.
Qed.

Lemma setdefault_keeps (kv : str * str) (k v : str) (d : list (str * str)) :
  In kv d -> In kv (setdefault k v d).
Proof.
  unfold setdefault. destruct (existsb _ d); [auto|].
  intros H. apply in_or_app. now left.
Qed.

Lemma setdefault_ok (k v : str) (d : list (str * str)) :
  key_ok k -> dict_ok d -> dict_ok (setdefault k v d).
Proof.
  intros Hk [Hn Hf]. unfold setdefault.
  destruct (existsb _ d) eqn:E; [now split|].
  unfold dict_ok. rewrite map_app. cbn [map fst]. split.
  - apply DatabaseFacts.NoDup_snoc; [assumption|].
    intros H. apply has_key in H. congruence.
  - apply Forall_app. split; [assumption|].
    constructor; [assumption | constructor].
Qed.

Lemma dict_set_keys (k v : str) (d : list (str * str)) :
  map fst (dict_set k v d) = map fst d
  \/ (~ In k (map fst d) /\ map fst (dict_set k v d) = map fst d ++ [k]).
Proof.
  induction d as [|[k' v'] d IH]; simpl.
  - right. split; [tauto | reflexivity].
  - destruct (str_eqb k' k) eqn:E; [now left|].
    destruct IH as [IH | [Hk IH]]; cbn [map fst].
    + left. now rewrite IH.
    + right. split; [|now rewrite IH].
      intros [H | H]; [|contradiction].
      assert (Ht : str_eqb k' k = true) by now apply str_eqb_eq.
      congruence.
Qed.

Lemma dict_set_ok (k v : str) (d : list (str * str)) :
  key_ok k -> dict_ok d -> dict_ok (dict_set k v d).
Proof.
  intros Hk [Hn Hf]. unfold dict_ok.
  destruct (dict_set_keys k v d) as [-> | [Hnot ->]]; [now split|].
  split.
  - now apply DatabaseFacts.NoDup_snoc.
  - apply Forall_app. split; [assumption|].
    constructor; [assumption | constructor].
Qed.

Lemma strip_twice (s : str) : strip (strip s) = strip s.
Proof.
  apply strip_with_idem.
Qed.

Lemma stripped_key_ok (s : str) :
  truthy (strip s) && negb (is_header (strip s)) = true -> key_ok (strip s).
Proof.
  intros H. apply andb_prop in H. destruct H as [Ht Hh].
  apply negb_true_iff in Hh. unfold key_ok.
  split; [destruct (strip s); discriminate|].
  split; [apply strip_twice | exact Hh].
Qed.

(** What every step of the loop on the paragraphs keeps, the loop keeps. *)
Lemma read_paragraphs_keeps (P : list (str * str) -> Prop) :
  (forall k v d, key_ok k -> P d -> P (setdefault k v d)) ->
  forall paras d, P d -> P (read_paragraphs paras d).
Proof.
  intros Hstep.
  assert (H : forall n paras, length paras <= n ->
                forall d, P d -> P (read_paragraphs paras d)).
  { induction n as [|n IH]; intros paras Hlen d Hd.
    - destruct paras; [assumption | simpl in Hlen; lia].
    - destruct paras as [|line rest]; [assumption|].
      simpl in Hlen. assert (Hrest : length rest <= n) by lia.
      cbn [read_paragraphs].
      destruct (has_char ":" line).
      { destruct (split1 ":" line) as [key val].
        destruct (truthy (strip key) && negb (is_header (strip key))) eqn:Ek;
          [|now apply IH].
        apply stripped_key_ok in Ek.
        destruct (truthy (strip val)); [apply IH; auto|].
        destruct rest as [|next rest']; [assumption|].
        apply IH; [simpl in Hrest; lia | auto]. }
      destruct (has_char "-" line).
      { destruct (split1 "-" line) as [key val].
        destruct (truthy (strip key) && negb (is_header (strip key))) eqn:Ek;
          [|now apply IH].
        apply stripped_key_ok in Ek. apply IH; auto. }
      destruct (has_char (ascii_of_N 9) line); [|now apply IH].
      destruct (split1 (ascii_of_N 9) line) as [key val].
      destruct (truthy (strip key) && negb (is_header (strip key))) eqn:Ek;
        [|now apply IH].
      apply stripped_key_ok in Ek. apply IH; auto. }
  intros paras. exact (H (length paras) paras (le_n _)).
Qed.

Lemma read_row_ok (d : list (str * str)) (row : list str * str) :
  dict_ok d -> dict_ok (read_row d row).
Proof.
  intros Hd. unfold read_row.
  destruct ((2 <=? length (map strip (fst row)))
            && truthy (hd [] (map strip (fst row)))) eqn:E; [|assumption].
  destruct (negb (is_header (hd [] (map strip (fst row))))) eqn:Eh;
    [|assumption].
  apply dict_set_ok; [|assumption].
  apply andb_prop in E. destruct E as [_ Et].
  destruct (fst row) as [|c cells]; [discriminate|].
  cbn [map hd] in *. apply stripped_key_ok. now rewrite Et, Eh.
Qed.

Lemma read_tables_ok (ts : list (list (list str * str))) :
  forall d, dict_ok d -> dict_ok (read_tables ts d).
Proof.
  unfold read_tables. induction ts as [|table ts IH]; intros d Hd; simpl;
    [assumption|].
  apply IH. clear IH. revert d Hd.
  induction table as [|row table IH]; intros d Hd; simpl; [assumption|].
  apply IH. now apply read_row_ok.
Qed.

Lemma read_document_ok (doc : document) : dict_ok (read_document doc).
Proof.
  unfold read_document.
  apply (read_paragraphs_keeps dict_ok).
  - intros k v d. apply setdefault_ok.
  - apply read_tables_ok. split; constructor.
Qed.

End DocxFacts.

(** X24.  The names that the import writes are distinct, trimmed, not empty
    and none of the header words drug, medicine and name, in any case of
    letters. *)
Theorem import_names_are_clean (doc : Docx.document) :
  NoDup (map fst (Docx.read_document doc))
  /\ forall name,
       In name (map fst (Docx.read_document doc)) ->
       name <> [] /\ strip name = name
       /\ ~ In (lower name) (map lit ["drug"; "medicine"; "name"]%string).
Proof.
  destruct (DocxFacts.read_document_ok doc) as [Hn Hf].
  split; [assumption|].
  intros name Hin. rewrite Forall_forall in Hf.
  destruct (Hf name Hin) as (H1 & H2 & H3).
  split; [assumption|]. split; [assumption|].
  intros Hh. unfold Docx.is_header in H3.
  assert (Ht : existsb (str_eqb (lower name))
                 (map lit ["drug"; "medicine"; "name"]%string) = true).
  { apply existsb_exists. exists (lower name). split; [assumption|].
    now apply str_eqb_eq. }
  congruence.
Qed.

(** X25.  The tables win over the paragraphs: an entry read from the tables
    of the document and accepted by SQLite is, after an import that is
    committed, in the catalog that [get_all_drugs_dict] returns, whatever
    the paragraphs say of that name; the count returned is the number of
    names of the document that SQLite accepted; nothing is written when the
    file does not exist; and an import that cannot be committed returns
    nothing. *)
Theorem import_round_trip (doc : Docx.document) (accepted : str -> bool)
  (committed : bool) (t : Database.table) :
  Database.reachable t ->
  Docx.load_from_docx_to_db None accepted committed t = Some (0, t)
  /\ (committed = false ->
      Docx.load_from_docx_to_db (Some doc) accepted committed t = None)
  /\ (committed = true ->
      exists t',
        Docx.load_from_docx_to_db (Some doc) accepted committed t
        = Some (length (filter (fun kv => accepted (fst kv))
                               (Docx.read_document doc)), t')
        /\ forall name html,
             In (name, html) (Docx.read_tables (Docx.tables doc) []) ->
             accepted name = true ->
             In (name, html) (Database.get_all_drugs_dict t')).
Proof.
  intros Hr. cbn [Docx.load_from_docx_to_db].
  split; [reflexivity|]. split; [now intros ->|]. intros ->.
  exists (snd (Database.store_all accepted (Docx.read_document doc) t)).
  split.
  - f_equal. rewrite (surjective_pairing (Database.store_all _ _ _)).
    f_equal. unfold Database.store_all. now rewrite store_count.
  - intros name html Hin Ha.
    assert (Hok : Database.table_ok
                    (snd (Database.store_all accepted
                            (Docx.read_document doc) t))).
    { apply DatabaseFacts.reachable_ok. now apply Database.reach_store. }
    apply (CatalogFacts.dict_In _ _ Hok). unfold Database.store_all.
    apply store_has; [| |exact Ha].
    + apply DocxFacts.read_document_ok.
    + unfold Docx.read_document.
      apply (DocxFacts.read_paragraphs_keeps
               (fun d => In (name, html) d)); [|assumption].
      intros k v d _. apply DocxFacts.setdefault_keeps.
Qed.

Lemma import_round_trip_witness :
  Docx.load_from_docx_to_db None (fun _ => true) true two_drugs
  = Some (0, two_drugs)
  /\ (true = false ->
      Docx.load_from_docx_to_db (Some leaflet) (fun _ => true) true two_drugs
      = None)
  /\ (true = true ->
      exists t',
        Docx.load_from_docx_to_db (Some leaflet) (fun _ => true) true
                                  two_drugs
        = Some (length (filter (fun kv : str * str => true)
                               (Docx.read_document leaflet)), t')
        /\ forall name html,
             In (name, html) (Docx.read_tables (Docx.tables leaflet) []) ->
             true = true ->
             In (name, html) (Database.get_all_drugs_dict t')).
Proof.
  apply (@import_round_trip leaflet (fun _ => true) true two_drugs).
  unfold two_drugs. apply Database.reach_add, Database.reach_add.
  apply Database.reach_empty.
Defined.
